(** * Quackle simulator (sim.cpp): a shallow embedding and its properties

    The embedding follows [sim.cpp] function by function.  C++ [int] and
    [long] are integers of [Z] (signed overflow is undefined behaviour in
    C++ and is outside the model).  Where only the structure of a
    computation matters (which terms are added, with which sign, what is
    compared with what) a [double] is a real number of [R], that is exact
    arithmetic without rounding, infinities or NaN.
    [AveragedValue::standardDeviation] subtracts two nearly equal
    products and takes a square root, so what it returns depends on the
    rounding: it is modelled on the binary64 numbers of the kernel
    (module [Binary64]).  The rules engine (board, racks, bag, move generation, strategy tables) is an
    interface, [Engine], whose operations the simulator only calls. *)

From Stdlib Require Import Reals Lra Lia ZArith List Bool String Psatz.
From Stdlib Require Import Zfloor Permutation.
From Stdlib Require Floats Uint63.
Import ListNotations.

Local Open Scope Z_scope.

(** ** AveragedValue *)

Record AveragedValue : Type := mkAveragedValue {
  m_valueSum : R;
  m_squaredValueSum : R;
  m_incorporatedValues : Z
}.

(** Modelled from the spec: the constructor [AveragedValue()] of sim.h
    (not under src/), an accumulator that holds no value. *)
Definition AveragedValue_new : AveragedValue :=
  mkAveragedValue 0%R 0%R 0.

(** Modelled from the spec: [AveragedValue::incorporateValue] of sim.h,
    "adds x to S, x^2 to Q, increments n". *)
Definition incorporateValue (newValue : R) (a : AveragedValue) : AveragedValue :=
  mkAveragedValue (m_valueSum a + newValue)%R
                  (m_squaredValueSum a + newValue * newValue)%R
                  (m_incorporatedValues a + 1).

(** Modelled from the spec: [AveragedValue::hasValues] of sim.h. *)
Definition hasValues (a : AveragedValue) : bool :=
  0 <? m_incorporatedValues a.

(** Modelled from the spec: [AveragedValue::averagedValue] of sim.h,
    "S/n (undefined / zero when n=0)". *)
Definition averagedValue (a : AveragedValue) : R :=
  if m_incorporatedValues a =? 0 then 0%R
  else (m_valueSum a / IZR (m_incorporatedValues a))%R.

(** [AveragedValue::clear], sim.cpp 545-550. *)
Definition AveragedValue_clear (a : AveragedValue) : AveragedValue :=
  mkAveragedValue 0%R 0%R 0.

(** ** AveragedValue on binary64

    The accumulator with its sums as IEEE 754 binary64 numbers, every
    operation rounded to nearest, as the code computes them. *)
Module Binary64.

Import Floats.

Record AveragedValue : Type := mkAveragedValue {
  m_valueSum : float;
  m_squaredValueSum : float;
  m_incorporatedValues : Z
}.

(** Modelled from the spec: the constructor [AveragedValue()] of sim.h
    (not under src/), an accumulator that holds no value. *)
Definition AveragedValue_new : AveragedValue :=
  mkAveragedValue 0%float 0%float 0.

(** Modelled from the spec: [AveragedValue::incorporateValue] of sim.h,
    "adds x to S, x^2 to Q, increments n". *)
Definition incorporateValue (newValue : float) (a : AveragedValue) : AveragedValue :=
  mkAveragedValue (m_valueSum a + newValue)%float
                  (m_squaredValueSum a + newValue * newValue)%float
                  (m_incorporatedValues a + 1).






End Binary64.

(** ** Conversions and comparisons on double *)

(** [(int) x]: conversion of a double to int truncates toward zero. *)
Definition double_to_int (x : R) : Z :=
  if Rle_dec 0 x then Zfloor x else Zceil x.

(** [x >= y] on doubles. *)
Definition Rge_bool (x y : R) : bool :=
  if Rle_dec y x then true else false.

(** [x != 0] on doubles. *)
Definition Rnonzero (x : R) : bool :=
  if Req_dec_T x 0 then false else true.

(** ** Moves *)

(** The fields of [Quackle::Move] (move.h) that the simulator reads or
    writes; [tiles] stands for the play itself (action, position, letters). *)
Record Move : Type := mkMove {
  tiles : string;
  score : Z;
  isBingo : bool;
  equity : R;
  win : R
}.

Definition MoveList := list Move.

(** [move.score = v]. *)
Definition Move_setScore (v : Z) (m : Move) : Move :=
  mkMove (tiles m) v (isBingo m) (equity m) (win m).

(** [move.equity = e; move.win = w]. *)
Definition Move_setEquityWin (e w : R) (m : Move) : Move :=
  mkMove (tiles m) (score m) (isBingo m) e w.

Inductive SortType : Type := Equity | Win.

Definition sortKey (type : SortType) (m : Move) : R :=
  match type with Equity => equity m | Win => win m end.

(** Modelled from the spec: [MoveList::sort] of move.cpp (not under
    src/), "sorted by equity descending" (or by win), as a stable sort:
    a move goes before the first move whose key is not greater. *)
Fixpoint MoveList_insert (type : SortType) (m : Move) (l : MoveList) : MoveList :=
  match l with
  | [] => [m]
  | m' :: rest =>
      if Rge_bool (sortKey type m) (sortKey type m') then m :: m' :: rest
      else m' :: MoveList_insert type m rest
  end.

Definition MoveList_sort (type : SortType) (l : MoveList) : MoveList :=
  fold_right (MoveList_insert type) [] l.

(** ** The statistics grid *)

Record PositionStatistics : Type := mkPositionStatistics {
  ps_score : AveragedValue;
  ps_bingos : AveragedValue
}.

Definition PositionStatistics_new : PositionStatistics :=
  mkPositionStatistics AveragedValue_new AveragedValue_new.

Record Level : Type := mkLevel {
  statistics : list PositionStatistics
}.

Definition Level_new : Level := mkLevel [].

Definition LevelList := list Level.

(** [Level::setNumberScores], sim.cpp 615-619: extends, never truncates. *)
Definition setNumberScores (number : Z) (l : Level) : Level :=
  mkLevel (statistics l
           ++ repeat PositionStatistics_new
                (Z.to_nat number - List.length (statistics l))%nat).

(** [LevelList::setNumberLevels], sim.cpp 584-588. *)
Definition setNumberLevels (number : Z) (l : LevelList) : LevelList :=
  l ++ repeat Level_new (Z.to_nat number - List.length l)%nat.

(** ** SimmedMove *)

Record SimmedMove : Type := mkSimmedMove {
  move : Move;
  levels : LevelList;
  residual : AveragedValue;
  gameSpread : AveragedValue;
  wins : AveragedValue;
  m_id : Z;
  m_includeInSimulation : bool
}.

Definition SimmedMoveList := list SimmedMove.

(** Modelled from the spec: the constructor [SimmedMove(move)] of sim.h
    (not under src/): empty accumulators, included, and the id it is
    given by the process-wide counter. *)
Definition SimmedMove_new (m : Move) (id : Z) : SimmedMove :=
  mkSimmedMove m [] AveragedValue_new AveragedValue_new AveragedValue_new
               id true.

Definition setIncludeInSimulation (b : bool) (sm : SimmedMove) : SimmedMove :=
  mkSimmedMove (move sm) (levels sm) (residual sm) (gameSpread sm) (wins sm)
               (m_id sm) b.

Definition SimmedMove_setLevels (l : LevelList) (sm : SimmedMove) : SimmedMove :=
  mkSimmedMove (move sm) l (residual sm) (gameSpread sm) (wins sm)
               (m_id sm) (m_includeInSimulation sm).

(** [SimmedMove::clear], sim.cpp 590-593: [levels.clear()] and nothing
    else. *)
Definition SimmedMove_clear (sm : SimmedMove) : SimmedMove :=
  SimmedMove_setLevels [] sm.

(** The inner loop of [calculateEquity]: [first] tells whether [scoresIt]
    is [statistics.begin()]. *)
Fixpoint calculateEquity_scores (first : bool) (stats : list PositionStatistics)
    (equity : R) : R :=
  match stats with
  | [] => equity
  | scoresIt :: rest =>
      calculateEquity_scores false rest
        (if first then (equity + averagedValue (ps_score scoresIt))%R
         else (equity - averagedValue (ps_score scoresIt))%R)
  end.

(** [SimmedMove::calculateEquity], sim.cpp 554-577. *)
Definition calculateEquity (sm : SimmedMove) : R :=
  match levels sm with
  | [] => equity (move sm)
  | _ :: _ =>
      let equity :=
        fold_left (fun equity levelIt =>
                     calculateEquity_scores true (statistics levelIt) equity)
                  (levels sm) 0%R in
      (equity + averagedValue (residual sm))%R
  end.

(** [SimmedMove::calculateWinPercentage], sim.cpp 579-582. *)
Definition calculateWinPercentage (sm : SimmedMove) : R :=
  if hasValues (wins sm) then (averagedValue (wins sm) * 100)%R
  else win (move sm).

(** One iteration's output for one candidate (sim.h). *)
Record SimmedMoveMessage : Type := mkSimmedMoveMessage {
  msg_id : Z;
  msg_levels : LevelList;
  msg_residual : R;
  msg_gameSpread : Z;
  msg_wins : R;
  msg_bogowin : bool
}.

(** ** The collaborators of the simulator

    The rules engine, the strategy table and the file system, used only
    through these operations.  [Game] is [Quackle::Game] seen through its
    current position; it carries the state of the random generator. *)
Record Engine : Type := mkEngine {
  Game : Type;
  GamePosition : Type;
  Rack : Type;
  Move_eqb : Move -> Move -> bool;            (* operator== of move.h *)
  createPassMove : Move;                      (* Move::createPassMove() *)
  setCurrentPosition : GamePosition -> Game -> Game;
  positionMoves : Game -> MoveList;           (* currentPosition().moves() *)
  gameOver : Game -> bool;
  currentPlayerId : Game -> Z;                (* currentPlayer().id() *)
  playersSize : Game -> Z;                    (* players().size() *)
  staticBestMove : Game -> Move;
  doesMoveEndGame : Game -> Move -> bool;
  deadwood : Game -> Z;
  calculatePlayerConsideration : Game -> Move -> R;
  calculateSharedConsideration : Game -> Move -> R;
  setCandidate : Move -> Game -> Game;
  commitCandidate : bool -> Game -> Game;     (* argument: maintain board *)
  spread : Game -> Z -> Z;
  bagSize : Game -> Z;                        (* bag().size() *)
  rackSize : Z;                               (* QUACKLE_PARAMETERS->rackSize() *)
  bogowin : Z -> Z -> Z -> R;                 (* QUACKLE_STRATEGY_PARAMETERS *)
  rackXml : Game -> string;                   (* currentPlayer().rack().xml() *)
  moveXml : Move -> string;                   (* move.xml() *)
  refillOppoRacks : Rack -> Game -> Game;
  shuffleDrawingOrder : Game -> Game;
  logfileOpens : string -> bool -> bool       (* does open(path, flags) succeed *)
}.

(** What the simulator writes to its log stream, one entry per line;
    [indent] is [m_xmlIndent], a string of tabs, given by its length. *)
Inductive LogEntry : Type :=
| LogSimulationOpen
| LogSimulationClose
| LogIterationOpen (indent : nat) (index : Z)
| LogIterationClose (indent : nat)
| LogPlyOpen (indent : nat) (index : Z)
| LogPlyClose (indent : nat)
| LogLine (indent : nat) (text : string)
| LogPc (indent : nat) (value : R)
| LogSc (indent : nat) (value : R)
| LogPlayaheadOpen (indent : nat)
| LogPlayaheadClose (indent : nat)
| LogGameover (indent : nat) (win : R)
| LogMessage (message : string).

(** [ComputerDispatch] (computerplayer.h): the answers of [shouldAbort()]
    come from outside the simulator; the k-th call gets [answers k]. *)
Definition ComputerDispatch := nat -> bool.

Section Simulator.

Variable E : Engine.

(** The members of [Simulator] (sim.h), with the written part of the log
    stream, the diagnostic stream and the static id counter of
    [SimmedMove]. *)
Record Simulator : Type := mkSimulator {
  m_logfile : string;
  m_logfileIsOpen : bool;
  m_hasHeader : bool;
  m_xmlIndent : nat;
  m_logfileStream : list LogEntry;
  cerr : list string;
  m_dispatch : option ComputerDispatch;
  m_iterations : Z;
  m_ignoreOppos : bool;
  m_originalGame : Game E;
  m_simulatedGame : Game E;
  m_partialOppoRack : Rack E;
  m_consideredMoves : MoveList;
  m_simmedMoves : SimmedMoveList;
  objectIdCounter : Z
}.

Definition set_m_logfile (v : string) (s : Simulator) : Simulator :=
  mkSimulator v (m_logfileIsOpen s) (m_hasHeader s) (m_xmlIndent s)
    (m_logfileStream s) (cerr s) (m_dispatch s) (m_iterations s)
    (m_ignoreOppos s) (m_originalGame s) (m_simulatedGame s)
    (m_partialOppoRack s) (m_consideredMoves s) (m_simmedMoves s)
    (objectIdCounter s).

Definition set_m_logfileIsOpen (v : bool) (s : Simulator) : Simulator :=
  mkSimulator (m_logfile s) v (m_hasHeader s) (m_xmlIndent s)
    (m_logfileStream s) (cerr s) (m_dispatch s) (m_iterations s)
    (m_ignoreOppos s) (m_originalGame s) (m_simulatedGame s)
    (m_partialOppoRack s) (m_consideredMoves s) (m_simmedMoves s)
    (objectIdCounter s).

Definition set_m_hasHeader (v : bool) (s : Simulator) : Simulator :=
  mkSimulator (m_logfile s) (m_logfileIsOpen s) v (m_xmlIndent s)
    (m_logfileStream s) (cerr s) (m_dispatch s) (m_iterations s)
    (m_ignoreOppos s) (m_originalGame s) (m_simulatedGame s)
    (m_partialOppoRack s) (m_consideredMoves s) (m_simmedMoves s)
    (objectIdCounter s).

Definition set_m_xmlIndent (v : nat) (s : Simulator) : Simulator :=
  mkSimulator (m_logfile s) (m_logfileIsOpen s) (m_hasHeader s) v
    (m_logfileStream s) (cerr s) (m_dispatch s) (m_iterations s)
    (m_ignoreOppos s) (m_originalGame s) (m_simulatedGame s)
    (m_partialOppoRack s) (m_consideredMoves s) (m_simmedMoves s)
    (objectIdCounter s).

Definition set_m_logfileStream (v : list LogEntry) (s : Simulator)
    : Simulator :=
  mkSimulator (m_logfile s) (m_logfileIsOpen s) (m_hasHeader s)
    (m_xmlIndent s) v (cerr s) (m_dispatch s) (m_iterations s)
    (m_ignoreOppos s) (m_originalGame s) (m_simulatedGame s)
    (m_partialOppoRack s) (m_consideredMoves s) (m_simmedMoves s)
    (objectIdCounter s).

Definition set_cerr (v : list string) (s : Simulator) : Simulator :=
  mkSimulator (m_logfile s) (m_logfileIsOpen s) (m_hasHeader s)
    (m_xmlIndent s) (m_logfileStream s) v (m_dispatch s) (m_iterations s)
    (m_ignoreOppos s) (m_originalGame s) (m_simulatedGame s)
    (m_partialOppoRack s) (m_consideredMoves s) (m_simmedMoves s)
    (objectIdCounter s).

Definition set_m_dispatch (v : option ComputerDispatch) (s : Simulator)
    : Simulator :=
  mkSimulator (m_logfile s) (m_logfileIsOpen s) (m_hasHeader s)
    (m_xmlIndent s) (m_logfileStream s) (cerr s) v (m_iterations s)
    (m_ignoreOppos s) (m_originalGame s) (m_simulatedGame s)
    (m_partialOppoRack s) (m_consideredMoves s) (m_simmedMoves s)
    (objectIdCounter s).

Definition set_m_iterations (v : Z) (s : Simulator) : Simulator :=
  mkSimulator (m_logfile s) (m_logfileIsOpen s) (m_hasHeader s)
    (m_xmlIndent s) (m_logfileStream s) (cerr s) (m_dispatch s) v
    (m_ignoreOppos s) (m_originalGame s) (m_simulatedGame s)
    (m_partialOppoRack s) (m_consideredMoves s) (m_simmedMoves s)
    (objectIdCounter s).

Definition set_m_ignoreOppos (v : bool) (s : Simulator) : Simulator :=
  mkSimulator (m_logfile s) (m_logfileIsOpen s) (m_hasHeader s)
    (m_xmlIndent s) (m_logfileStream s) (cerr s) (m_dispatch s)
    (m_iterations s) v (m_originalGame s) (m_simulatedGame s)
    (m_partialOppoRack s) (m_consideredMoves s) (m_simmedMoves s)
    (objectIdCounter s).

Definition set_m_originalGame (v : Game E) (s : Simulator) : Simulator :=
  mkSimulator (m_logfile s) (m_logfileIsOpen s) (m_hasHeader s)
    (m_xmlIndent s) (m_logfileStream s) (cerr s) (m_dispatch s)
    (m_iterations s) (m_ignoreOppos s) v (m_simulatedGame s)
    (m_partialOppoRack s) (m_consideredMoves s) (m_simmedMoves s)
    (objectIdCounter s).

Definition set_m_simulatedGame (v : Game E) (s : Simulator) : Simulator :=
  mkSimulator (m_logfile s) (m_logfileIsOpen s) (m_hasHeader s)
    (m_xmlIndent s) (m_logfileStream s) (cerr s) (m_dispatch s)
    (m_iterations s) (m_ignoreOppos s) (m_originalGame s) v
    (m_partialOppoRack s) (m_consideredMoves s) (m_simmedMoves s)
    (objectIdCounter s).

Definition set_m_partialOppoRack (v : Rack E) (s : Simulator) : Simulator :=
  mkSimulator (m_logfile s) (m_logfileIsOpen s) (m_hasHeader s)
    (m_xmlIndent s) (m_logfileStream s) (cerr s) (m_dispatch s)
    (m_iterations s) (m_ignoreOppos s) (m_originalGame s)
    (m_simulatedGame s) v (m_consideredMoves s) (m_simmedMoves s)
    (objectIdCounter s).

Definition set_m_consideredMoves (v : MoveList) (s : Simulator) : Simulator :=
  mkSimulator (m_logfile s) (m_logfileIsOpen s) (m_hasHeader s)
    (m_xmlIndent s) (m_logfileStream s) (cerr s) (m_dispatch s)
    (m_iterations s) (m_ignoreOppos s) (m_originalGame s)
    (m_simulatedGame s) (m_partialOppoRack s) v (m_simmedMoves s)
    (objectIdCounter s).

Definition set_m_simmedMoves (v : SimmedMoveList) (s : Simulator)
    : Simulator :=
  mkSimulator (m_logfile s) (m_logfileIsOpen s) (m_hasHeader s)
    (m_xmlIndent s) (m_logfileStream s) (cerr s) (m_dispatch s)
    (m_iterations s) (m_ignoreOppos s) (m_originalGame s)
    (m_simulatedGame s) (m_partialOppoRack s) (m_consideredMoves s) v
    (objectIdCounter s).

Definition set_objectIdCounter (v : Z) (s : Simulator) : Simulator :=
  mkSimulator (m_logfile s) (m_logfileIsOpen s) (m_hasHeader s)
    (m_xmlIndent s) (m_logfileStream s) (cerr s) (m_dispatch s)
    (m_iterations s) (m_ignoreOppos s) (m_originalGame s)
    (m_simulatedGame s) (m_partialOppoRack s) (m_consideredMoves s)
    (m_simmedMoves s) v.

(** *** Logging *)

(** [isLogging()] of sim.h returns [m_logfileIsOpen]. *)
Definition isLogging (s : Simulator) : bool := m_logfileIsOpen s.

(** [hasSimulationResults()] of sim.h: at least one iteration was run. *)
Definition hasSimulationResults (s : Simulator) : bool := 0 <? m_iterations s.

Definition write (e : LogEntry) (s : Simulator) : Simulator :=
  set_m_logfileStream (m_logfileStream s ++ [e]) s.

(** [Simulator::writeLogHeader], sim.cpp 105-116. *)
Definition writeLogHeader (s : Simulator) : Simulator :=
  if isLogging s then
    set_m_hasHeader true (set_m_xmlIndent 1%nat (write LogSimulationOpen s))
  else s.

(** [Simulator::writeLogFooter], sim.cpp 118-127. *)
Definition writeLogFooter (s : Simulator) : Simulator :=
  if isLogging s then
    set_m_hasHeader false (write LogSimulationClose (set_m_xmlIndent 0%nat s))
  else s.

(** [Simulator::closeLogfile], sim.cpp 93-103. *)
Definition closeLogfile (s : Simulator) : Simulator :=
  if isLogging s then
    let s := if m_hasHeader s then writeLogFooter s else s in
    set_m_logfileIsOpen false s
  else s.

(** [Simulator::setLogfile], sim.cpp 63-85. *)
Definition setLogfile (logfile : string) (append : bool) (s : Simulator)
    : Simulator :=
  if String.eqb (m_logfile s) logfile && isLogging s then s
  else
    let s := closeLogfile s in
    let s := set_m_logfile logfile s in
    if String.eqb (m_logfile s) EmptyString then closeLogfile s
    else
      let s := set_m_logfileIsOpen (logfileOpens E (m_logfile s) append) s in
      let s :=
        if negb (m_logfileIsOpen s) then
          set_cerr (cerr s ++ [String.append "Could not open "
                                 (String.append (m_logfile s)
                                    " to write simulation log")]) s
        else s in
      set_m_hasHeader false s.

(** [Simulator::logMessage], sim.cpp 87-91. *)
Definition logMessage (message : string) (s : Simulator) : Simulator :=
  if isLogging s then write (LogMessage message) s else s.

(** [Simulator::setDispatch], sim.cpp 129-132. *)
Definition setDispatch (dispatch : option ComputerDispatch) (s : Simulator)
    : Simulator :=
  set_m_dispatch dispatch s.

(** *** The candidate set *)

(** [m_simmedMoves.push_back(SimmedMove(it))]: the constructor takes the
    next id of the counter. *)
Definition push_SimmedMove (it : Move) (s : Simulator) : Simulator :=
  let id := objectIdCounter s + 1 in
  set_m_simmedMoves (m_simmedMoves s ++ [SimmedMove_new it id])
    (set_objectIdCounter id s).

(** The search loop of [setIncludedMoves], sim.cpp 142-150: the first
    simmed move equal to [it] is marked included; [None] when there is
    none ([found] stays false). *)
Fixpoint include_first (it : Move) (l : SimmedMoveList) : option SimmedMoveList :=
  match l with
  | [] => None
  | simmedMoveIt :: rest =>
      if Move_eqb E it (move simmedMoveIt)
      then Some (setIncludeInSimulation true simmedMoveIt :: rest)
      else match include_first it rest with
           | Some rest' => Some (simmedMoveIt :: rest')
           | None => None
           end
  end.

Definition include_move (s : Simulator) (it : Move) : Simulator :=
  match include_first it (m_simmedMoves s) with
  | Some l => set_m_simmedMoves l s
  | None => push_SimmedMove it s
  end.

(** [Simulator::setIncludedMoves], sim.cpp 134-155. *)
Definition setIncludedMoves (moves : MoveList) (s : Simulator) : Simulator :=
  let s :=
    set_m_simmedMoves (map (setIncludeInSimulation false) (m_simmedMoves s)) s in
  fold_left include_move moves s.

(** [Simulator::addConsideredMove], sim.cpp 181-184. *)
Definition addConsideredMove (m : Move) (s : Simulator) : Simulator :=
  set_m_consideredMoves (m_consideredMoves s ++ [m]) s.

(** The loop of [moves], sim.cpp 487-501. *)
Definition moves_collect (prune useCalculatedEquity : bool)
    (l : SimmedMoveList) : MoveList :=
  flat_map (fun it =>
              if prune && negb (m_includeInSimulation it) then []
              else if useCalculatedEquity
                   then [Move_setEquityWin (calculateEquity it)
                           (averagedValue (wins it)) (move it)]
                   else [move it]) l.

(** [Simulator::moves], sim.cpp 481-509. *)
Definition moves (prune byWin : bool) (s : Simulator) : MoveList :=
  let useCalculatedEquity := hasSimulationResults s in
  let ret := moves_collect prune useCalculatedEquity (m_simmedMoves s) in
  if byWin && useCalculatedEquity then MoveList_sort Win ret
  else MoveList_sort Equity ret.

(** The loop of [pruneTo], sim.cpp 199-204; [i] counts the moves seen. *)
Fixpoint pruneTo_loop (absoluteEquityThreshold : R) (maxNumberOfMoves i : Z)
    (l : MoveList) : MoveList :=
  match l with
  | [] => []
  | it :: rest =>
      if i <? maxNumberOfMoves then
        if Rge_bool (equity it) absoluteEquityThreshold
        then it :: pruneTo_loop absoluteEquityThreshold maxNumberOfMoves (i + 1) rest
        else pruneTo_loop absoluteEquityThreshold maxNumberOfMoves (i + 1) rest
      else []
  end.

(** [Simulator::pruneTo], sim.cpp 192-207.  With no included move
    [equityMoves[0]] is read out of bounds: no result. *)
Definition pruneTo (equityThreshold : R) (maxNumberOfMoves : Z) (s : Simulator)
    : option Simulator :=
  let equityMoves := moves true false s in
  match equityMoves with
  | [] => None
  | first :: _ =>
      let absoluteEquityThreshold := (equity first - equityThreshold)%R in
      let toSetIncluded :=
        pruneTo_loop absoluteEquityThreshold maxNumberOfMoves 0 equityMoves in
      Some (setIncludedMoves toSetIncluded s)
  end.

(** [Simulator::resetNumbers], sim.cpp 209-215. *)
Definition resetNumbers (s : Simulator) : Simulator :=
  set_m_iterations 0 (set_m_simmedMoves (map SimmedMove_clear (m_simmedMoves s)) s).

(** [Simulator::setPosition], sim.cpp 48-61. *)
Definition setPosition (position : GamePosition E) (s : Simulator) : Simulator :=
  let s := if hasSimulationResults s then writeLogFooter s else s in
  let s := set_m_originalGame
             (setCurrentPosition E position (m_originalGame s)) s in
  let s := set_m_consideredMoves [] s in
  let s := set_m_simmedMoves [] s in
  let s := fold_left (fun s it => push_SimmedMove it s)
             (positionMoves E (m_originalGame s)) s in
  resetNumbers s.

(** [Simulator::setPartialOppoRack], sim.cpp 471-474. *)
Definition setPartialOppoRack (rack : Rack E) (s : Simulator) : Simulator :=
  set_m_partialOppoRack rack s.

(** [Simulator::randomizeOppoRacks], sim.cpp 438-469, and
    [randomizeDrawingOrder], 476-479: both only call the rules engine on
    the original game (bag, racks, drawing order); each is one operation
    of [Engine]. *)
Definition randomizeOppoRacks (s : Simulator) : Simulator :=
  set_m_originalGame (refillOppoRacks E (m_partialOppoRack s) (m_originalGame s)) s.

Definition randomizeDrawingOrder (s : Simulator) : Simulator :=
  set_m_originalGame (shuffleDrawingOrder E (m_originalGame s)) s.

(** *** One rollout: the body of the loop over the simmed moves *)

(** What one pass through the ply loop did: where it was, which move it
    chose and committed, the two predicates and the engine calls made. *)
Record PlyRecord : Type := mkPlyRecord {
  ply_levelNumber : Z;
  ply_slot : Z;                      (* place of scoresIt in its level, from 1 *)
  ply_playerNumber : Z;              (* value of playerNumber in the body *)
  ply_position : Game E;             (* the position before the ply *)
  ply_move : Move;                   (* the move chosen *)
  ply_candidate : Move;              (* argument of setCandidate *)
  ply_isFinalTurnForPlayer : bool;
  ply_isVeryFinalTurn : bool;
  ply_playerConsideration : bool;    (* calculatePlayerConsideration called *)
  ply_sharedConsideration : bool;    (* calculateSharedConsideration called *)
  ply_maintainBoard : bool           (* argument of commitCandidate *)
}.

(** The variables a rollout changes: [m_simulatedGame], [residual], the
    log, and the list of the plies played so far. *)
Record Rollout : Type := mkRollout {
  r_game : Game E;
  r_residual : R;
  r_xmlIndent : nat;
  r_stream : list LogEntry;
  r_plies : list PlyRecord
}.

Definition r_write (logging : bool) (e : nat -> LogEntry) (st : Rollout) : Rollout :=
  if logging then
    mkRollout (r_game st) (r_residual st) (r_xmlIndent st)
              (r_stream st ++ [e (r_xmlIndent st)]) (r_plies st)
  else st.

Definition r_setIndent (logging : bool) (f : nat -> nat) (st : Rollout) : Rollout :=
  if logging then
    mkRollout (r_game st) (r_residual st) (f (r_xmlIndent st))
              (r_stream st) (r_plies st)
  else st.

Section Rollout.

Variables startPlayerId numberOfPlayers decimalTurns levelsCount : Z.
Variables ignoreOppos logging : bool.
Variable candidateMove : Move.          (* moveIt.move *)

(** The choice of the move, sim.cpp 304-311. *)
Definition chooseMove (levelNumber : Z) (pos : Game E) : Move :=
  let playerId := currentPlayerId E pos in
  if (playerId =? startPlayerId) && (levelNumber =? 1) then candidateMove
  else if ignoreOppos && negb (playerId =? startPlayerId) then createPassMove E
  else staticBestMove E pos.

(** sim.cpp 333-338. *)
Definition isFinalTurnForPlayerOfSimulation (levelNumber playerNumber : Z) : bool :=
  if levelNumber =? levelsCount then decimalTurns <? playerNumber
  else if levelNumber =? levelsCount + 1 then playerNumber <=? decimalTurns
  else false.

(** sim.cpp 340. *)
Definition isVeryFinalTurnOfSimulation (levelNumber playerNumber : Z) : bool :=
  ((decimalTurns =? 0) && (levelNumber =? levelsCount)
   && (playerNumber =? numberOfPlayers))
  || ((levelNumber =? levelsCount + 1) && (playerNumber =? decimalTurns)).

(** The move with the deadwood added to its score, sim.cpp 313-321. *)
Definition deadwoodScoreOf (pos : Game E) (m : Move) : Z :=
  if doesMoveEndGame E pos m then deadwood E pos else 0.

Definition withDeadwood (pos : Game E) (m : Move) : Move :=
  if doesMoveEndGame E pos m then Move_setScore (score m + deadwood E pos) m
  else m.

(** The record of the ply played from [pos]. *)
Definition plyRecord (levelNumber slot playerNumber : Z) (pos : Game E)
    : PlyRecord :=
  let playerId := currentPlayerId E pos in
  let m := chooseMove levelNumber pos in
  let m1 := withDeadwood pos m in
  let final := isFinalTurnForPlayerOfSimulation levelNumber playerNumber in
  let veryFinal := isVeryFinalTurnOfSimulation levelNumber playerNumber in
  let considered :=
    final && negb (ignoreOppos && negb (playerId =? startPlayerId)) in
  mkPlyRecord levelNumber slot playerNumber pos m
    (Move_setScore (score m1 - deadwoodScoreOf pos m) m1)
    final veryFinal considered (considered && veryFinal) (negb veryFinal).

(** The residual part of the body, sim.cpp 342-364. *)
Definition recordResidual (levelNumber playerNumber : Z) (pos : Game E)
    (m : Move) (st : Rollout) : Rollout :=
  let playerId := currentPlayerId E pos in
  if isFinalTurnForPlayerOfSimulation levelNumber playerNumber
     && negb (ignoreOppos && negb (playerId =? startPlayerId))
  then
    let residualAddend := calculatePlayerConsideration E pos m in
    let st := r_write logging (fun i => LogPc i residualAddend) st in
    let '(residualAddend, st) :=
      if isVeryFinalTurnOfSimulation levelNumber playerNumber then
        let sharedResidual := calculateSharedConsideration E pos m in
        ((residualAddend + sharedResidual)%R,
         r_write (logging && Rnonzero sharedResidual)
                 (fun i => LogSc i sharedResidual) st)
      else (residualAddend, st) in
    mkRollout (r_game st)
              (if playerId =? startPlayerId
               then (r_residual st + residualAddend)%R
               else (r_residual st - residualAddend)%R)
              (r_xmlIndent st) (r_stream st) (r_plies st)
  else st.

(** The body of the loop over the slots of a level, sim.cpp 296-377,
    after [++playerNumber]. *)
Definition simulate_ply (levelNumber slot playerNumber : Z)
    (scoresIt : PositionStatistics) (st : Rollout)
    : PositionStatistics * Rollout :=
  let pos := r_game st in
  let st :=
    r_setIndent logging S
      (r_write logging
         (fun i => LogPlyOpen i
                     ((levelNumber - 1) * numberOfPlayers + playerNumber - 1))
         st) in
  let m := chooseMove levelNumber pos in
  let deadwoodScore := deadwoodScoreOf pos m in
  let m := withDeadwood pos m in
  let scoresIt :=
    mkPositionStatistics
      (incorporateValue (IZR (score m)) (ps_score scoresIt))
      (incorporateValue (if isBingo m then 1%R else 0%R) (ps_bingos scoresIt)) in
  let st := r_write logging (fun i => LogLine i (rackXml E pos)) st in
  let st := r_write logging (fun i => LogLine i (moveXml E m)) st in
  let st := recordResidual levelNumber playerNumber pos m st in
  let m := Move_setScore (score m - deadwoodScore) m in
  let game :=
    commitCandidate E
      (negb (isVeryFinalTurnOfSimulation levelNumber playerNumber))
      (setCandidate E m pos) in
  let st :=
    mkRollout game (r_residual st) (r_xmlIndent st) (r_stream st)
              (r_plies st ++ [plyRecord levelNumber slot playerNumber pos]) in
  let st := r_setIndent logging Nat.pred st in
  let st := r_write logging LogPlyClose st in
  (scoresIt, st).

(** The loop over the slots of a level, sim.cpp 290-378.  [playerNumber]
    is the variable of the source, incremented at the head of the body;
    [slot] is the place of [scoresIt] in the level. *)
Fixpoint plies_loop (levelNumber slot playerNumber : Z)
    (stats : list PositionStatistics) (st : Rollout)
    : list PositionStatistics * Rollout :=
  match stats with
  | [] => ([], st)
  | scoresIt :: rest =>
      if gameOver E (r_game st) then (stats, st)
      else
        let playerNumber := playerNumber + 1 in
        let '(scoresIt, st) :=
          simulate_ply levelNumber slot playerNumber scoresIt st in
        let '(rest, st) :=
          plies_loop levelNumber (slot + 1) playerNumber rest st in
        (scoresIt :: rest, st)
  end.

(** The loop over the levels, sim.cpp 281-379. *)
Fixpoint levels_loop (levelNumber : Z) (lvls : LevelList) (st : Rollout)
    : LevelList * Rollout :=
  match lvls with
  | [] => ([], st)
  | levelIt :: rest =>
      if (levelNumber <=? levelsCount + 1) && negb (gameOver E (r_game st)) then
        let decimal :=
          if levelNumber =? levelsCount + 1 then decimalTurns
          else numberOfPlayers in
        if decimal =? 0 then
          let '(rest, st) := levels_loop (levelNumber + 1) rest st in
          (levelIt :: rest, st)
        else
          let levelIt := setNumberScores decimal levelIt in
          let '(stats, st) :=
            plies_loop levelNumber 1 1 (statistics levelIt) st in
          let '(rest, st) := levels_loop (levelNumber + 1) rest st in
          (mkLevel stats :: rest, st)
      else (lvls, st)
  end.

(** The end of a rollout, sim.cpp 381-397: the message but for its
    levels, from the final position and the residual. *)
Definition rolloutMessage (id : Z) (lvls : LevelList) (game : Game E)
    (residual : R) : SimmedMoveMessage :=
  let spread := spread E game startPlayerId in
  if gameOver E game then
    mkSimmedMoveMessage id lvls residual spread
      (if 0 <? spread then 1%R else if spread =? 0 then (1 / 2)%R else 0%R)
      false
  else
    mkSimmedMoveMessage id lvls residual spread
      (if currentPlayerId E game =? startPlayerId then
         bogowin E (double_to_int (IZR spread + residual))
                 (bagSize E game + rackSize E) 0
       else
         (1 - bogowin E (double_to_int (IZR (- spread) - residual))
                      (bagSize E game + rackSize E) 0)%R)
      true.

End Rollout.

(** The update of the simmed move found by [incorporateMessage]. *)
Definition incorporateInto (message : SimmedMoveMessage) (moveIt : SimmedMove)
    : SimmedMove :=
  mkSimmedMove (move moveIt) (msg_levels message)
    (incorporateValue (msg_residual message) (residual moveIt))
    (incorporateValue (IZR (msg_gameSpread message)) (gameSpread moveIt))
    (incorporateValue (msg_wins message) (wins moveIt))
    (m_id moveIt) (m_includeInSimulation moveIt).

Fixpoint incorporateFirst (message : SimmedMoveMessage) (l : SimmedMoveList)
    : SimmedMoveList :=
  match l with
  | [] => []
  | moveIt :: rest =>
      if m_id moveIt =? msg_id message
      then incorporateInto message moveIt :: rest
      else moveIt :: incorporateFirst message rest
  end.

(** [Simulator::incorporateMessage], sim.cpp 409-436. *)
Definition incorporateMessage (message : SimmedMoveMessage) (s : Simulator)
    : Simulator :=
  if existsb (fun moveIt => m_id moveIt =? msg_id message) (m_simmedMoves s)
  then
    let s :=
      if isLogging s
      then set_m_xmlIndent (S (m_xmlIndent s))
             (write (LogPlayaheadOpen (m_xmlIndent s)) s)
      else s in
    let s := set_m_simmedMoves (incorporateFirst message (m_simmedMoves s)) s in
    if isLogging s then
      let s :=
        if negb (msg_bogowin message)
        then write (LogGameover (m_xmlIndent s) (msg_wins message)) s
        else s in
      let s := set_m_xmlIndent (Nat.pred (m_xmlIndent s)) s in
      write (LogPlayaheadClose (m_xmlIndent s)) s
    else s
  else s.

Fixpoint replaceAt {A : Type} (i : nat) (x : A) (l : list A) : list A :=
  match l, i with
  | [], _ => []
  | _ :: rest, O => x :: rest
  | y :: rest, S i => y :: replaceAt i x rest
  end.

(** The body of the loop over [m_simmedMoves], sim.cpp 262-400, for the
    simmed move at place [i]. *)
Definition simulate_move (startPlayerId numberOfPlayers decimalTurns levelsCount : Z)
    (s : Simulator) (i : nat) : Simulator :=
  match nth_error (m_simmedMoves s) i with
  | None => s
  | Some moveIt =>
      if negb (m_includeInSimulation moveIt) then s
      else
        let s := set_m_simulatedGame (m_originalGame s) s in
        let moveIt :=
          SimmedMove_setLevels
            (setNumberLevels (levelsCount + 1) (levels moveIt)) moveIt in
        let s := set_m_simmedMoves (replaceAt i moveIt (m_simmedMoves s)) s in
        let '(lvls, st) :=
          levels_loop startPlayerId numberOfPlayers decimalTurns levelsCount
            (m_ignoreOppos s) (isLogging s) (move moveIt) 1 (levels moveIt)
            (mkRollout (m_simulatedGame s) 0%R (m_xmlIndent s)
                       (m_logfileStream s) []) in
        let s :=
          set_m_simulatedGame (r_game st)
            (set_m_xmlIndent (r_xmlIndent st)
               (set_m_logfileStream (r_stream st) s)) in
        incorporateMessage
          (rolloutMessage startPlayerId (m_id moveIt) lvls
             (m_simulatedGame s) (r_residual st))
          s
  end.

(** [Simulator::simulate(int plies)], sim.cpp 227-407.  [%] and [/] of C++
    truncate; a position without players divides by zero in C++ and is
    outside the model. *)
Definition simulate (plies : Z) (s : Simulator) : Simulator :=
  let s := set_m_iterations (m_iterations s + 1) s in
  let s := randomizeOppoRacks s in
  let s := randomizeDrawingOrder s in
  let startPlayerId := currentPlayerId E (m_originalGame s) in
  let numberOfPlayers := playersSize E (m_originalGame s) in
  let plies := if plies <? 0 then 1000 else plies in
  let plies := plies + 1 in
  let decimalTurns := Z.rem plies numberOfPlayers in
  let levelsCount := Z.quot (plies - decimalTurns) numberOfPlayers in
  let s :=
    if isLogging s then
      let s := if negb (m_hasHeader s) then writeLogHeader s else s in
      set_m_xmlIndent (S (m_xmlIndent s))
        (write (LogIterationOpen (m_xmlIndent s) (m_iterations s)) s)
    else s in
  let s :=
    fold_left (simulate_move startPlayerId numberOfPlayers decimalTurns levelsCount)
              (seq 0 (List.length (m_simmedMoves s))) s in
  if isLogging s then
    let s := set_m_xmlIndent (Nat.pred (m_xmlIndent s)) s in
    write (LogIterationClose (m_xmlIndent s)) s
  else s.

(** [Simulator::simulate(int plies, int iterations)], sim.cpp 217-225.
    [polls] counts the calls of [shouldAbort()] made so far on the
    dispatch; [n] is the number of iterations still to run. *)
Fixpoint simulate_loop (plies : Z) (n : nat) (s : Simulator) (polls : nat)
    : Simulator * nat :=
  match n with
  | O => (s, polls)
  | S n =>
      match m_dispatch s with
      | Some dispatch =>
          if dispatch polls then (s, S polls)
          else simulate_loop plies n (simulate plies s) (S polls)
      | None => simulate_loop plies n (simulate plies s) polls
      end
  end.

Definition simulate_iterations (plies iterations : Z) (s : Simulator)
    (polls : nat) : Simulator * nat :=
  simulate_loop plies (Z.to_nat iterations) s polls.

End Simulator.

(** ** Specification-side definitions *)

(** The place of the first simmed move equal to [it], if any. *)
Fixpoint firstMatch (E : Engine) (it : Move) (l : SimmedMoveList) : option nat :=
  match l with
  | [] => None
  | sm :: rest =>
      if Move_eqb E it (move sm) then Some O
      else option_map S (firstMatch E it rest)
  end.

(** [f] applied at place [i] of a list. *)
Fixpoint mapAt {A : Type} (i : nat) (f : A -> A) (l : list A) : list A :=
  match l, i with
  | [], _ => []
  | x :: rest, O => f x :: rest
  | x :: rest, S i => x :: mapAt i f rest
  end.

(** Two simmed moves with the same move, id and accumulators. *)
Definition sameAccumulators (sm sm' : SimmedMove) : Prop :=
  move sm' = move sm /\ m_id sm' = m_id sm /\ levels sm' = levels sm /\
  wins sm' = wins sm /\ residual sm' = residual sm /\
  gameSpread sm' = gameSpread sm.

(** A simmed move whose accumulators hold no value. *)
Definition freshSimmedMove (sm : SimmedMove) : Prop :=
  levels sm = [] /\ residual sm = AveragedValue_new /\
  gameSpread sm = AveragedValue_new /\ wins sm = AveragedValue_new.

(** Apart from the simmed moves and the id counter, [setIncludedMoves]
    leaves the simulator as it is. *)
Definition sameElsewhere {E : Engine} (s s' : Simulator E) : Prop :=
  m_iterations E s' = m_iterations E s /\
  m_consideredMoves E s' = m_consideredMoves E s /\
  m_originalGame E s' = m_originalGame E s /\
  m_ignoreOppos E s' = m_ignoreOppos E s /\
  m_dispatch E s' = m_dispatch E s /\
  m_logfileStream E s' = m_logfileStream E s /\
  (objectIdCounter E s <= objectIdCounter E s')%Z.

(** The simmed moves built for a list of moves when the id counter is
    at [c]: each move gets the next id. *)
Fixpoint freshSimmedMoves (c : Z) (mvs : MoveList) : SimmedMoveList :=
  match mvs with
  | [] => []
  | m :: rest => SimmedMove_new m (c + 1) :: freshSimmedMoves (c + 1) rest
  end.

(** Following the spec's words ("or append a new SimmedMove if absent"):
    the input moves for which a simmed move is appended, in order.  A
    move is absent when it is equal to none of the moves [known], the
    moves of the simmed moves so far: those of before the call and those
    appended for earlier input moves. *)
Fixpoint absentMoves (E : Engine) (known : list Move) (mvs : MoveList) : MoveList :=
  match mvs with
  | [] => []
  | it :: rest =>
      if existsb (Move_eqb E it) known then absentMoves E known rest
      else it :: absentMoves E (known ++ [it]) rest
  end.

(** No two simmed moves hold equal moves. *)
Definition distinctMoves (E : Engine) (l : SimmedMoveList) : Prop :=
  forall i j smi smj,
    nth_error l i = Some smi -> nth_error l j = Some smj ->
    Move_eqb E (move smi) (move smj) = true -> i = j.

(** The move [moves] returns for a simmed move. *)
Definition valuedMove {E : Engine} (s : Simulator E) (sm : SimmedMove) : Move :=
  if hasSimulationResults E s
  then Move_setEquityWin (calculateEquity sm) (averagedValue (wins sm)) (move sm)
  else move sm.

Fixpoint descendingBy (key : Move -> R) (l : MoveList) : Prop :=
  match l with
  | [] => True
  | m :: rest => Forall (fun m' => (key m' <= key m)%R) rest /\ descendingBy key rest
  end.

Definition Rsum (l : list R) : R := fold_right Rplus 0%R l.

(** Following the spec's words: within a level, the first slot's averaged
    score minus the averaged scores of all other slots. *)
Definition levelEquity (l : Level) : R :=
  match statistics l with
  | [] => 0%R
  | first :: others =>
      (averagedValue (ps_score first)
       - Rsum (map (fun ps => averagedValue (ps_score ps)) others))%R
  end.

(** A record as the body of the ply loop writes it, for the slot and the
    value of [playerNumber] it runs with. *)
Definition recordedPly (E : Engine)
    (startPlayerId numberOfPlayers decimalTurns levelsCount : Z)
    (ignoreOppos : bool) (candidateMove : Move) (p : PlyRecord E) : Prop :=
  p = plyRecord E startPlayerId numberOfPlayers decimalTurns levelsCount
        ignoreOppos candidateMove
        (ply_levelNumber E p) (ply_slot E p) (ply_playerNumber E p)
        (ply_position E p) /\
  ply_playerNumber E p = ply_slot E p + 1.

(** The commits of a list of plies, from position [g] to position [g']:
    each ply was played from the position the previous one left. *)
Fixpoint played (E : Engine) (g : Game E) (l : list (PlyRecord E)) (g' : Game E)
    : Prop :=
  match l with
  | [] => g' = g
  | p :: rest =>
      ply_position E p = g /\
      played E (commitCandidate E (ply_maintainBoard E p)
                  (setCandidate E (ply_candidate E p) g)) rest g'
  end.

(** *** The rollout as the spec words it

    The plies of a rollout as a function of the position it starts
    from, without the statistics, the residual and the log. *)

Section RolloutRule.

Variable E : Engine.
Variables startPlayerId numberOfPlayers decimalTurns levelsCount : Z.
Variable ignoreOppos : bool.
Variable candidateMove : Move.

(** One ply: its level number, its slot in the level (from 1), the
    position it is played from and the move played. *)
Definition RulePly : Type := (Z * Z * Game E * Move)%type.

(** Following the spec's words (4.5, move choice): "If levelNumber == 1
    and playerId == startPlayerId: use the candidate move.  Else if
    ignoreOppos and playerId != startPlayerId: use a pass.  Else: use
    the rules engine's staticBestMove()". *)
Definition ruleMove (levelNumber : Z) (pos : Game E) : Move :=
  let playerId := currentPlayerId E pos in
  if (levelNumber =? 1) && (playerId =? startPlayerId) then candidateMove
  else if ignoreOppos && negb (playerId =? startPlayerId) then createPassMove E
  else staticBestMove E pos.

(** Following the spec's words: "Commit the move to the simulated game,
    with a maintain board flag equal to NOT the very-final-ply
    predicate".  The predicate is the one of the code, at the value
    [slot + 1] that playerNumber has in the body of the ply loop. *)
Definition ruleCommit (levelNumber slot : Z) (pos : Game E) : Game E :=
  commitCandidate E
    (negb (isVeryFinalTurnOfSimulation numberOfPlayers decimalTurns levelsCount
             levelNumber (slot + 1)))
    (setCandidate E (ruleMove levelNumber pos) pos).

(** Following the spec's words: "For playerSlot = 1 ... slotsThisLevel,
    while the game is not over": the plies of one level from [slot] on,
    at most [slots] of them, and the position they leave. *)
Fixpoint rulePlies (levelNumber slot : Z) (slots : nat) (pos : Game E)
    : list RulePly * Game E :=
  match slots with
  | O => ([], pos)
  | S slots =>
      if gameOver E pos then ([], pos)
      else
        let '(plies, pos') :=
          rulePlies levelNumber (slot + 1) slots
            (ruleCommit levelNumber slot pos) in
        ((levelNumber, slot, pos, ruleMove levelNumber pos) :: plies, pos')
  end.

(** Following the spec's words: "For levelNumber = 1 ... levels+1, while
    the simulated game is not over: let slotsThisLevel = (levelNumber ==
    levels+1) ? decimal : P.  If slotsThisLevel == 0, skip this level."
    There is one level number per level of the list; a level that had
    more than slotsThisLevel slots keeps them, since sizing a level only
    extends it. *)
Fixpoint ruleLevels (levelNumber : Z) (lvls : LevelList) (pos : Game E)
    : list RulePly * Game E :=
  match lvls with
  | [] => ([], pos)
  | levelIt :: rest =>
      if (levelNumber <=? levelsCount + 1) && negb (gameOver E pos) then
        let slotsThisLevel :=
          if levelNumber =? levelsCount + 1 then decimalTurns
          else numberOfPlayers in
        if slotsThisLevel =? 0 then ruleLevels (levelNumber + 1) rest pos
        else
          let '(plies, pos) :=
            rulePlies levelNumber 1
              (Nat.max (List.length (statistics levelIt))
                       (Z.to_nat slotsThisLevel)) pos in
          let '(plies', pos) := ruleLevels (levelNumber + 1) rest pos in
          (plies ++ plies', pos)
      else ([], pos)
  end.

(** What a ply adds to the residual, sim.cpp 332-364: at a ply that the
    code flags as the final turn of its player (with playerNumber at
    [slot + 1]) and that is not an ignored opponent's, the player
    consideration of the move with its deadwood, and the shared
    consideration too when the ply is flagged very final; counted for
    the start player and against the others.  Nothing at another ply. *)
Definition ruleResidual (p : RulePly) : R :=
  let '(levelNumber, slot, pos, m) := p in
  let playerId := currentPlayerId E pos in
  let m := withDeadwood E pos m in
  if isFinalTurnForPlayerOfSimulation decimalTurns levelsCount
       levelNumber (slot + 1)
     && negb (ignoreOppos && negb (playerId =? startPlayerId))
  then
    let addend :=
      (calculatePlayerConsideration E pos m
       + (if isVeryFinalTurnOfSimulation numberOfPlayers decimalTurns
               levelsCount levelNumber (slot + 1)
          then calculateSharedConsideration E pos m else 0))%R in
    if playerId =? startPlayerId then addend else (- addend)%R
  else 0%R.

(** The ply of a record of the ply loop. *)
Definition plyView (p : PlyRecord E) : RulePly :=
  (ply_levelNumber E p, ply_slot E p, ply_position E p, ply_move E p).

End RolloutRule.

(** The number of answers [false] in a row that the dispatch gives from
    its call number [polls] on, among at most [n] calls. *)
Fixpoint leadingFalse (dispatch : ComputerDispatch) (polls n : nat) : nat :=
  match n with
  | O => O
  | S n =>
      if dispatch polls then O
      else S (leadingFalse dispatch (S polls) n)
  end.

(** ** A small engine to run the simulator on

    Two players, ids 1 and 2, who alternate; the game ends after a fixed
    number of turns; every static best move scores 10. *)

Record ToyGame : Type := mkToyGame {
  toy_player : Z;
  toy_turnsLeft : Z;
  toy_spread : Z;               (* from the point of view of player 1 *)
  toy_pending : Z;              (* score of the candidate set *)
  toy_moves : MoveList
}.

Definition toy_commit (g : ToyGame) : ToyGame :=
  mkToyGame (3 - toy_player g) (toy_turnsLeft g - 1)
            (if toy_player g =? 1 then toy_spread g + toy_pending g
             else toy_spread g - toy_pending g)
            0 (toy_moves g).

Definition toyEngine : Engine :=
  mkEngine ToyGame ToyGame unit
    (fun a b => String.eqb (tiles a) (tiles b))
    (mkMove "pass" 0 false 0%R 0%R)
    (fun position _ => position)
    toy_moves
    (fun g => toy_turnsLeft g <=? 0)
    toy_player
    (fun _ => 2)
    (fun _ => mkMove "best" 10 false 0%R 0%R)
    (fun g _ => toy_turnsLeft g =? 1)
    (fun _ => 4)
    (fun _ _ => (1 / 2)%R)
    (fun _ _ => (1 / 4)%R)
    (fun m g => mkToyGame (toy_player g) (toy_turnsLeft g) (toy_spread g)
                          (score m) (toy_moves g))
    (fun _ g => toy_commit g)
    (fun g playerId => if playerId =? 1 then toy_spread g else - toy_spread g)
    toy_turnsLeft
    7
    (fun s _ _ => if 0 <=? s then 1%R else 0%R)
    (fun _ => "<rack/>"%string)
    (fun m => tiles m)
    (fun _ g => g)
    (fun g => g)
    (fun _ _ => true).

Definition toy_move (name : string) (sc : Z) (eq : R) : Move :=
  mkMove name sc false eq 0%R.

Definition toy_position (candidates : MoveList) : ToyGame :=
  mkToyGame 1 100 0 0 candidates.

(** A simulator as the constructor leaves it, then given a position. *)
Definition toy_new : Simulator toyEngine :=
  mkSimulator toyEngine EmptyString false false 0%nat [] [] None 0 false
    (toy_position []) (toy_position []) tt [] [] 0.

Definition toy_simulator (candidates : MoveList) : Simulator toyEngine :=
  setPosition toyEngine (toy_position candidates) toy_new.

Definition toy_one : Simulator toyEngine :=
  toy_simulator [toy_move "A" 20 25%R].

Definition toy_four : Simulator toyEngine :=
  toy_simulator [toy_move "A" 30 40%R; toy_move "B" 28 35%R;
                 toy_move "C" 26 33%R; toy_move "D" 12 20%R].

(** The rollout of scenario 2 of the spec: two players, [plies = 2], so
    3 plies, [decimalTurns = 1] and [levels = 1]. *)
Definition toy_rollout : LevelList * Rollout toyEngine :=
  levels_loop toyEngine 1 2 (Z.rem 3 2) (Z.quot (3 - Z.rem 3 2) 2) false false
    (toy_move "A" 20 25%R) 1 (setNumberLevels (Z.quot (3 - Z.rem 3 2) 2 + 1) [])
    (mkRollout toyEngine (toy_position []) 0%R 0%nat [] []).

(** The rollout of one candidate of score 9 with [plies = 1]: 2 plies,
    [decimalTurns = 0] and [levels = 1]. *)
Definition toy_rollout_short : LevelList * Rollout toyEngine :=
  levels_loop toyEngine 1 2 (Z.rem 2 2) (Z.quot (2 - Z.rem 2 2) 2) false false
    (toy_move "A" 9 25%R) 1 (setNumberLevels (Z.quot (2 - Z.rem 2 2) 2 + 1) [])
    (mkRollout toyEngine (toy_position []) 0%R 0%nat [] []).

(** One candidate, after one iteration with [plies = 2]. *)
Definition toy_simulated : Simulator toyEngine :=
  simulate toyEngine 2 toy_one.

(** One candidate, logging to "sim.log", after one iteration. *)
Definition toy_logging : Simulator toyEngine :=
  simulate toyEngine 0 (setLogfile toyEngine "sim.log" false toy_one).


(** ** More of the simulator *)

Section MoreOperations.

Variable E : Engine.

(** [MoveList::contains] of move.cpp (not under src/), a parameter of
    the function that calls it. *)
Variable MoveList_contains : MoveList -> Move -> bool.

(** [m_simmedMoves.back()]; nothing on an empty vector, where the C++
    call is undefined. *)
Fixpoint back (l : SimmedMoveList) : option SimmedMove :=
  match l with
  | [] => None
  | [sm] => Some sm
  | _ :: rest => back rest
  end.

(** [Simulator::simmedMoveForMove], sim.cpp 511-518. *)
Definition simmedMoveForMove (m : Move) (s : Simulator E) : option SimmedMove :=
  match find (fun it => Move_eqb E (move it) m) (m_simmedMoves E s) with
  | Some it => Some it
  | None => back (m_simmedMoves E s)
  end.

(** [Simulator::numLevels], sim.cpp 520-525. *)
Definition numLevels (s : Simulator E) : Z :=
  match m_simmedMoves E s with
  | [] => 0
  | front :: _ => Z.of_nat (List.length (levels front))
  end.

(** [Simulator::numPlayersAtLevel], sim.cpp 527-532; nothing when
    [levelIndex] is out of the bounds of the levels. *)
Definition numPlayersAtLevel (levelIndex : Z) (s : Simulator E) : option Z :=
  match m_simmedMoves E s with
  | [] => Some 0
  | front :: _ =>
      if levelIndex <? 0 then None
      else match nth_error (levels front) (Z.to_nat levelIndex) with
           | Some level => Some (Z.of_nat (List.length (statistics level)))
           | None => None
           end
  end.

(** [Simulator::makeSureConsideredMovesAreIncluded], sim.cpp 157-164. *)
Definition makeSureConsideredMovesAreIncluded (s : Simulator E) : Simulator E :=
  let movesSuperset := moves E true true s in
  let movesSuperset :=
    fold_left (fun movesSuperset it =>
                 if negb (MoveList_contains movesSuperset it)
                 then movesSuperset ++ [it]
                 else movesSuperset)
              (m_consideredMoves E s) movesSuperset in
  setIncludedMoves E movesSuperset s.

End MoreOperations.

(** *** Specification-side definitions for the further properties *)

(** The values of a list incorporated, first to last, into a new
    accumulator. *)
Definition incorporateAll (xs : list R) : AveragedValue :=
  fold_left (fun a x => incorporateValue x a) xs AveragedValue_new.

(** The ids of the simmed moves are pairwise distinct and were all
    given out by the counter. *)
Definition uniqueIds {E : Engine} (s : Simulator E) : Prop :=
  NoDup (map m_id (m_simmedMoves E s)) /\
  Forall (fun sm => m_id sm <= objectIdCounter E s) (m_simmedMoves E s).

(** A header is pending only on an open log. *)
Definition headerOnlyWhenOpen {E : Engine} (s : Simulator E) : Prop :=
  m_hasHeader E s = true -> m_logfileIsOpen E s = true.

(** The two accumulators of every slot hold the same number of values. *)
Definition balancedSlot (ps : PositionStatistics) : Prop :=
  m_incorporatedValues (ps_score ps) = m_incorporatedValues (ps_bingos ps).

Definition balancedLevels (lvls : LevelList) : Prop :=
  Forall (fun l => Forall balancedSlot (statistics l)) lvls.

(** What a ply adds to the residual, by its record: the player
    consideration when it was asked for, with the shared consideration
    when that was asked for too, counted for the start player and
    against the others. *)
Definition residualOfPly (E : Engine) (startPlayerId : Z) (p : PlyRecord E) : R :=
  let pos := ply_position E p in
  let m := withDeadwood E pos (ply_move E p) in
  let addend :=
    ((if ply_playerConsideration E p
      then calculatePlayerConsideration E pos m else 0)
     + (if ply_sharedConsideration E p
        then calculateSharedConsideration E pos m else 0))%R in
  if currentPlayerId E pos =? startPlayerId then addend else (- addend)%R.

(** One iteration's effect on a simmed move: when it is included, one
    more value in each of residual, gameSpread and wins, and a grid of
    at least [wanted] levels (of as many as before when there were
    more); nothing otherwise.  Move, id and flag are kept. *)
Definition simulatedOnce (wanted : nat) (sm sm' : SimmedMove) : Prop :=
  move sm' = move sm /\ m_id sm' = m_id sm /\
  m_includeInSimulation sm' = m_includeInSimulation sm /\
  if m_includeInSimulation sm then
    m_incorporatedValues (residual sm') = m_incorporatedValues (residual sm) + 1 /\
    m_incorporatedValues (gameSpread sm') = m_incorporatedValues (gameSpread sm) + 1 /\
    m_incorporatedValues (wins sm') = m_incorporatedValues (wins sm) + 1 /\
    List.length (levels sm') = Nat.max (List.length (levels sm)) wanted
  else sm' = sm.

(** The number of levels one iteration with [plies] asks for: the full
    levels and the last, partial one, as [simulate] computes them. *)
Definition levelsWanted {E : Engine} (plies : Z) (s : Simulator E) : nat :=
  let game := shuffleDrawingOrder E
                (refillOppoRacks E (m_partialOppoRack E s) (m_originalGame E s)) in
  let numberOfPlayers := playersSize E game in
  let plies := (if plies <? 0 then 1000 else plies) + 1 in
  let decimalTurns := Z.rem plies numberOfPlayers in
  Z.to_nat (Z.quot (plies - decimalTurns) numberOfPlayers + 1).

(** What a stretch of a rollout does to its variables: it plays some
    plies, each from a position that is not over, adds their residuals,
    leaves the indentation as it was and only appends to the log,
    nothing when not logging. *)
Definition rolloutEffect (E : Engine) (startPlayerId : Z) (logging : bool)
    (st st' : Rollout E) : Prop :=
  exists plies added,
    r_plies E st' = r_plies E st ++ plies /\
    Forall (fun p => gameOver E (ply_position E p) = false) plies /\
    r_residual E st'
    = (r_residual E st + Rsum (map (residualOfPly E startPlayerId) plies))%R /\
    r_xmlIndent E st' = r_xmlIndent E st /\
    r_stream E st' = r_stream E st ++ added /\
    (logging = false -> added = []).

(** The members of the simulator that an iteration leaves alone or
    changes in a fixed way. *)
Definition iterationFrame {E : Engine} (s s' : Simulator E) : Prop :=
  m_dispatch E s' = m_dispatch E s /\
  m_ignoreOppos E s' = m_ignoreOppos E s /\
  m_consideredMoves E s' = m_consideredMoves E s /\
  objectIdCounter E s' = objectIdCounter E s /\
  m_logfile E s' = m_logfile E s /\
  m_logfileIsOpen E s' = m_logfileIsOpen E s /\
  cerr E s' = cerr E s /\
  m_partialOppoRack E s' = m_partialOppoRack E s /\
  map move (m_simmedMoves E s') = map move (m_simmedMoves E s) /\
  map m_id (m_simmedMoves E s') = map m_id (m_simmedMoves E s) /\
  map m_includeInSimulation (m_simmedMoves E s')
  = map m_includeInSimulation (m_simmedMoves E s) /\
  exists added,
    m_logfileStream E s' = m_logfileStream E s ++ added /\
    (m_logfileIsOpen E s = false -> added = []).

(** What the rollout of one candidate leaves alone in the simulator. *)
Definition rolloutFrame {E : Engine} (s s' : Simulator E) : Prop :=
  iterationFrame s s' /\
  m_iterations E s' = m_iterations E s /\
  m_hasHeader E s' = m_hasHeader E s /\
  m_xmlIndent E s' = m_xmlIndent E s /\
  m_originalGame E s' = m_originalGame E s.

(** [contains] for the toy engine: some move of the list is equal. *)
Definition toy_contains (l : MoveList) (m : Move) : bool :=
  existsb (fun x => Move_eqb toyEngine x m) l.

(** Four candidates and a considered move that is not among them. *)
Definition toy_considering : Simulator toyEngine :=
  addConsideredMove toyEngine (toy_move "E" 5 1%R) toy_four.

(** The log stream [s'] extends [s], by nothing when not logging. *)
Definition appendsTo (logging : bool) (s s' : list LogEntry) : Prop :=
  exists added, s' = s ++ added /\ (logging = false -> added = []).

(** ** Tactics *)

Ltac split_ifs :=
  repeat match goal with
         | |- context [if ?c then _ else _] => destruct c
         end.


(** ** Properties of AveragedValue *)

Section AveragedValueFacts.

Import Floats.












End AveragedValueFacts.
(** * Properties *)

(** ** setLogfile *)

Section LogfileFacts.

Variable E : Engine.

(** C10.  setLogfile(path, append) on a simulator whose logfile name is
    already path and which is logging returns at once: the stream is
    neither closed nor reopened, the header state is kept, and the whole
    state of the simulator is unchanged. *)
Theorem setLogfile_same_open (s : Simulator E) (path : string) (append : bool) :
  m_logfile E s = path ->
  isLogging E s = true ->
  setLogfile E path append s = s.
Proof.
  intros Hname Hlog. unfold setLogfile.
  rewrite Hname, String.eqb_refl, Hlog. reflexivity.
Qed.

End LogfileFacts.

Lemma setLogfile_same_open_witness :
  setLogfile toyEngine "sim.log" true toy_logging = toy_logging.
Proof.
  apply (setLogfile_same_open toyEngine toy_logging "sim.log"%string true).
  - reflexivity.
  - reflexivity.
Defined.

(** ** setIncludedMoves *)

Section IncludedMovesFacts.

Variable E : Engine.

Lemma mapAt_length {A : Type} (f : A -> A) (l : list A) :
  forall i, List.length (mapAt i f l) = List.length l.
Proof.
  induction l as [| x l IH]; intros [| i]; simpl; auto.
Qed.

Lemma mapAt_nth_error {A : Type} (f : A -> A) (l : list A) :
  forall i j,
    nth_error (mapAt i f l) j =
    if Nat.eqb j i then option_map f (nth_error l j) else nth_error l j.
Proof.
  induction l as [| x l IH]; intros i j.
  - destruct i, j; simpl; try reflexivity; destruct (Nat.eqb _ _); reflexivity.
  - destruct i as [| i], j as [| j]; simpl; try reflexivity.
    apply IH.
Qed.

Lemma include_first_firstMatch (it : Move) (l : SimmedMoveList) :
  include_first E it l =
  option_map (fun i => mapAt i (setIncludeInSimulation true) l)
             (firstMatch E it l).
Proof.
  induction l as [| sm l IH]; simpl; [reflexivity|].
  destruct (Move_eqb E it (move sm)); [reflexivity|].
  rewrite IH. destruct (firstMatch E it l); reflexivity.
Qed.

Lemma firstMatch_moves (it : Move) (l l' : SimmedMoveList) :
  map move l = map move l' -> firstMatch E it l = firstMatch E it l'.
Proof.
  revert l'. induction l as [| sm l IH]; intros [| sm' l'] H;
    simpl in *; try discriminate; [reflexivity|].
  injection H as Hm Hl. rewrite Hm, (IH l' Hl). reflexivity.
Qed.

Lemma firstMatch_app (it : Move) (l x : SimmedMoveList) :
  firstMatch E it (l ++ x) =
  match firstMatch E it l with
  | Some i => Some i
  | None => option_map (Nat.add (List.length l)) (firstMatch E it x)
  end.
Proof.
  induction l as [| sm l IH]; simpl.
  - destruct (firstMatch E it x); reflexivity.
  - destruct (Move_eqb E it (move sm)); [reflexivity|].
    rewrite IH. destruct (firstMatch E it l); simpl; [reflexivity|].
    destruct (firstMatch E it x); reflexivity.
Qed.

Lemma firstMatch_bound (it : Move) (l : SimmedMoveList) (i : nat) :
  firstMatch E it l = Some i -> (i < List.length l)%nat.
Proof.
  revert i. induction l as [| sm l IH]; intros i; simpl; [discriminate|].
  destruct (Move_eqb E it (move sm)).
  - intros [= <-]. lia.
  - destruct (firstMatch E it l) as [k|]; simpl; [|discriminate].
    intros [= <-]. specialize (IH k eq_refl). lia.
Qed.

Lemma firstMatch_sound (it : Move) (l : SimmedMoveList) (i : nat) :
  firstMatch E it l = Some i ->
  exists sm, nth_error l i = Some sm /\ Move_eqb E it (move sm) = true /\
    forall j smj, (j < i)%nat -> nth_error l j = Some smj ->
                  Move_eqb E it (move smj) = false.
Proof.
  revert i. induction l as [| sm l IH]; intros i; simpl; [discriminate|].
  destruct (Move_eqb E it (move sm)) eqn:Hm.
  - intros [= <-]. exists sm. repeat split; auto. intros j smj Hj. lia.
  - destruct (firstMatch E it l) as [k|]; simpl; [|discriminate].
    intros [= <-]. destruct (IH k eq_refl) as (sm0 & Hn & Heq & Hbefore).
    exists sm0. repeat split; auto.
    intros [| j] smj Hj; simpl.
    + intros [= <-]. exact Hm.
    + apply Hbefore. lia.
Qed.

Lemma firstMatch_complete (it : Move) (l : SimmedMoveList) (i : nat) sm :
  nth_error l i = Some sm -> Move_eqb E it (move sm) = true ->
  exists k, firstMatch E it l = Some k /\ (k <= i)%nat.
Proof.
  revert i. induction l as [| sm0 l IH]; intros [| i]; simpl; try discriminate.
  - intros [= ->] ->. exists O. split; [reflexivity | lia].
  - intros Hn Hm. destruct (Move_eqb E it (move sm0)).
    + exists O. split; [reflexivity | lia].
    + destruct (IH i Hn Hm) as (k & -> & Hk). exists (S k). split; [reflexivity | lia].
Qed.

Lemma include_move_simmed (s : Simulator E) (it : Move) :
  m_simmedMoves E (include_move E s it) =
  match firstMatch E it (m_simmedMoves E s) with
  | Some i => mapAt i (setIncludeInSimulation true) (m_simmedMoves E s)
  | None => m_simmedMoves E s ++ [SimmedMove_new it (objectIdCounter E s + 1)]
  end.
Proof.
  unfold include_move. rewrite include_first_firstMatch.
  destruct (firstMatch E it (m_simmedMoves E s)); reflexivity.
Qed.

Lemma sameAccumulators_refl sm : sameAccumulators sm sm.
Proof. repeat split. Qed.

Lemma sameAccumulators_trans a b c :
  sameAccumulators a b -> sameAccumulators b c -> sameAccumulators a c.
Proof.
  unfold sameAccumulators. intros (?&?&?&?&?&?) (?&?&?&?&?&?).
  repeat split; congruence.
Qed.

Lemma sameAccumulators_setInclude b sm :
  sameAccumulators sm (setIncludeInSimulation b sm).
Proof. repeat split. Qed.

Lemma mapAt_setInclude_moves i b (l : SimmedMoveList) :
  map move (mapAt i (setIncludeInSimulation b) l) = map move l.
Proof.
  revert i. induction l as [| sm l IH]; intros [| i]; simpl; try reflexivity.
  rewrite IH. reflexivity.
Qed.

(** The loop over the input moves, from any list of simmed moves. *)
Lemma fold_include_spec (mvs : MoveList) :
  forall s : Simulator E,
    let l := m_simmedMoves E s in
    let l' := m_simmedMoves E (fold_left (include_move E) mvs s) in
    (forall i sm, nth_error l i = Some sm ->
       exists sm', nth_error l' i = Some sm' /\ sameAccumulators sm sm' /\
         (m_includeInSimulation sm' = true <->
          m_includeInSimulation sm = true \/
          exists it, In it mvs /\ firstMatch E it l = Some i)) /\
    (forall i sm', (List.length l <= i)%nat -> nth_error l' i = Some sm' ->
       exists it id, In it mvs /\ sm' = SimmedMove_new it id /\
                     firstMatch E it l = None).
Proof.
  induction mvs as [| it rest IH]; intros s l l'.
  - split.
    + intros i sm Hn. exists sm. split; [exact Hn|].
      split; [apply sameAccumulators_refl|].
      split; [auto | intros [H | (x & [] & _)]; exact H].
    + intros i sm' Hi Hn. apply nth_error_None in Hi.
      unfold l' in Hn. simpl in Hn. unfold l in Hi. congruence.
  - specialize (IH (include_move E s it)).
    cbv zeta in IH. destruct IH as [IHA IHB].
    pose proof (include_move_simmed s it) as Hstep. fold l in Hstep.
    unfold l'. simpl fold_left.
    set (l1 := m_simmedMoves E (include_move E s it)) in *.
    destruct (firstMatch E it l) as [i0|] eqn:Hfm.
    + (* the move is found at place i0 *)
      assert (Hmoves : map move l1 = map move l)
        by (rewrite Hstep; apply mapAt_setInclude_moves).
      assert (Hlen : List.length l1 = List.length l)
        by (rewrite Hstep; apply mapAt_length).
      split.
      * intros i sm Hn.
        assert (Hn1 : nth_error l1 i =
                      Some (if Nat.eqb i i0 then setIncludeInSimulation true sm
                            else sm)).
        { rewrite Hstep, mapAt_nth_error, Hn. destruct (Nat.eqb i i0); reflexivity. }
        destruct (IHA i _ Hn1) as (sm' & Hn' & Hsame & Hiff).
        exists sm'. split; [exact Hn'|]. split.
        { eapply sameAccumulators_trans; [|exact Hsame].
          destruct (Nat.eqb i i0);
            [apply sameAccumulators_setInclude | apply sameAccumulators_refl]. }
        rewrite Hiff. split.
        { intros [H | (x & Hx & Hfx)].
          - destruct (Nat.eqb i i0) eqn:Hi.
            + right. exists it. split; [left; reflexivity|].
              apply Nat.eqb_eq in Hi. subst i. exact Hfm.
            + left. exact H.
          - right. exists x. split; [right; exact Hx|].
            rewrite <- (firstMatch_moves x l1 l Hmoves). exact Hfx. }
        { intros [H | (x & [Hx | Hx] & Hfx)].
          - left. destruct (Nat.eqb i i0); [reflexivity | exact H].
          - subst x. left. rewrite Hfm in Hfx. injection Hfx as ->.
            rewrite Nat.eqb_refl. reflexivity.
          - right. exists x. split; [exact Hx|].
            rewrite (firstMatch_moves x l1 l Hmoves). exact Hfx. }
      * intros i sm' Hi Hn'. rewrite <- Hlen in Hi.
        destruct (IHB i sm' Hi Hn') as (x & id & Hx & Hnew & Hfx).
        exists x, id. split; [right; exact Hx|]. split; [exact Hnew|].
        rewrite <- (firstMatch_moves x l1 l Hmoves). exact Hfx.
    + (* the move is appended *)
      set (new := SimmedMove_new it (objectIdCounter E s + 1)) in *.
      assert (Hfx : forall x i, (i < List.length l)%nat ->
                 (firstMatch E x l1 = Some i <-> firstMatch E x l = Some i)).
      { intros x i Hi. rewrite Hstep, firstMatch_app.
        destruct (firstMatch E x l) as [k|]; [reflexivity|].
        destruct (firstMatch E x [new]) as [k|]; simpl; split;
          try discriminate. intros [= <-]. lia. }
      assert (Hnone : forall x, firstMatch E x l1 = None -> firstMatch E x l = None).
      { intros x. rewrite Hstep, firstMatch_app.
        destruct (firstMatch E x l); [discriminate | reflexivity]. }
      split.
      * intros i sm Hn.
        assert (Hi : (i < List.length l)%nat)
          by (apply nth_error_Some; congruence).
        assert (Hn1 : nth_error l1 i = Some sm)
          by (rewrite Hstep, nth_error_app1; assumption).
        destruct (IHA i sm Hn1) as (sm' & Hn' & Hsame & Hiff).
        exists sm'. split; [exact Hn'|]. split; [exact Hsame|].
        rewrite Hiff. split.
        { intros [H | (x & Hx & Hx1)]; [left; exact H|].
          right. exists x. split; [right; exact Hx|]. apply Hfx; assumption. }
        { intros [H | (x & [Hx | Hx] & Hx1)]; [left; exact H | |].
          - subst x. congruence.
          - right. exists x. split; [exact Hx|]. apply Hfx; assumption. }
      * intros i sm' Hi Hn'.
        destruct (Nat.eq_dec i (List.length l)) as [-> | Hne].
        { assert (Hn1 : nth_error l1 (List.length l) = Some new).
          { rewrite Hstep, nth_error_app2, Nat.sub_diag; [reflexivity | lia]. }
          destruct (IHA _ _ Hn1) as (sm'' & Hn'' & Hsame & Hiff).
          rewrite Hn' in Hn''. injection Hn'' as <-.
          exists it, (objectIdCounter E s + 1).
          split; [left; reflexivity|]. split; [|exact Hfm].
          assert (Hinc : m_includeInSimulation sm' = true)
            by (apply Hiff; left; reflexivity).
          destruct Hsame as (H1 & H2 & H3 & H4 & H5 & H6).
          destruct sm'; simpl in *. subst. reflexivity. }
        { assert (Hi1 : (List.length l1 <= i)%nat).
          { rewrite Hstep, length_app. simpl. lia. }
          destruct (IHB i sm' Hi1 Hn') as (x & id & Hx & Hnew & Hx1).
          exists x, id. split; [right; exact Hx|]. split; [exact Hnew|].
          apply Hnone. exact Hx1. }
Qed.

(** The effect of [setIncludedMoves] on the list of simmed moves. *)
Lemma setIncludedMoves_effect (mvs : MoveList) (s : Simulator E) :
  let old := m_simmedMoves E s in
  let new := m_simmedMoves E (setIncludedMoves E mvs s) in
  (forall i sm, nth_error old i = Some sm ->
     exists sm', nth_error new i = Some sm' /\ sameAccumulators sm sm' /\
       (m_includeInSimulation sm' = true <->
        exists it, In it mvs /\ firstMatch E it old = Some i)) /\
  (forall i sm', (List.length old <= i)%nat -> nth_error new i = Some sm' ->
     exists it id, In it mvs /\ sm' = SimmedMove_new it id /\
                   firstMatch E it old = None).
Proof.
  intros old new. unfold new, setIncludedMoves.
  set (s0 := set_m_simmedMoves E
               (map (setIncludeInSimulation false) (m_simmedMoves E s)) s).
  destruct (fold_include_spec mvs s0) as [HA HB].
  assert (Hl0 : m_simmedMoves E s0 = map (setIncludeInSimulation false) old)
    by reflexivity.
  assert (Hmoves : map move (m_simmedMoves E s0) = map move old).
  { rewrite Hl0, map_map. apply map_ext. reflexivity. }
  split.
  - intros i sm Hn.
    assert (Hn0 : nth_error (m_simmedMoves E s0) i
                  = Some (setIncludeInSimulation false sm)).
    { rewrite Hl0, nth_error_map, Hn. reflexivity. }
    destruct (HA i _ Hn0) as (sm' & Hn' & Hsame & Hiff).
    exists sm'. split; [exact Hn'|]. split.
    + eapply sameAccumulators_trans; [apply sameAccumulators_setInclude|].
      exact Hsame.
    + rewrite Hiff. split.
      * intros [H | (x & Hx & Hfx)]; [discriminate|].
        exists x. split; [exact Hx|].
        rewrite <- (firstMatch_moves x _ _ Hmoves). exact Hfx.
      * intros (x & Hx & Hfx). right. exists x. split; [exact Hx|].
        rewrite (firstMatch_moves x _ _ Hmoves). exact Hfx.
  - intros i sm' Hi Hn'.
    assert (Hi0 : (List.length (m_simmedMoves E s0) <= i)%nat)
      by (rewrite Hl0, length_map; exact Hi).
    destruct (HB i sm' Hi0 Hn') as (x & id & Hx & Hnew & Hfx).
    exists x, id. split; [exact Hx|]. split; [exact Hnew|].
    rewrite <- (firstMatch_moves x _ _ Hmoves). exact Hfx.
Qed.

Lemma fold_include_elsewhere (mvs : MoveList) :
  forall s : Simulator E, sameElsewhere s (fold_left (include_move E) mvs s).
Proof.
  induction mvs as [| it rest IH]; intros s; simpl.
  - unfold sameElsewhere. repeat split; lia.
  - destruct (IH (include_move E s it)) as (H1 & H2 & H3 & H4 & H5 & H6 & H7).
    unfold sameElsewhere.
    rewrite H1, H2, H3, H4, H5, H6. unfold include_move in *.
    destruct (include_first E it (m_simmedMoves E s)); simpl in *;
      repeat split; lia.
Qed.

Lemma firstMatch_existsb (it : Move) (l : SimmedMoveList) :
  existsb (Move_eqb E it) (map move l)
  = match firstMatch E it l with Some _ => true | None => false end.
Proof.
  induction l as [| sm l IH]; simpl; [reflexivity|].
  destruct (Move_eqb E it (move sm)); simpl; [reflexivity|].
  rewrite IH. destruct (firstMatch E it l); reflexivity.
Qed.

Lemma include_move_counter (s : Simulator E) (it : Move) :
  objectIdCounter E (include_move E s it) =
  match firstMatch E it (m_simmedMoves E s) with
  | Some _ => objectIdCounter E s
  | None => objectIdCounter E s + 1
  end.
Proof.
  unfold include_move. rewrite include_first_firstMatch.
  destruct (firstMatch E it (m_simmedMoves E s)); reflexivity.
Qed.

Lemma skipn_nth_error {A : Type} (l : list A) :
  forall n x, nth_error l n = Some x -> skipn n l = x :: skipn (S n) l.
Proof.
  induction l as [| y l IH]; intros [| n] x; simpl; try discriminate.
  - intros [= ->]. reflexivity.
  - intros Hn. apply (IH n x Hn).
Qed.

(** What the loop over the input moves appends. *)
Lemma fold_include_appended (mvs : MoveList) :
  forall s : Simulator E,
    let l := m_simmedMoves E s in
    let s' := fold_left (include_move E) mvs s in
    let added := absentMoves E (map move l) mvs in
    skipn (List.length l) (m_simmedMoves E s')
    = freshSimmedMoves (objectIdCounter E s) added /\
    objectIdCounter E s' = objectIdCounter E s + Z.of_nat (List.length added).
Proof.
  induction mvs as [| it rest IH]; intros s l s' added.
  - unfold s', added. simpl. split; [apply skipn_all | lia].
  - specialize (IH (include_move E s it)). cbv zeta in IH.
    destruct IH as [IHskip IHcount].
    pose proof (include_move_simmed s it) as Hstep.
    pose proof (include_move_counter s it) as Hcount.
    pose proof (firstMatch_existsb it l) as Hex.
    fold l in Hstep, Hcount.
    unfold s', added. cbn [fold_left absentMoves]. rewrite Hex.
    destruct (firstMatch E it l) as [i0|] eqn:Hfm.
    + rewrite Hstep, mapAt_length, mapAt_setInclude_moves, Hcount in IHskip.
      rewrite Hstep, mapAt_setInclude_moves, Hcount in IHcount.
      split; assumption.
    + rewrite Hstep, length_app, map_app, Hcount in IHskip.
      rewrite Hstep, map_app, Hcount in IHcount.
      cbn [List.length map move SimmedMove_new] in IHskip, IHcount.
      rewrite Nat.add_1_r in IHskip.
      destruct (fold_include_spec rest (include_move E s it)) as [HA _].
      assert (Hn1 : nth_error (m_simmedMoves E (include_move E s it))
                      (List.length l)
                    = Some (SimmedMove_new it (objectIdCounter E s + 1))).
      { rewrite Hstep, nth_error_app2, Nat.sub_diag; [reflexivity | lia]. }
      destruct (HA _ _ Hn1) as (sm' & Hn' & Hsame & Hiff).
      assert (Hinc : m_includeInSimulation sm' = true)
        by (apply Hiff; left; reflexivity).
      assert (Hsm : sm' = SimmedMove_new it (objectIdCounter E s + 1)).
      { destruct Hsame as (H1 & H2 & H3 & H4 & H5 & H6).
        destruct sm'; simpl in *. subst. reflexivity. }
      subst sm'. split.
      * rewrite (skipn_nth_error _ _ _ Hn'). cbn [freshSimmedMoves].
        f_equal. exact IHskip.
      * rewrite IHcount. cbn [List.length]. lia.
Qed.

(** An input move that is equal to no known move gets a move appended
    that is itself or one it is equal to. *)
Lemma absentMoves_complete (mvs : MoveList) :
  forall (known : list Move) (it : Move),
    In it mvs -> existsb (Move_eqb E it) known = false ->
    exists m, In m (absentMoves E known mvs) /\
              (m = it \/ Move_eqb E it m = true).
Proof.
  induction mvs as [| it0 rest IH]; intros known it Hin Hex; [destruct Hin|].
  cbn [absentMoves].
  destruct (existsb (Move_eqb E it0) known) eqn:H0.
  - destruct Hin as [-> | Hin]; [congruence|].
    apply IH; assumption.
  - destruct Hin as [-> | Hin].
    + exists it. split; [left; reflexivity | left; reflexivity].
    + destruct (Move_eqb E it it0) eqn:Heq.
      * exists it0. split; [left; reflexivity | right; exact Heq].
      * destruct (IH (known ++ [it0]) it Hin) as (m & Hm & Hor).
        { rewrite existsb_app, Hex. simpl. rewrite Heq. reflexivity. }
        exists m. split; [right; exact Hm | exact Hor].
Qed.

(** Only input moves that are equal to no known move are appended. *)
Lemma absentMoves_sound (mvs : MoveList) :
  forall (known : list Move) (m : Move),
    In m (absentMoves E known mvs) ->
    In m mvs /\ existsb (Move_eqb E m) known = false.
Proof.
  induction mvs as [| it0 rest IH]; intros known m Hin; [destruct Hin|].
  cbn [absentMoves] in Hin.
  destruct (existsb (Move_eqb E it0) known) eqn:H0.
  - destruct (IH known m Hin) as [H1 H2]. split; [right; exact H1 | exact H2].
  - destruct Hin as [<- | Hin].
    + split; [left; reflexivity | exact H0].
    + destruct (IH (known ++ [it0]) m Hin) as [H1 H2].
      split; [right; exact H1|].
      rewrite existsb_app in H2. apply orb_false_iff in H2. apply H2.
Qed.

(** C7.  setIncludedMoves(moves) marks every existing simmed move
    excluded, then marks included, for each input move, the first
    simmed move equal to it, or appends a fresh SimmedMove when there
    is none.  Every simmed move present before the call keeps its place,
    move, id and its levels, wins, residual and gameSpread, and is
    included afterwards exactly when it is the first match of an input
    move.  Behind them the list holds exactly the fresh simmed moves,
    with the next ids of the counter, of the absent input moves in
    order: every input move without a match has one appended for itself
    or for an earlier input move it is equal to, and nothing else is
    appended.  The other members of the simulator are unchanged. *)
Theorem setIncludedMoves_spec (mvs : MoveList) (s : Simulator E) :
  let old := m_simmedMoves E s in
  let new := m_simmedMoves E (setIncludedMoves E mvs s) in
  let added := absentMoves E (map move old) mvs in
  (forall i sm, nth_error old i = Some sm ->
     exists sm', nth_error new i = Some sm' /\ sameAccumulators sm sm' /\
       (m_includeInSimulation sm' = true <->
        exists it, In it mvs /\ firstMatch E it old = Some i)) /\
  new = firstn (List.length old) new
        ++ freshSimmedMoves (objectIdCounter E s) added /\
  objectIdCounter E (setIncludedMoves E mvs s)
  = objectIdCounter E s + Z.of_nat (List.length added) /\
  (forall it, In it mvs -> firstMatch E it old = None ->
     exists m, In m added /\ (m = it \/ Move_eqb E it m = true)) /\
  (forall m, In m added -> In m mvs /\ firstMatch E m old = None) /\
  (forall i sm', (List.length old <= i)%nat -> nth_error new i = Some sm' ->
     exists it id, In it mvs /\ sm' = SimmedMove_new it id /\
                   firstMatch E it old = None) /\
  sameElsewhere s (setIncludedMoves E mvs s).
Proof.
  intros old new added.
  destruct (setIncludedMoves_effect mvs s) as [Hkept Happended].
  set (s0 := set_m_simmedMoves E
               (map (setIncludeInSimulation false) (m_simmedMoves E s)) s).
  destruct (fold_include_appended mvs s0) as [Hskip Hcount].
  assert (Hl0 : m_simmedMoves E s0 = map (setIncludeInSimulation false) old)
    by reflexivity.
  assert (Hmoves : map move (m_simmedMoves E s0) = map move old).
  { rewrite Hl0, map_map. apply map_ext. reflexivity. }
  assert (Hc0 : objectIdCounter E s0 = objectIdCounter E s).
  { unfold s0. destruct s; reflexivity. }
  rewrite Hmoves, Hc0 in Hskip, Hcount.
  rewrite Hl0, length_map in Hskip.
  change (fold_left (include_move E) mvs s0) with (setIncludedMoves E mvs s)
    in Hskip, Hcount.
  fold old new added in Hskip, Hcount.
  split; [exact Hkept|].
  split; [rewrite <- Hskip; symmetry; apply firstn_skipn|].
  split; [exact Hcount|].
  split.
  { intros it Hin Hfm. apply absentMoves_complete; [exact Hin|].
    rewrite firstMatch_existsb, Hfm. reflexivity. }
  split.
  { intros m Hin. destruct (absentMoves_sound mvs _ m Hin) as [H1 H2].
    split; [exact H1|]. rewrite firstMatch_existsb in H2.
    destruct (firstMatch E m old); [discriminate | reflexivity]. }
  split; [exact Happended|].
  unfold setIncludedMoves.
  destruct (fold_include_elsewhere mvs s0) as (H1 & H2 & H3 & H4 & H5 & H6 & H7).
  unfold sameElsewhere. repeat split; assumption.
Qed.

End IncludedMovesFacts.

(** ** resetNumbers and setPosition *)

Section ResetFacts.

Variable E : Engine.

Lemma resetNumbers_simmed (s : Simulator E) :
  m_simmedMoves E (resetNumbers E s) = map SimmedMove_clear (m_simmedMoves E s).
Proof. reflexivity. Qed.

(** What [resetNumbers] does to every simmed move: the levels are
    emptied, the three other accumulators are kept as they are. *)
Lemma resetNumbers_frame (s : Simulator E) :
  m_iterations E (resetNumbers E s) = 0 /\
  List.length (m_simmedMoves E (resetNumbers E s))
    = List.length (m_simmedMoves E s) /\
  forall i sm, nth_error (m_simmedMoves E s) i = Some sm ->
    exists sm', nth_error (m_simmedMoves E (resetNumbers E s)) i = Some sm' /\
      levels sm' = [] /\ residual sm' = residual sm /\
      gameSpread sm' = gameSpread sm /\ wins sm' = wins sm.
Proof.
  split; [reflexivity|]. split; [rewrite resetNumbers_simmed; apply length_map|].
  intros i sm Hn. exists (SimmedMove_clear sm). split.
  - rewrite resetNumbers_simmed, nth_error_map, Hn. reflexivity.
  - repeat split.
Qed.

Lemma push_all_fresh (mvs : MoveList) :
  forall s : Simulator E,
    Forall freshSimmedMove (m_simmedMoves E s) ->
    Forall freshSimmedMove
      (m_simmedMoves E (fold_left (fun s it => push_SimmedMove E it s) mvs s)).
Proof.
  induction mvs as [| it rest IH]; intros s Hs; simpl; [exact Hs|].
  apply IH. simpl. apply Forall_app. split; [exact Hs|].
  constructor; [|constructor]. repeat split.
Qed.

(** The sibling path: [setPosition] rebuilds the simmed moves, so all
    their accumulators are empty afterwards. *)
Lemma setPosition_fresh (position : GamePosition E) (s : Simulator E) :
  m_iterations E (setPosition E position s) = 0 /\
  Forall freshSimmedMove (m_simmedMoves E (setPosition E position s)).
Proof.
  split; [reflexivity|]. unfold setPosition. cbv zeta.
  rewrite resetNumbers_simmed. apply Forall_map.
  eapply Forall_impl; [| apply push_all_fresh; constructor].
  intros sm (H1 & H2 & H3 & H4). repeat split; assumption.
Qed.

End ResetFacts.

(** C2.  The code at a simulator that has run one iteration for one
    candidate: after resetNumbers the iteration counter is 0 and the
    levels grid is empty, but residual, gameSpread and wins each still
    hold the one value incorporated by that iteration. *)
Theorem resetNumbers_keeps_accumulators :
  m_iterations toyEngine toy_simulated = 1 /\
  m_iterations toyEngine (resetNumbers toyEngine toy_simulated) = 0 /\
  map (fun sm => (List.length (levels sm),
                  m_incorporatedValues (residual sm),
                  m_incorporatedValues (gameSpread sm),
                  m_incorporatedValues (wins sm)))
      (m_simmedMoves toyEngine (resetNumbers toyEngine toy_simulated))
  = [(0%nat, 1, 1, 1)].
Proof.
  vm_compute. repeat split; reflexivity.
Qed.

(** ** calculateEquity *)

Section EquityFacts.

Local Open Scope R_scope.

Lemma calculateEquity_scores_others (stats : list PositionStatistics) :
  forall equity : R,
    calculateEquity_scores false stats equity
    = equity - Rsum (map (fun ps => averagedValue (ps_score ps)) stats).
Proof.
  induction stats as [| ps rest IH]; intros equity; simpl.
  - lra.
  - rewrite IH. lra.
Qed.

Lemma calculateEquity_scores_level (l : Level) (equity : R) :
  calculateEquity_scores true (statistics l) equity = equity + levelEquity l.
Proof.
  unfold levelEquity. destruct (statistics l) as [| first others]; simpl.
  - lra.
  - rewrite calculateEquity_scores_others. lra.
Qed.

Lemma calculateEquity_levels (lvls : LevelList) :
  forall equity : R,
    fold_left (fun equity levelIt =>
                 calculateEquity_scores true (statistics levelIt) equity)
              lvls equity
    = equity + Rsum (map levelEquity lvls).
Proof.
  induction lvls as [| l rest IH]; intros equity; simpl.
  - lra.
  - rewrite IH, calculateEquity_scores_level. lra.
Qed.

(** C3.  calculateEquity returns the move's static equity when the
    levels grid is empty; otherwise the sum over the levels of the first
    slot's averaged score minus the averaged scores of the other slots,
    plus the averaged residual; with two slots in every level that is
    the sum over the levels of slot 0 minus slot 1, plus the averaged
    residual. *)
Theorem calculateEquity_spec (sm : SimmedMove) :
  (levels sm = [] -> calculateEquity sm = equity (move sm)) /\
  (levels sm <> [] ->
   calculateEquity sm
   = Rsum (map levelEquity (levels sm)) + averagedValue (residual sm)) /\
  (levels sm <> [] ->
   forall slots : list (PositionStatistics * PositionStatistics),
     map statistics (levels sm) = map (fun p => [fst p; snd p]) slots ->
     calculateEquity sm
     = Rsum (map (fun p => averagedValue (ps_score (fst p))
                           - averagedValue (ps_score (snd p))) slots)
       + averagedValue (residual sm)).
Proof.
  assert (Hgen : levels sm <> [] ->
                 calculateEquity sm
                 = Rsum (map levelEquity (levels sm))
                   + averagedValue (residual sm)).
  { intros Hne. unfold calculateEquity.
    destruct (levels sm) as [| l rest] eqn:Hl; [contradiction|].
    rewrite calculateEquity_levels. lra. }
  split; [| split].
  - intros Hl. unfold calculateEquity. rewrite Hl. reflexivity.
  - exact Hgen.
  - intros Hne slots Hslots. rewrite (Hgen Hne). f_equal.
    clear Hgen Hne. revert slots Hslots.
    induction (levels sm) as [| l rest IH]; intros [| p slots] H;
      simpl in *; try discriminate; [reflexivity|].
    injection H as Hp Hrest. rewrite (IH slots Hrest).
    unfold levelEquity. rewrite Hp. simpl. lra.
Qed.

End EquityFacts.

(** ** The abort dispatch *)

Section AbortFacts.

Variable E : Engine.

Lemma incorporateMessage_dispatch (message : SimmedMoveMessage) (s : Simulator E) :
  m_dispatch E (incorporateMessage E message s) = m_dispatch E s.
Proof.
  unfold incorporateMessage, isLogging, write. simpl.
  split_ifs; reflexivity.
Qed.

Lemma simulate_move_dispatch (a b c d : Z) (s : Simulator E) (i : nat) :
  m_dispatch E (simulate_move E a b c d s i) = m_dispatch E s.
Proof.
  unfold simulate_move.
  destruct (nth_error (m_simmedMoves E s) i) as [moveIt|]; [|reflexivity].
  destruct (negb (m_includeInSimulation moveIt)); [reflexivity|].
  cbv zeta.
  match goal with
  | |- context [levels_loop ?e ?a1 ?a2 ?a3 ?a4 ?a5 ?a6 ?a7 ?a8 ?a9 ?a10] =>
      destruct (levels_loop e a1 a2 a3 a4 a5 a6 a7 a8 a9 a10) as [lvls st]
  end.
  rewrite incorporateMessage_dispatch. reflexivity.
Qed.

Lemma simulate_moves_dispatch (a b c d : Z) (idx : list nat) :
  forall s : Simulator E,
    m_dispatch E (fold_left (simulate_move E a b c d) idx s) = m_dispatch E s.
Proof.
  induction idx as [| i idx IH]; intros s; simpl; [reflexivity|].
  rewrite IH. apply simulate_move_dispatch.
Qed.

(** A rollout never touches the dispatch. *)
Lemma simulate_dispatch (plies : Z) (s : Simulator E) :
  m_dispatch E (simulate E plies s) = m_dispatch E s.
Proof.
  unfold simulate. cbv zeta.
  match goal with
  | |- context [fold_left ?f ?l ?s0] =>
      assert (Hf : m_dispatch E (fold_left f l s0) = m_dispatch E s0)
        by apply simulate_moves_dispatch;
      assert (H0 : m_dispatch E s0 = m_dispatch E s);
      [| set (s1 := fold_left f l s0) in * ]
  end.
  - unfold isLogging, writeLogHeader, isLogging, write. simpl.
    split_ifs; reflexivity.
  - rewrite <- H0, <- Hf. unfold isLogging, write.
    destruct (m_logfileIsOpen E s1); reflexivity.
Qed.

Lemma iter_simulate_dispatch (plies : Z) (k : nat) (s : Simulator E) :
  m_dispatch E (Nat.iter k (simulate E plies) s) = m_dispatch E s.
Proof.
  induction k as [| k IH]; simpl; [reflexivity|].
  rewrite simulate_dispatch. exact IH.
Qed.

Lemma iter_simulate_shift (plies : Z) (k : nat) (s : Simulator E) :
  Nat.iter k (simulate E plies) (simulate E plies s)
  = simulate E plies (Nat.iter k (simulate E plies) s).
Proof.
  induction k as [| k IH]; simpl; [reflexivity|]. rewrite IH. reflexivity.
Qed.

Lemma leadingFalse_answers (dispatch : ComputerDispatch) (n : nat) :
  forall polls,
    let k := leadingFalse dispatch polls n in
    (forall j, (j < k)%nat -> dispatch (polls + j)%nat = false) /\
    ((k < n)%nat -> dispatch (polls + k)%nat = true).
Proof.
  induction n as [| n IH]; intros polls; simpl.
  - split; intros; lia.
  - destruct (dispatch polls) eqn:Hd.
    + split; [intros; lia|]. intros _. rewrite Nat.add_0_r. exact Hd.
    + destruct (IH (S polls)) as [Hfalse Htrue]. split.
      * intros [| j] Hj; [rewrite Nat.add_0_r; exact Hd|].
        rewrite Nat.add_succ_r. apply (Hfalse j). lia.
      * intros Hk. rewrite Nat.add_succ_r. apply Htrue. lia.
Qed.

Lemma simulate_loop_dispatch (plies : Z) (dispatch : ComputerDispatch) (n : nat) :
  forall (s : Simulator E) (polls : nat),
    m_dispatch E s = Some dispatch ->
    let k := leadingFalse dispatch polls n in
    simulate_loop E plies n s polls
    = (Nat.iter k (simulate E plies) s,
       if (k <? n)%nat then S (polls + k) else (polls + k)%nat).
Proof.
  induction n as [| n IH]; intros s polls Hd; simpl.
  - rewrite Nat.add_0_r. reflexivity.
  - rewrite Hd. destruct (dispatch polls) eqn:Hans.
    + simpl. rewrite Nat.add_0_r. reflexivity.
    + rewrite IH by (rewrite simulate_dispatch; exact Hd).
      cbv zeta. rewrite iter_simulate_shift. simpl Nat.iter.
      change (S (leadingFalse dispatch (S polls) n) <? S n)%nat
        with (leadingFalse dispatch (S polls) n <? n)%nat.
      rewrite !Nat.add_succ_r. reflexivity.
Qed.

Lemma simulate_loop_no_dispatch (plies : Z) (n : nat) :
  forall (s : Simulator E) (polls : nat),
    m_dispatch E s = None ->
    simulate_loop E plies n s polls = (Nat.iter n (simulate E plies) s, polls).
Proof.
  induction n as [| n IH]; intros s polls Hd; simpl; [reflexivity|].
  rewrite Hd, IH by (rewrite simulate_dispatch; exact Hd).
  rewrite iter_simulate_shift. reflexivity.
Qed.

(** C9.  simulate(plies, iterations) with a dispatch set: with k the
    number of answers false in a row it gets, the loop runs exactly k
    iterations and leaves the simulator as those k iterations left it
    (accumulators and iteration counter included); shouldAbort() is
    called once before each of them and once more when it answers true,
    which stops the loop, and never by a rollout, which has no access to
    the count of calls.  Without a dispatch all iterations run and
    nothing is polled. *)
Theorem simulate_iterations_abort (plies iterations : Z) (s : Simulator E)
    (polls : nat) :
  let n := Z.to_nat iterations in
  match m_dispatch E s with
  | Some dispatch =>
      let k := leadingFalse dispatch polls n in
      simulate_iterations E plies iterations s polls
      = (Nat.iter k (simulate E plies) s,
         if (k <? n)%nat then S (polls + k) else (polls + k)%nat) /\
      (k <= n)%nat /\
      (forall j, (j < k)%nat -> dispatch (polls + j)%nat = false) /\
      ((k < n)%nat -> dispatch (polls + k)%nat = true)
  | None =>
      simulate_iterations E plies iterations s polls
      = (Nat.iter n (simulate E plies) s, polls)
  end.
Proof.
  intros n. unfold simulate_iterations. fold n.
  destruct (m_dispatch E s) as [dispatch|] eqn:Hd.
  - cbv beta iota zeta.
    split; [apply simulate_loop_dispatch; exact Hd|].
    split.
    + clear. revert polls.
      induction n as [| n IH]; intros polls; simpl; [lia|].
      destruct (dispatch polls); [lia|]. specialize (IH (S polls)). lia.
    + apply leadingFalse_answers.
  - apply simulate_loop_no_dispatch. exact Hd.
Qed.

End AbortFacts.

(** A dispatch that answers true from its third call on, asked for five
    iterations: two iterations run and the dispatch is called three
    times. *)
Lemma simulate_iterations_toy :
  let s := setDispatch toyEngine (Some (fun k => 2 <=? k)%nat) toy_one in
  let r := simulate_iterations toyEngine 2 5 s 0 in
  m_iterations toyEngine (fst r) = 2 /\ snd r = 3%nat /\
  map (fun sm => m_incorporatedValues (wins sm)) (m_simmedMoves toyEngine (fst r))
  = [2].
Proof.
  vm_compute. repeat split; reflexivity.
Qed.

(** ** The rollout *)

Section RolloutFacts.

Variable E : Engine.
Variables startPlayerId numberOfPlayers decimalTurns levelsCount : Z.
Variables ignoreOppos logging : bool.
Variable candidateMove : Move.

Lemma r_write_game b e (st : Rollout E) :
  r_game E (r_write E b e st) = r_game E st.
Proof. unfold r_write. destruct b; reflexivity. Qed.

Lemma r_write_plies b e (st : Rollout E) :
  r_plies E (r_write E b e st) = r_plies E st.
Proof. unfold r_write. destruct b; reflexivity. Qed.

Lemma r_setIndent_game b f (st : Rollout E) :
  r_game E (r_setIndent E b f st) = r_game E st.
Proof. unfold r_setIndent. destruct b; reflexivity. Qed.

Lemma r_setIndent_plies b f (st : Rollout E) :
  r_plies E (r_setIndent E b f st) = r_plies E st.
Proof. unfold r_setIndent. destruct b; reflexivity. Qed.

Lemma recordResidual_plies L pn pos m (st : Rollout E) :
  r_plies E (recordResidual E startPlayerId numberOfPlayers decimalTurns
               levelsCount ignoreOppos logging L pn pos m st)
  = r_plies E st.
Proof.
  unfold recordResidual.
  destruct (isFinalTurnForPlayerOfSimulation _ _ _ _ && _); [|reflexivity].
  destruct (isVeryFinalTurnOfSimulation _ _ _ _ _); simpl;
    rewrite ?r_write_plies; reflexivity.
Qed.

Lemma simulate_ply_effect L slot pn scoresIt (st : Rollout E) :
  let st' := snd (simulate_ply E startPlayerId numberOfPlayers decimalTurns levelsCount
      ignoreOppos logging candidateMove L slot pn scoresIt st) in
  let p := plyRecord E startPlayerId numberOfPlayers decimalTurns levelsCount
      ignoreOppos candidateMove L slot pn (r_game E st) in
  r_plies E st' = r_plies E st ++ [p] /\
  r_game E st' = commitCandidate E (ply_maintainBoard E p)
                   (setCandidate E (ply_candidate E p) (r_game E st)).
Proof.
  unfold simulate_ply. cbv zeta. simpl snd.
  rewrite r_write_plies, r_setIndent_plies, r_write_game, r_setIndent_game.
  simpl.
  rewrite recordResidual_plies, !r_write_plies, r_setIndent_plies, r_write_plies.
  split; reflexivity.
Qed.

Lemma played_app (g g1 g2 : Game E) (l1 l2 : list (PlyRecord E)) :
  played E g l1 g1 -> played E g1 l2 g2 -> played E g (l1 ++ l2) g2.
Proof.
  revert g. induction l1 as [| p l1 IH]; intros g; simpl.
  - intros ->. auto.
  - intros [Hp H1] H2. split; [exact Hp|]. apply IH; assumption.
Qed.

Lemma plies_loop_spec L (stats : list PositionStatistics) :
  forall slot (st : Rollout E),
    let st' := snd (plies_loop E startPlayerId numberOfPlayers decimalTurns levelsCount
      ignoreOppos logging candidateMove L slot slot stats st) in
    exists plies,
      r_plies E st' = r_plies E st ++ plies /\
      played E (r_game E st) plies (r_game E st') /\
      Forall (recordedPly E startPlayerId numberOfPlayers decimalTurns
                levelsCount ignoreOppos candidateMove) plies /\
      Forall (fun p => ply_levelNumber E p = L) plies.
Proof.
  induction stats as [| scoresIt rest IH]; intros slot st; cbn [plies_loop].
  - exists []. simpl. rewrite app_nil_r. repeat split; constructor.
  - destruct (gameOver E (r_game E st)).
    + exists []. simpl. rewrite app_nil_r. repeat split; constructor.
    + pose proof (simulate_ply_effect L slot (slot + 1) scoresIt st) as Hply.
      destruct (simulate_ply E startPlayerId numberOfPlayers decimalTurns levelsCount
      ignoreOppos logging candidateMove L slot (slot + 1) scoresIt st) as [sc1 st1].
      cbv zeta in Hply. cbn [snd] in Hply. destruct Hply as [Hplies Hgame].
      specialize (IH (slot + 1) st1).
      destruct (plies_loop E startPlayerId numberOfPlayers decimalTurns levelsCount
      ignoreOppos logging candidateMove L (slot + 1) (slot + 1) rest st1) as [rest2 st2].
      cbv zeta in IH. cbn [snd] in *.
      destruct IH as (plies & Hp2 & Hplayed & Hrec & Hlev).
      exists (plyRecord E startPlayerId numberOfPlayers decimalTurns levelsCount
      ignoreOppos candidateMove L slot (slot + 1) (r_game E st) :: plies).
      split; [rewrite Hp2, Hplies, <- app_assoc; reflexivity|].
      split; [cbn [played]; split;
              [reflexivity | rewrite <- Hgame; exact Hplayed]|].
      split; constructor; auto.
      split; reflexivity.
Qed.

Lemma levels_loop_spec (lvls : LevelList) :
  forall L (st : Rollout E),
    let st' := snd (levels_loop E startPlayerId numberOfPlayers decimalTurns levelsCount
      ignoreOppos logging candidateMove L lvls st) in
    exists plies,
      r_plies E st' = r_plies E st ++ plies /\
      played E (r_game E st) plies (r_game E st') /\
      Forall (recordedPly E startPlayerId numberOfPlayers decimalTurns
                levelsCount ignoreOppos candidateMove) plies.
Proof.
  induction lvls as [| levelIt rest IH]; intros L st; cbn [levels_loop].
  - exists []. simpl. rewrite app_nil_r. repeat split; constructor.
  - destruct ((L <=? levelsCount + 1) && negb (gameOver E (r_game E st))).
    + match goal with
      | |- context [if ?c then _ else _] => destruct c
      end.
      * specialize (IH (L + 1) st).
        destruct (levels_loop E startPlayerId numberOfPlayers decimalTurns levelsCount
      ignoreOppos logging candidateMove (L + 1) rest st) as [rest1 st1]. exact IH.
      * match goal with
        | |- context [plies_loop E startPlayerId numberOfPlayers decimalTurns levelsCount
      ignoreOppos logging candidateMove L 1 1 ?stats st] =>
            pose proof (plies_loop_spec L stats 1 st) as Hl;
            destruct (plies_loop E startPlayerId numberOfPlayers decimalTurns levelsCount
      ignoreOppos logging candidateMove L 1 1 stats st) as [stats1 st1]
        end.
        cbv zeta in Hl. cbn [snd] in Hl.
        destruct Hl as (p1 & Hp1 & Hplayed1 & Hrec1 & _).
        specialize (IH (L + 1) st1).
        destruct (levels_loop E startPlayerId numberOfPlayers decimalTurns levelsCount
      ignoreOppos logging candidateMove (L + 1) rest st1) as [rest2 st2].
        cbv zeta in IH. cbn [snd] in *.
        destruct IH as (p2 & Hp2 & Hplayed2 & Hrec2).
        exists (p1 ++ p2).
        split; [rewrite Hp2, Hp1, <- app_assoc; reflexivity|].
        split; [eapply played_app; eassumption|].
        apply Forall_app. split; assumption.
    + exists []. simpl. rewrite app_nil_r. repeat split; constructor.
Qed.

Lemma withDeadwood_restored (pos : Game E) (m : Move) :
  Move_setScore (score (withDeadwood E pos m) - deadwoodScoreOf E pos m)
                (withDeadwood E pos m) = m.
Proof.
  unfold withDeadwood, deadwoodScoreOf.
  destruct (doesMoveEndGame E pos m); destruct m; unfold Move_setScore; simpl;
    f_equal; lia.
Qed.

Lemma chooseMove_ruleMove (L : Z) (pos : Game E) :
  chooseMove E startPlayerId ignoreOppos candidateMove L pos
  = ruleMove E startPlayerId ignoreOppos candidateMove L pos.
Proof.
  unfold chooseMove, ruleMove. rewrite (andb_comm (L =? 1)). reflexivity.
Qed.

(** The ply loop plays the plies of the rule, one per slot. *)
Lemma plies_loop_trace L (stats : list PositionStatistics) :
  forall slot (st : Rollout E),
    let st' := snd (plies_loop E startPlayerId numberOfPlayers decimalTurns levelsCount
      ignoreOppos logging candidateMove L slot slot stats st) in
    let rule := rulePlies E startPlayerId numberOfPlayers decimalTurns levelsCount
      ignoreOppos candidateMove L slot (List.length stats) (r_game E st) in
    r_game E st' = snd rule /\
    exists plies,
      r_plies E st' = r_plies E st ++ plies /\
      map (plyView E) plies = fst rule /\
      Forall (recordedPly E startPlayerId numberOfPlayers decimalTurns
                levelsCount ignoreOppos candidateMove) plies.
Proof.
  induction stats as [| scoresIt rest IH]; intros slot st;
    cbn [plies_loop rulePlies List.length].
  - simpl. split; [reflexivity|]. exists []. rewrite app_nil_r.
    repeat split; constructor.
  - destruct (gameOver E (r_game E st)).
    + simpl. split; [reflexivity|]. exists []. rewrite app_nil_r.
      repeat split; constructor.
    + pose proof (simulate_ply_effect L slot (slot + 1) scoresIt st) as Hply.
      destruct (simulate_ply E startPlayerId numberOfPlayers decimalTurns levelsCount
      ignoreOppos logging candidateMove L slot (slot + 1) scoresIt st) as [sc1 st1].
      cbv zeta in Hply. cbn [snd] in Hply. destruct Hply as [Hplies Hgame].
      assert (Hcommit : r_game E st1
                = ruleCommit E startPlayerId numberOfPlayers decimalTurns
                    levelsCount ignoreOppos candidateMove L slot (r_game E st)).
      { rewrite Hgame. unfold ruleCommit.
        cbn [plyRecord ply_maintainBoard ply_candidate].
        rewrite withDeadwood_restored, chooseMove_ruleMove. reflexivity. }
      specialize (IH (slot + 1) st1). rewrite Hcommit in IH.
      destruct (plies_loop E startPlayerId numberOfPlayers decimalTurns levelsCount
      ignoreOppos logging candidateMove L (slot + 1) (slot + 1) rest st1) as [rest2 st2].
      destruct (rulePlies E startPlayerId numberOfPlayers decimalTurns levelsCount
      ignoreOppos candidateMove L (slot + 1) (List.length rest)
      (ruleCommit E startPlayerId numberOfPlayers decimalTurns
         levelsCount ignoreOppos candidateMove L slot (r_game E st)))
        as [rplies rpos].
      cbv zeta in IH. cbn [fst snd] in *.
      destruct IH as (Hg & plies & Hp2 & Hview & Hrec).
      split; [exact Hg|].
      exists (plyRecord E startPlayerId numberOfPlayers decimalTurns levelsCount
      ignoreOppos candidateMove L slot (slot + 1) (r_game E st) :: plies).
      split; [rewrite Hp2, Hplies, <- app_assoc; reflexivity|].
      split.
      * cbn [map]. rewrite Hview. unfold plyView at 1.
        cbn [plyRecord ply_levelNumber ply_slot ply_position ply_move].
        rewrite chooseMove_ruleMove. reflexivity.
      * constructor; [split; reflexivity | exact Hrec].
Qed.

(** The level loop plays the plies of the rule, level after level. *)
Lemma levels_loop_trace (lvls : LevelList) :
  forall L (st : Rollout E),
    let st' := snd (levels_loop E startPlayerId numberOfPlayers decimalTurns levelsCount
      ignoreOppos logging candidateMove L lvls st) in
    let rule := ruleLevels E startPlayerId numberOfPlayers decimalTurns levelsCount
      ignoreOppos candidateMove L lvls (r_game E st) in
    r_game E st' = snd rule /\
    exists plies,
      r_plies E st' = r_plies E st ++ plies /\
      map (plyView E) plies = fst rule /\
      Forall (recordedPly E startPlayerId numberOfPlayers decimalTurns
                levelsCount ignoreOppos candidateMove) plies.
Proof.
  induction lvls as [| levelIt rest IH]; intros L st;
    cbn [levels_loop ruleLevels].
  - simpl. split; [reflexivity|]. exists []. rewrite app_nil_r.
    repeat split; constructor.
  - destruct ((L <=? levelsCount + 1) && negb (gameOver E (r_game E st))).
    + cbv zeta.
      destruct ((if L =? levelsCount + 1 then decimalTurns else numberOfPlayers)
                =? 0) eqn:Hdec.
      * specialize (IH (L + 1) st).
        destruct (levels_loop E startPlayerId numberOfPlayers decimalTurns levelsCount
      ignoreOppos logging candidateMove (L + 1) rest st) as [rest1 st1]. exact IH.
      * set (decimal := if L =? levelsCount + 1 then decimalTurns
                        else numberOfPlayers) in *.
        pose proof (plies_loop_trace L (statistics (setNumberScores decimal levelIt))
                      1 st) as Hl.
        assert (Hlen : List.length (statistics (setNumberScores decimal levelIt))
                       = Nat.max (List.length (statistics levelIt))
                                 (Z.to_nat decimal)).
        { unfold setNumberScores. cbn [statistics].
          rewrite length_app, repeat_length. lia. }
        rewrite Hlen in Hl.
        destruct (plies_loop E startPlayerId numberOfPlayers decimalTurns levelsCount
      ignoreOppos logging candidateMove L 1 1
      (statistics (setNumberScores decimal levelIt)) st) as [stats1 st1].
        destruct (rulePlies E startPlayerId numberOfPlayers decimalTurns levelsCount
      ignoreOppos candidateMove L 1
      (Nat.max (List.length (statistics levelIt)) (Z.to_nat decimal))
      (r_game E st)) as [rplies1 rpos1].
        cbv zeta in Hl. cbn [fst snd] in Hl.
        destruct Hl as (Hg1 & p1 & Hp1 & Hview1 & Hrec1).
        specialize (IH (L + 1) st1). rewrite Hg1 in IH.
        destruct (levels_loop E startPlayerId numberOfPlayers decimalTurns levelsCount
      ignoreOppos logging candidateMove (L + 1) rest st1) as [rest2 st2].
        destruct (ruleLevels E startPlayerId numberOfPlayers decimalTurns levelsCount
      ignoreOppos candidateMove (L + 1) rest rpos1) as [rplies2 rpos2].
        cbv zeta in IH. cbn [fst snd] in *.
        destruct IH as (Hg2 & p2 & Hp2 & Hview2 & Hrec2).
        split; [exact Hg2|].
        exists (p1 ++ p2).
        split; [rewrite Hp2, Hp1, <- app_assoc; reflexivity|].
        split; [rewrite map_app, Hview1, Hview2; reflexivity|].
        apply Forall_app. split; assumption.
    + simpl. split; [reflexivity|]. exists []. rewrite app_nil_r.
      repeat split; constructor.
Qed.

(** Every ply of the rule carries the move of the rule. *)
Lemma rulePlies_moves L (slots : nat) :
  forall slot (pos : Game E),
    Forall (fun p : RulePly E =>
              snd p = ruleMove E startPlayerId ignoreOppos candidateMove
                        (fst (fst (fst p))) (snd (fst p)))
           (fst (rulePlies E startPlayerId numberOfPlayers decimalTurns levelsCount
                   ignoreOppos candidateMove L slot slots pos)).
Proof.
  induction slots as [| slots IH]; intros slot pos; cbn [rulePlies].
  - constructor.
  - destruct (gameOver E pos); [constructor|].
    specialize (IH (slot + 1)
                   (ruleCommit E startPlayerId numberOfPlayers decimalTurns
                      levelsCount ignoreOppos candidateMove L slot pos)).
    destruct (rulePlies E startPlayerId numberOfPlayers decimalTurns levelsCount
                ignoreOppos candidateMove L (slot + 1) slots _) as [plies pos'].
    cbn [fst snd] in *. constructor; [reflexivity | exact IH].
Qed.

Lemma ruleLevels_moves (lvls : LevelList) :
  forall L (pos : Game E),
    Forall (fun p : RulePly E =>
              snd p = ruleMove E startPlayerId ignoreOppos candidateMove
                        (fst (fst (fst p))) (snd (fst p)))
           (fst (ruleLevels E startPlayerId numberOfPlayers decimalTurns levelsCount
                   ignoreOppos candidateMove L lvls pos)).
Proof.
  induction lvls as [| levelIt rest IH]; intros L pos; cbn [ruleLevels].
  - constructor.
  - destruct ((L <=? levelsCount + 1) && negb (gameOver E pos)); [|constructor].
    cbv zeta.
    destruct ((if L =? levelsCount + 1 then decimalTurns else numberOfPlayers)
              =? 0); [apply IH|].
    match goal with
    | |- context [rulePlies E ?a ?b ?c ?d ?e ?f L 1 ?n pos] =>
        pose proof (rulePlies_moves L n 1 pos) as H1;
        destruct (rulePlies E a b c d e f L 1 n pos) as [plies1 pos1]
    end.
    specialize (IH (L + 1) pos1).
    destruct (ruleLevels E startPlayerId numberOfPlayers decimalTurns levelsCount
                ignoreOppos candidateMove (L + 1) rest pos1) as [plies2 pos2].
    cbn [fst snd] in *. apply Forall_app. split; assumption.
Qed.

(** The two predicates as the code computes them: in the body of the ply
    loop [playerNumber] is the slot plus one, because it starts at 1 and
    is incremented at the head of the body. *)
Lemma rollout_flags (levelNumber : Z) (lvls : LevelList) (st : Rollout E) :
  let st' := snd (levels_loop E startPlayerId numberOfPlayers decimalTurns levelsCount
      ignoreOppos logging candidateMove levelNumber lvls st) in
  exists plies,
    r_plies E st' = r_plies E st ++ plies /\
    Forall (fun p =>
              let L := ply_levelNumber E p in
              let s := ply_slot E p in
              let opponentIgnored :=
                ignoreOppos
                && negb (currentPlayerId E (ply_position E p) =? startPlayerId) in
              ply_playerNumber E p = s + 1 /\
              ply_isFinalTurnForPlayer E p
              = ((L =? levelsCount) && (decimalTurns <? s + 1))
                || ((L =? levelsCount + 1) && (s + 1 <=? decimalTurns)) /\
              ply_isVeryFinalTurn E p
              = ((decimalTurns =? 0) && (L =? levelsCount)
                 && (s + 1 =? numberOfPlayers))
                || ((L =? levelsCount + 1) && (s + 1 =? decimalTurns)) /\
              ply_playerConsideration E p
              = ply_isFinalTurnForPlayer E p && negb opponentIgnored /\
              ply_sharedConsideration E p
              = ply_playerConsideration E p && ply_isVeryFinalTurn E p /\
              ply_maintainBoard E p = negb (ply_isVeryFinalTurn E p))
           plies.
Proof.
  intros st'. destruct (levels_loop_spec lvls levelNumber st)
    as (plies & Hp & _ & Hrec).
  exists plies. split; [exact Hp|].
  eapply Forall_impl; [|exact Hrec].
  intros p [Hp' Hpn]. cbv zeta. split; [exact Hpn|].
  pose proof (f_equal (ply_isFinalTurnForPlayer E) Hp') as Hf.
  pose proof (f_equal (ply_isVeryFinalTurn E) Hp') as Hv.
  pose proof (f_equal (ply_playerConsideration E) Hp') as Hpc.
  pose proof (f_equal (ply_sharedConsideration E) Hp') as Hsc.
  pose proof (f_equal (ply_maintainBoard E) Hp') as Hmb.
  cbn [plyRecord ply_isFinalTurnForPlayer ply_isVeryFinalTurn
       ply_playerConsideration ply_sharedConsideration ply_maintainBoard]
    in Hf, Hv, Hpc, Hsc, Hmb.
  rewrite Hsc, Hmb, Hpc, Hf, Hv, Hpn.
  unfold isFinalTurnForPlayerOfSimulation, isVeryFinalTurnOfSimulation.
  repeat split.
  destruct (ply_levelNumber E p =? levelsCount) eqn:H1.
  - apply Z.eqb_eq in H1.
    assert (H2 : (ply_levelNumber E p =? levelsCount + 1) = false)
      by (apply Z.eqb_neq; lia).
    rewrite H2. simpl. rewrite orb_false_r. reflexivity.
  - reflexivity.
Qed.

End RolloutFacts.

Section RolloutCall.

Variable E : Engine.

Lemma incorporateMessage_simulatedGame (message : SimmedMoveMessage)
    (s : Simulator E) :
  m_simulatedGame E (incorporateMessage E message s) = m_simulatedGame E s.
Proof.
  unfold incorporateMessage, isLogging, write. simpl.
  split_ifs; reflexivity.
Qed.

(** The rollout of an included simmed move is the level loop from level
    number 1, on the original game, with its move as the candidate; the
    simulated game afterwards is the one the loop leaves. *)
Lemma simulate_move_game (a b c d : Z) (s : Simulator E) (i : nat)
    (moveIt : SimmedMove) :
  nth_error (m_simmedMoves E s) i = Some moveIt ->
  m_includeInSimulation moveIt = true ->
  m_simulatedGame E (simulate_move E a b c d s i)
  = r_game E
      (snd (levels_loop E a b c d (m_ignoreOppos E s) (isLogging E s)
              (move moveIt) 1 (setNumberLevels (d + 1) (levels moveIt))
              (mkRollout E (m_originalGame E s) 0%R (m_xmlIndent E s)
                 (m_logfileStream E s) []))).
Proof.
  intros Hn Hinc. unfold simulate_move. rewrite Hn, Hinc. cbn [negb]. cbv zeta.
  destruct s as [f o h i0 st ce dp it ig og sg r cm sm n].
  cbn [m_ignoreOppos isLogging m_logfileIsOpen m_simulatedGame m_xmlIndent
       m_logfileStream m_originalGame set_m_simulatedGame set_m_simmedMoves
       move levels SimmedMove_setLevels].
  match goal with
  | |- context [levels_loop ?e ?a1 ?a2 ?a3 ?a4 ?a5 ?a6 ?a7 ?a8 ?a9 ?a10] =>
      destruct (levels_loop e a1 a2 a3 a4 a5 a6 a7 a8 a9 a10) as [lvls st1]
  end.
  rewrite incorporateMessage_simulatedGame. reflexivity.
Qed.

End RolloutCall.

(** C5.  The plies of a rollout are those of the rule, in which the move
    of every ply is: the candidate move if the level number is 1 and the
    current player is the start player; otherwise a pass if ignoreOppos
    is set and the current player is not the start player; otherwise
    the engine's staticBestMove() on the position.  The level loop from
    level number 1 leaves the position that committing these moves one
    after the other leaves, and the plies it played are these, each with
    its level number (the levels count from 1), its position and its
    move, the move chosen being the one set as candidate and committed.
    When the game is not over and the first level has a slot, the first
    ply is played at level 1 from the position the rollout starts from.
    The rollout of an included simmed move is this loop, on the
    original game with the simmed move's move as the candidate. *)
Theorem chooseMove_every_ply (E : Engine)
    (startPlayerId numberOfPlayers decimalTurns levelsCount : Z)
    (ignoreOppos logging : bool) (candidateMove : Move)
    (lvls : LevelList) (st : Rollout E) :
  let st' := snd (levels_loop E startPlayerId numberOfPlayers decimalTurns
                    levelsCount ignoreOppos logging candidateMove 1 lvls st) in
  let rule := ruleLevels E startPlayerId numberOfPlayers decimalTurns
                levelsCount ignoreOppos candidateMove 1 lvls (r_game E st) in
  Forall (fun p : RulePly E =>
            let '(levelNumber, _, pos, m) := p in
            let playerId := currentPlayerId E pos in
            m = if (levelNumber =? 1) && (playerId =? startPlayerId)
                then candidateMove
                else if ignoreOppos && negb (playerId =? startPlayerId)
                     then createPassMove E
                     else staticBestMove E pos)
         (fst rule) /\
  r_game E st' = snd rule /\
  (exists plies,
     r_plies E st' = r_plies E st ++ plies /\
     map (plyView E) plies = fst rule /\
     Forall (fun p => ply_candidate E p = ply_move E p) plies) /\
  (forall levelIt rest,
     lvls = levelIt :: rest ->
     gameOver E (r_game E st) = false ->
     0 <= levelsCount ->
     0 < (if levelsCount =? 0 then decimalTurns else numberOfPlayers) ->
     exists m tail,
       fst rule = (1, 1, r_game E st, m) :: tail /\
       (currentPlayerId E (r_game E st) = startPlayerId -> m = candidateMove)) /\
  (forall (s : Simulator E) (i : nat) (moveIt : SimmedMove),
     m_ignoreOppos E s = ignoreOppos ->
     move moveIt = candidateMove ->
     nth_error (m_simmedMoves E s) i = Some moveIt ->
     m_includeInSimulation moveIt = true ->
     m_simulatedGame E
       (simulate_move E startPlayerId numberOfPlayers decimalTurns levelsCount
          s i)
     = snd (ruleLevels E startPlayerId numberOfPlayers decimalTurns levelsCount
              ignoreOppos candidateMove 1
              (setNumberLevels (levelsCount + 1) (levels moveIt))
              (m_originalGame E s))).
Proof.
  intros st' rule. split; [| split; [| split; [| split]]].
  - eapply Forall_impl;
      [| apply (ruleLevels_moves E startPlayerId numberOfPlayers decimalTurns
                  levelsCount ignoreOppos candidateMove lvls 1 (r_game E st))].
    intros [[[L slot] pos] m]. cbn [fst snd]. intros ->. reflexivity.
  - apply (levels_loop_trace E startPlayerId numberOfPlayers decimalTurns
             levelsCount ignoreOppos logging candidateMove lvls 1 st).
  - destruct (levels_loop_trace E startPlayerId numberOfPlayers decimalTurns
                levelsCount ignoreOppos logging candidateMove lvls 1 st)
      as (_ & plies & Hp & Hview & Hrec).
    exists plies. split; [exact Hp|]. split; [exact Hview|].
    eapply Forall_impl; [|exact Hrec].
    intros p [Hp' _]. rewrite Hp'. cbn [plyRecord ply_candidate ply_move].
    apply withDeadwood_restored.
  - intros levelIt rest -> Hover Hlev Hslots. unfold rule.
    cbn [ruleLevels]. rewrite Hover.
    assert (H1 : (1 <=? levelsCount + 1) = true) by (apply Z.leb_le; lia).
    rewrite H1. cbn [andb negb]. cbv zeta.
    assert (Heq : (1 =? levelsCount + 1) = (levelsCount =? 0)).
    { destruct (Z.eqb_spec 1 (levelsCount + 1)), (Z.eqb_spec levelsCount 0);
        try reflexivity; lia. }
    rewrite Heq.
    set (decimal := if levelsCount =? 0 then decimalTurns else numberOfPlayers)
      in *.
    assert (Hd : (decimal =? 0) = false) by (apply Z.eqb_neq; lia).
    rewrite Hd.
    destruct (Nat.max (List.length (statistics levelIt)) (Z.to_nat decimal))
      as [| slots] eqn:Hmax; [lia|].
    cbn [rulePlies]. rewrite Hover.
    match goal with
    | |- context [rulePlies E ?a ?b ?c ?d ?e ?f ?L ?sl slots ?pos] =>
        destruct (rulePlies E a b c d e f L sl slots pos) as [plies1 pos1]
    end.
    match goal with
    | |- context [ruleLevels E ?a ?b ?c ?d ?e ?f ?L rest pos1] =>
        destruct (ruleLevels E a b c d e f L rest pos1) as [plies2 pos2]
    end.
    cbn [fst]. eexists. eexists. split; [reflexivity|].
    intros Hplayer. unfold ruleMove. rewrite Hplayer, !Z.eqb_refl. reflexivity.
  - intros s i moveIt Hig Hmv Hn Hinc.
    rewrite (simulate_move_game E _ _ _ _ s i moveIt Hn Hinc), Hig, Hmv.
    apply (levels_loop_trace E startPlayerId numberOfPlayers decimalTurns
             levelsCount ignoreOppos (isLogging E s) candidateMove
             (setNumberLevels (levelsCount + 1) (levels moveIt)) 1
             (mkRollout E (m_originalGame E s) 0%R (m_xmlIndent E s)
                (m_logfileStream E s) [])).
Qed.

(** C1.  The code on scenario 2 of the spec (two players, plies = 2,
    hence levels = 1 and decimal = 1), one entry per ply: level number,
    slot, final turn of the player, very final ply, player
    consideration added, shared consideration added, maintain-board
    flag.  The last ply (level 2, slot 1) is flagged neither final nor
    very final and is committed with maintain-board true; the first ply
    (level 1, slot 1) is flagged final. *)
Theorem rollout_flags_scenario2 :
  map (fun p => (ply_levelNumber toyEngine p, ply_slot toyEngine p,
                 ply_isFinalTurnForPlayer toyEngine p,
                 ply_isVeryFinalTurn toyEngine p,
                 ply_playerConsideration toyEngine p,
                 ply_sharedConsideration toyEngine p,
                 ply_maintainBoard toyEngine p))
      (r_plies toyEngine (snd toy_rollout))
  = [(1, 1, true, false, true, false, true);
     (1, 2, true, false, true, false, true);
     (2, 1, false, false, false, false, true)].
Proof.
  vm_compute. reflexivity.
Qed.

(** ** The message at the end of a rollout *)

Section MessageFacts.

Variable E : Engine.

Local Open Scope R_scope.

Lemma double_to_int_spec (x : R) :
  (0 <= x -> double_to_int x = Zfloor x) /\
  (x < 0 -> double_to_int x = Zceil x).
Proof.
  unfold double_to_int. destruct (Rle_dec 0 x); split; intros; try lra; reflexivity.
Qed.

(** C4 (as amended).  At the end of a rollout: if the simulated game is
    over, bogowin is false and wins is 1, 1/2 or 0 as the spread of the
    start player is positive, zero or negative; otherwise bogowin is
    true and wins is bogowin(t(spread + residual), bagSize + rackSize, 0)
    when the current player is the start player and
    1 - bogowin(t(-spread - residual), bagSize + rackSize, 0) otherwise,
    where t truncates toward zero: the floor of a value that is not
    negative, the ceiling of a negative one.  So bogowin is false iff
    the rollout reached game-over. *)
Theorem rolloutMessage_wins (startPlayerId id : Z) (lvls : LevelList)
    (game : Game E) (residual : R) :
  let message := rolloutMessage E startPlayerId id lvls game residual in
  let spread := spread E game startPlayerId in
  let units := (bagSize E game + rackSize E)%Z in
  let t := fun x : R => if Rle_dec 0 x then Zfloor x else Zceil x in
  (gameOver E game = true ->
     msg_bogowin message = false /\
     msg_wins message
     = if (0 <? spread)%Z then 1 else if (spread =? 0)%Z then 1 / 2 else 0) /\
  (gameOver E game = false ->
     msg_bogowin message = true /\
     (currentPlayerId E game = startPlayerId ->
        msg_wins message = bogowin E (t (IZR spread + residual)) units 0%Z) /\
     (currentPlayerId E game <> startPlayerId ->
        msg_wins message
        = 1 - bogowin E (t (- IZR spread - residual)) units 0%Z)) /\
  (msg_bogowin message = false <-> gameOver E game = true) /\
  msg_residual message = residual /\
  msg_gameSpread message = spread.
Proof.
  cbv zeta. unfold rolloutMessage.
  destruct (gameOver E game) eqn:Hover; simpl.
  - repeat split; auto; discriminate.
  - split; [discriminate|]. split.
    + split; [reflexivity|]. split.
      * intros Hp. apply Z.eqb_eq in Hp. rewrite Hp. reflexivity.
      * intros Hp. apply Z.eqb_neq in Hp. rewrite Hp, opp_IZR. reflexivity.
    + repeat split; auto; discriminate.
Qed.

End MessageFacts.

(** The toy rollout of a candidate of score 9 with one more ply: the
    start player is to move, 1 point behind, with residual 1/4. *)
Lemma toy_rollout_short_end :
  r_game toyEngine (snd toy_rollout_short) = mkToyGame 1 98 (-1) 0 [] /\
  r_residual toyEngine (snd toy_rollout_short) = (1 / 4)%R.
Proof.
  split; [vm_compute; reflexivity|].
  vm_compute. lra.
Qed.

(** C4, as first stated, fails: with spread + residual = -3/4 the code
    looks up bogowin at 0, the truncation, and not at -1, the floor. *)
Lemma rolloutMessage_floor_counterexample :
  gameOver toyEngine (r_game toyEngine (snd toy_rollout_short)) = false /\
  currentPlayerId toyEngine (r_game toyEngine (snd toy_rollout_short)) = 1 /\
  msg_wins (rolloutMessage toyEngine 1 1 (fst toy_rollout_short)
              (r_game toyEngine (snd toy_rollout_short))
              (r_residual toyEngine (snd toy_rollout_short)))
  <> bogowin toyEngine
       (Zfloor (IZR (spread toyEngine
                       (r_game toyEngine (snd toy_rollout_short)) 1)
                + r_residual toyEngine (snd toy_rollout_short)))
       (bagSize toyEngine (r_game toyEngine (snd toy_rollout_short))
        + rackSize toyEngine) 0.
Proof.
  destruct toy_rollout_short_end as [Hg Hr].
  rewrite Hg, Hr. split; [reflexivity|]. split; [reflexivity|].
  unfold rolloutMessage. simpl.
  assert (Ht : double_to_int (-1 + 1 / 4) = 0).
  { destruct (double_to_int_spec (-1 + 1 / 4)) as [_ Hneg].
    rewrite Hneg by lra. apply Zceil_eq. simpl. lra. }
  assert (Hf : Zfloor (-1 + 1 / 4) = -1).
  { apply Zfloor_eq. simpl. lra. }
  rewrite Ht, Hf. simpl. lra.
Qed.

(** ** moves and pruneTo *)

Section PruneFacts.

Variable E : Engine.

Lemma Rge_bool_true (x y : R) : Rge_bool x y = true <-> (y <= x)%R.
Proof.
  unfold Rge_bool. destruct (Rle_dec y x); split; auto; discriminate.
Qed.

Lemma Rge_bool_false (x y : R) : Rge_bool x y = false <-> (x < y)%R.
Proof.
  unfold Rge_bool. destruct (Rle_dec y x); split; intros; try lra;
    try discriminate; reflexivity.
Qed.

Lemma MoveList_insert_perm (type : SortType) (m : Move) (l : MoveList) :
  Permutation (MoveList_insert type m l) (m :: l).
Proof.
  induction l as [| m' rest IH]; simpl; [reflexivity|].
  destruct (Rge_bool _ _); [reflexivity|].
  rewrite IH. apply perm_swap.
Qed.

Lemma MoveList_sort_perm (type : SortType) (l : MoveList) :
  Permutation (MoveList_sort type l) l.
Proof.
  induction l as [| m rest IH]; simpl; [reflexivity|].
  rewrite MoveList_insert_perm, IH. reflexivity.
Qed.

Lemma MoveList_insert_descending (type : SortType) (m : Move) (l : MoveList) :
  descendingBy (sortKey type) l ->
  descendingBy (sortKey type) (MoveList_insert type m l).
Proof.
  induction l as [| m' rest IH]; simpl.
  - intros _. split; [constructor | exact I].
  - intros [Hall Hrest].
    destruct (Rge_bool (sortKey type m) (sortKey type m')) eqn:Hc.
    + apply Rge_bool_true in Hc. simpl. split; [|split; assumption].
      constructor; [exact Hc|].
      eapply Forall_impl; [|exact Hall]. intros x Hx. simpl in Hx. lra.
    + apply Rge_bool_false in Hc. simpl. split; [|apply IH; exact Hrest].
      eapply Permutation_Forall.
      * symmetry. apply MoveList_insert_perm.
      * constructor; [lra | exact Hall].
Qed.

Lemma MoveList_sort_descending (type : SortType) (l : MoveList) :
  descendingBy (sortKey type) (MoveList_sort type l).
Proof.
  induction l as [| m rest IH]; simpl; [exact I|].
  apply MoveList_insert_descending. exact IH.
Qed.

Lemma moves_collect_included (s : Simulator E) (l : SimmedMoveList) :
  moves_collect true (hasSimulationResults E s) l
  = map (valuedMove s) (filter m_includeInSimulation l).
Proof.
  unfold moves_collect.
  induction l as [| sm rest IH]; [reflexivity|].
  cbn [flat_map filter]. rewrite IH. unfold valuedMove.
  destruct (m_includeInSimulation sm); simpl;
    destruct (hasSimulationResults E s); reflexivity.
Qed.

Lemma pruneTo_loop_filter (threshold : R) (maxNumberOfMoves : Z) (l : MoveList) :
  forall i,
    pruneTo_loop threshold maxNumberOfMoves i l
    = filter (fun m => Rge_bool (equity m) threshold)
             (firstn (Z.to_nat (maxNumberOfMoves - i)) l).
Proof.
  induction l as [| it rest IH]; intros i; simpl.
  - rewrite firstn_nil. reflexivity.
  - destruct (i <? maxNumberOfMoves) eqn:Hi.
    + apply Z.ltb_lt in Hi.
      replace (Z.to_nat (maxNumberOfMoves - i))
        with (S (Z.to_nat (maxNumberOfMoves - (i + 1)))) by lia.
      simpl. rewrite !IH. destruct (Rge_bool _ _); reflexivity.
    + apply Z.ltb_ge in Hi.
      replace (Z.to_nat (maxNumberOfMoves - i)) with O by lia.
      reflexivity.
Qed.

Hypothesis Move_eqb_valuation :
  forall e w m m', Move_eqb E (Move_setEquityWin e w m) m' = Move_eqb E m m'.
Hypothesis Move_eqb_refl : forall m, Move_eqb E m m = true.

Lemma valuedMove_eqb (s : Simulator E) (sm : SimmedMove) (m' : Move) :
  Move_eqb E (valuedMove s sm) m' = Move_eqb E (move sm) m'.
Proof.
  unfold valuedMove. destruct (hasSimulationResults E s);
    [apply Move_eqb_valuation | reflexivity].
Qed.

(** With distinct simmed moves, the simmed move at place [i] is the
    first match of a move that [moves] returned exactly when that move
    is its own. *)
Lemma firstMatch_valued (s : Simulator E) (kept : MoveList) (i : nat) sm :
  distinctMoves E (m_simmedMoves E s) ->
  (forall it, In it kept ->
     In it (map (valuedMove s)
              (filter m_includeInSimulation (m_simmedMoves E s)))) ->
  nth_error (m_simmedMoves E s) i = Some sm ->
  (exists it, In it kept /\ firstMatch E it (m_simmedMoves E s) = Some i) <->
  m_includeInSimulation sm = true /\ In (valuedMove s sm) kept.
Proof.
  intros Hdist Hsub Hn. split.
  - intros (it & Hit & Hfm).
    destruct (firstMatch_sound E it _ _ Hfm) as (sm0 & Hn0 & Heq & _).
    rewrite Hn in Hn0. injection Hn0 as <-.
    apply Hsub in Hit as Hin. apply in_map_iff in Hin.
    destruct Hin as (smk & Hval & Hink). apply filter_In in Hink.
    destruct Hink as [Hink Hinc].
    apply In_nth_error in Hink. destruct Hink as [k Hk].
    rewrite <- Hval, valuedMove_eqb in Heq.
    pose proof (Hdist k i smk sm Hk Hn Heq) as ->.
    rewrite Hn in Hk. injection Hk as ->.
    split; [exact Hinc|]. rewrite Hval. exact Hit.
  - intros [Hinc Hin]. exists (valuedMove s sm). split; [exact Hin|].
    assert (Heq : Move_eqb E (valuedMove s sm) (move sm) = true)
      by (rewrite valuedMove_eqb; apply Move_eqb_refl).
    destruct (firstMatch_complete E _ _ _ _ Hn Heq) as (k & Hfm & _).
    destruct (firstMatch_sound E _ _ _ Hfm) as (smk & Hk & Heqk & _).
    rewrite valuedMove_eqb in Heqk.
    pose proof (Hdist i k sm smk Hn Hk Heqk) as ->. exact Hfm.
Qed.

(** C6.  pruneTo(equityThreshold, maxN), given at least one included
    move (and simmed moves that are pairwise distinct, for an equality
    of moves that is reflexive and looks at the play, not at equity and
    win): the list of the included moves in descending equity order
    starts with a best move, and afterwards a simmed move is included
    exactly when it was included and its move is among the first maxN of
    that list with equity at least best equity - equityThreshold.  No
    simmed move is added or loses its accumulators. *)
Theorem pruneTo_spec (equityThreshold : R) (maxNumberOfMoves : Z)
    (s : Simulator E) :
  distinctMoves E (m_simmedMoves E s) ->
  (exists sm, In sm (m_simmedMoves E s) /\ m_includeInSimulation sm = true) ->
  exists best rest s',
    moves E true false s = best :: rest /\
    Permutation (best :: rest)
      (map (valuedMove s) (filter m_includeInSimulation (m_simmedMoves E s))) /\
    descendingBy equity (best :: rest) /\
    pruneTo E equityThreshold maxNumberOfMoves s = Some s' /\
    let kept :=
      filter (fun m => Rge_bool (equity m) (equity best - equityThreshold))
             (firstn (Z.to_nat maxNumberOfMoves) (best :: rest)) in
    List.length (m_simmedMoves E s') = List.length (m_simmedMoves E s) /\
    forall i sm, nth_error (m_simmedMoves E s) i = Some sm ->
      exists sm', nth_error (m_simmedMoves E s') i = Some sm' /\
        sameAccumulators sm sm' /\
        (m_includeInSimulation sm' = true <->
         m_includeInSimulation sm = true /\ In (valuedMove s sm) kept).
Proof.
  intros Hdist (sm0 & Hin0 & Hinc0).
  set (included := map (valuedMove s)
                     (filter m_includeInSimulation (m_simmedMoves E s))).
  assert (Hmoves : moves E true false s = MoveList_sort Equity included).
  { unfold moves. cbv zeta. rewrite moves_collect_included. reflexivity. }
  assert (Hperm : Permutation (moves E true false s) included)
    by (rewrite Hmoves; apply MoveList_sort_perm).
  assert (Hdesc : descendingBy equity (moves E true false s))
    by (rewrite Hmoves; apply (MoveList_sort_descending Equity)).
  destruct (moves E true false s) as [| best rest] eqn:Hsorted.
  { exfalso. apply Permutation_nil in Hperm.
    assert (Hin : In (valuedMove s sm0) included).
    { apply in_map. apply filter_In. split; assumption. }
    rewrite Hperm in Hin. exact Hin. }
  set (kept := filter (fun m => Rge_bool (equity m)
                                  (equity best - equityThreshold))
                 (firstn (Z.to_nat maxNumberOfMoves) (best :: rest))).
  exists best, rest, (setIncludedMoves E kept s).
  split; [reflexivity|]. split; [exact Hperm|]. split; [exact Hdesc|].
  split.
  { unfold pruneTo. rewrite Hsorted. cbv zeta.
    rewrite pruneTo_loop_filter, Z.sub_0_r. reflexivity. }
  assert (Hsub : forall it, In it kept -> In it included).
  { intros it Hit. unfold kept in Hit. apply filter_In in Hit.
    destruct Hit as [Hit _].
    eapply Permutation_in; [exact Hperm|].
    rewrite <- (firstn_skipn (Z.to_nat maxNumberOfMoves) (best :: rest)).
    apply in_or_app. left. exact Hit. }
  destruct (setIncludedMoves_effect E kept s) as [HA HB]. cbv zeta.
  split.
  - apply Nat.le_antisymm.
    + destruct (nth_error (m_simmedMoves E (setIncludedMoves E kept s))
                  (List.length (m_simmedMoves E s))) as [sm'|] eqn:Hlast.
      * destruct (HB _ sm' (Nat.le_refl _) Hlast) as (it & id & Hit & _ & Hnone).
        exfalso. apply Hsub in Hit. apply in_map_iff in Hit.
        destruct Hit as (smk & Hval & Hink). apply filter_In in Hink.
        destruct Hink as [Hink _]. apply In_nth_error in Hink.
        destruct Hink as [k Hk].
        assert (Heq : Move_eqb E it (move smk) = true)
          by (rewrite <- Hval, valuedMove_eqb; apply Move_eqb_refl).
        destruct (firstMatch_complete E _ _ _ _ Hk Heq) as (j & Hj & _).
        congruence.
      * apply nth_error_None in Hlast. exact Hlast.
    + destruct (m_simmedMoves E s) as [| x l] eqn:Hold; [simpl; lia|].
      assert (Hn : nth_error (x :: l) (List.length l) <> None)
        by (apply nth_error_Some; simpl; lia).
      destruct (nth_error (x :: l) (List.length l)) as [sml|] eqn:Hsml;
        [|contradiction].
      destruct (HA _ _ Hsml) as (sm' & Hn' & _).
      assert (Hlt : (List.length l <
                     List.length (m_simmedMoves E (setIncludedMoves E kept s)))%nat)
        by (apply nth_error_Some; congruence).
      simpl. lia.
  - intros i sm Hn. destruct (HA i sm Hn) as (sm' & Hn' & Hsame & Hiff).
    exists sm'. split; [exact Hn'|]. split; [exact Hsame|].
    rewrite Hiff. apply firstMatch_valued; assumption.
Qed.

End PruneFacts.

Lemma toy_four_simmed :
  m_simmedMoves toyEngine toy_four
  = [SimmedMove_new (toy_move "A" 30 40%R) 1;
     SimmedMove_new (toy_move "B" 28 35%R) 2;
     SimmedMove_new (toy_move "C" 26 33%R) 3;
     SimmedMove_new (toy_move "D" 12 20%R) 4].
Proof. reflexivity. Qed.

Lemma toy_Move_eqb_valuation (e w : R) (m m' : Move) :
  Move_eqb toyEngine (Move_setEquityWin e w m) m' = Move_eqb toyEngine m m'.
Proof. reflexivity. Qed.

Lemma toy_Move_eqb_refl (m : Move) : Move_eqb toyEngine m m = true.
Proof. apply String.eqb_refl. Qed.

Lemma toy_four_distinct : distinctMoves toyEngine (m_simmedMoves toyEngine toy_four).
Proof.
  rewrite toy_four_simmed. intros i j smi smj.
  destruct i as [| [| [| [| i]]]]; destruct j as [| [| [| [| j]]]];
    simpl; intros Hi Hj Heq; try reflexivity;
    try (destruct i; discriminate); try (destruct j; discriminate);
    inversion Hi; inversion Hj; subst; simpl in Heq; discriminate.
Defined.

Lemma pruneTo_spec_witness :
  exists s',
    pruneTo toyEngine 10%R 3 toy_four = Some s' /\
    List.length (m_simmedMoves toyEngine s') = 4%nat.
Proof.
  destruct (pruneTo_spec toyEngine toy_Move_eqb_valuation toy_Move_eqb_refl
              10%R 3 toy_four toy_four_distinct)
    as (best & rest & s' & _ & _ & _ & Hprune & Hlen & _).
  - exists (SimmedMove_new (toy_move "A" 30 40%R) 1).
    split; [left; reflexivity | reflexivity].
  - exists s'. split; [exact Hprune|]. rewrite Hlen. reflexivity.
Defined.

(** Scenario 5 of the spec: four included moves with equities 40, 35,
    33 and 20; pruneTo(10, 3) leaves the first three included. *)
Lemma pruneTo_four_moves :
  option_map
    (fun s' => map (fun sm => (tiles (move sm), equity (move sm),
                               m_includeInSimulation sm))
                   (m_simmedMoves toyEngine s'))
    (pruneTo toyEngine 10%R 3 toy_four)
  = Some [("A"%string, 40%R, true); ("B"%string, 35%R, true);
          ("C"%string, 33%R, true); ("D"%string, 20%R, false)].
Proof.
  unfold pruneTo, moves, setIncludedMoves. rewrite toy_four_simmed.
  cbn -[Rge_bool Rminus].
  repeat (match goal with
          | |- context [Rge_bool ?x ?y] =>
              first [ rewrite (proj2 (Rge_bool_true x y)) by lra
                    | rewrite (proj2 (Rge_bool_false x y)) by lra ]
          end; cbn -[Rge_bool Rminus]).
  reflexivity.
Qed.


(** * Further properties *)

(** ** Accumulators and the grid *)

Section ValueFacts.

Local Open Scope R_scope.

Lemma incorporate_fold (xs : list R) :
  forall a : AveragedValue,
    let a' := fold_left (fun a x => incorporateValue x a) xs a in
    m_incorporatedValues a'
    = (m_incorporatedValues a + Z.of_nat (List.length xs))%Z /\
    m_valueSum a' = m_valueSum a + Rsum xs /\
    m_squaredValueSum a'
    = m_squaredValueSum a + Rsum (map (fun x => x * x) xs).
Proof.
  induction xs as [| x xs IH]; intros a; simpl.
  - repeat split; try lra. lia.
  - destruct (IH (incorporateValue x a)) as (Hn & Hs & Hq).
    cbv zeta in *. rewrite Hn, Hs, Hq. simpl. repeat split; try lra. lia.
Qed.

Lemma Rsum_bounds (lo hi : R) (xs : list R) :
  Forall (fun x => lo <= x <= hi) xs ->
  INR (List.length xs) * lo <= Rsum xs <= INR (List.length xs) * hi.
Proof.
  induction 1 as [| x xs Hx Hxs IH].
  - simpl. lra.
  - change (Rsum (x :: xs)) with (x + Rsum xs).
    rewrite length_cons, S_INR. lra.
Qed.

(** The accumulator of a list of values holds their number, their sum
    and the sum of their squares; the average of a list that is not
    empty is the sum over the number, and lies within any bounds that
    hold for every value. *)
Lemma incorporateAll_average (xs : list R) (lo hi : R) :
  xs <> [] ->
  Forall (fun x => lo <= x <= hi) xs ->
  m_incorporatedValues (incorporateAll xs) = Z.of_nat (List.length xs) /\
  m_valueSum (incorporateAll xs) = Rsum xs /\
  m_squaredValueSum (incorporateAll xs) = Rsum (map (fun x => x * x) xs) /\
  averagedValue (incorporateAll xs) = Rsum xs / INR (List.length xs) /\
  lo <= averagedValue (incorporateAll xs) <= hi.
Proof.
  intros Hne Hb. unfold incorporateAll.
  destruct (incorporate_fold xs AveragedValue_new) as (Hn & Hs & Hq).
  cbv zeta in *. simpl in Hn, Hs, Hq.
  rewrite Rplus_0_l in Hs, Hq.
  assert (Hlen : (0 < List.length xs)%nat)
    by (destruct xs; [contradiction | simpl; lia]).
  assert (Hpos : 0 < INR (List.length xs)) by (apply lt_0_INR; exact Hlen).
  assert (Havg : averagedValue
                   (fold_left (fun a x => incorporateValue x a) xs
                      AveragedValue_new)
                 = Rsum xs / INR (List.length xs)).
  { unfold averagedValue. rewrite Hn, Hs.
    destruct (Z.of_nat (List.length xs) =? 0)%Z eqn:Hz.
    - apply Z.eqb_eq in Hz. lia.
    - rewrite <- INR_IZR_INZ. reflexivity. }
  repeat split; try assumption.
  - rewrite Havg. pose proof (Rsum_bounds lo hi xs Hb) as [Hl _].
    apply Rmult_le_reg_r with (r := INR (List.length xs)); [exact Hpos|].
    unfold Rdiv. rewrite Rmult_assoc, Rinv_l by lra. lra.
  - rewrite Havg. pose proof (Rsum_bounds lo hi xs Hb) as [_ Hh].
    apply Rmult_le_reg_r with (r := INR (List.length xs)); [exact Hpos|].
    unfold Rdiv. rewrite Rmult_assoc, Rinv_l by lra. lra.
Qed.

(** calculateWinPercentage returns the static win of the move while no
    win was incorporated; once wins in [0, 1] were incorporated it
    returns a percentage in [0, 100]. *)
Theorem calculateWinPercentage_range (sm : SimmedMove) (xs : list R) :
  wins sm = incorporateAll xs ->
  Forall (fun x => 0 <= x <= 1) xs ->
  (xs = [] -> calculateWinPercentage sm = win (move sm)) /\
  (xs <> [] -> 0 <= calculateWinPercentage sm <= 100).
Proof.
  intros Hw Hb. unfold calculateWinPercentage, hasValues. rewrite Hw. split.
  - intros ->. reflexivity.
  - intros Hne.
    destruct (incorporateAll_average xs 0 1 Hne Hb) as (Hn & _ & _ & _ & Havg).
    rewrite Hn.
    assert (Hlen : (0 < List.length xs)%nat)
      by (destruct xs; [contradiction | simpl; lia]).
    assert (Hpos : (0 <? Z.of_nat (List.length xs))%Z = true)
      by (apply Z.ltb_lt; lia).
    rewrite Hpos. lra.
Qed.

Lemma calculateWinPercentage_range_witness :
  0 <= calculateWinPercentage
         (mkSimmedMove (toy_move "A" 20 25) [] AveragedValue_new
            AveragedValue_new (incorporateAll [1; 1 / 2]) 1 true) <= 100.
Proof.
  apply (calculateWinPercentage_range _ [1; 1 / 2]).
  - reflexivity.
  - repeat constructor; lra.
  - discriminate.
Defined.

End ValueFacts.

Section GridFacts.

(** [setNumberLevels] and [setNumberScores] extend and never truncate:
    the old entries stay in front, the entries added are empty ones,
    the length becomes the greater of the old length and the number
    asked for, and asking again changes nothing. *)
Theorem setNumber_extends (number : Z) (lvls : LevelList) (l : Level) :
  (exists added,
     setNumberLevels number lvls = lvls ++ added /\
     Forall (fun x => x = Level_new) added /\
     List.length (setNumberLevels number lvls)
     = Nat.max (List.length lvls) (Z.to_nat number)) /\
  (exists added,
     statistics (setNumberScores number l) = statistics l ++ added /\
     Forall (fun x => x = PositionStatistics_new) added /\
     List.length (statistics (setNumberScores number l))
     = Nat.max (List.length (statistics l)) (Z.to_nat number)) /\
  setNumberLevels number (setNumberLevels number lvls)
  = setNumberLevels number lvls /\
  setNumberScores number (setNumberScores number l) = setNumberScores number l.
Proof.
  assert (Hrep : forall (A : Type) (x : A) (n : nat),
             Forall (fun y => y = x) (repeat x n)).
  { intros A x n. induction n; simpl; constructor; auto. }
  split; [| split; [| split]].
  - exists (repeat Level_new (Z.to_nat number - List.length lvls)).
    split; [reflexivity|]. split; [apply Hrep|].
    unfold setNumberLevels. rewrite length_app, repeat_length. lia.
  - exists (repeat PositionStatistics_new
              (Z.to_nat number - List.length (statistics l))).
    split; [reflexivity|]. split; [apply Hrep|].
    unfold setNumberScores. simpl. rewrite length_app, repeat_length. lia.
  - unfold setNumberLevels at 1.
    replace (Z.to_nat number - List.length (setNumberLevels number lvls))%nat
      with O.
    + simpl. apply app_nil_r.
    + unfold setNumberLevels. rewrite length_app, repeat_length. lia.
  - unfold setNumberScores at 1.
    replace (Z.to_nat number
             - List.length (statistics (setNumberScores number l)))%nat with O.
    + simpl. rewrite app_nil_r. reflexivity.
    + unfold setNumberScores. simpl. rewrite length_app, repeat_length. lia.
Qed.

End GridFacts.

(** ** The log file *)

Section LogFacts.

Variable E : Engine.

(** closeLogfile leaves the simulator not logging; it writes the closing
    tag of the simulation exactly when a header was pending on an open
    log, and nothing else; closing twice is closing once. *)
Theorem closeLogfile_closes (s : Simulator E) :
  isLogging E (closeLogfile E s) = false /\
  m_logfileStream E (closeLogfile E s)
  = m_logfileStream E s
    ++ (if isLogging E s && m_hasHeader E s then [LogSimulationClose] else []) /\
  (headerOnlyWhenOpen s -> m_hasHeader E (closeLogfile E s) = false) /\
  closeLogfile E (closeLogfile E s) = closeLogfile E s.
Proof.
  unfold headerOnlyWhenOpen. destruct s as [f o h i st ce d it ig og sg r c sm n].
  unfold closeLogfile, writeLogFooter, isLogging, write. simpl.
  destruct o, h; simpl; rewrite ?app_nil_r; repeat split; auto;
    intros H; try reflexivity; discriminate H; reflexivity.
Qed.

(** setLogfile to another name, or on a simulator that is not logging:
    the old log is closed (with its closing tag when a header was
    pending); afterwards the simulator is logging exactly when the name
    is not empty and the file opens, and a file that does not open is
    reported by one line on the diagnostic stream. *)
Theorem setLogfile_switch (path : string) (append : bool) (s : Simulator E) :
  String.eqb (m_logfile E s) path && isLogging E s = false ->
  m_logfile E (setLogfile E path append s) = path /\
  isLogging E (setLogfile E path append s)
  = negb (String.eqb path EmptyString) && logfileOpens E path append /\
  m_logfileStream E (setLogfile E path append s)
  = m_logfileStream E s
    ++ (if isLogging E s && m_hasHeader E s then [LogSimulationClose] else []) /\
  cerr E (setLogfile E path append s)
  = cerr E s
    ++ (if negb (String.eqb path EmptyString) && negb (logfileOpens E path append)
        then [String.append "Could not open "
                (String.append path " to write simulation log")]
        else []) /\
  (path <> EmptyString -> m_hasHeader E (setLogfile E path append s) = false).
Proof.
  destruct s as [f o h i st ce d it ig og sg r c sm n].
  unfold setLogfile, closeLogfile, writeLogFooter, isLogging, write. simpl.
  intros Hguard. rewrite Hguard.
  destruct (String.eqb path EmptyString) eqn:Hempty.
  - apply String.eqb_eq in Hempty. subst path.
    destruct o, h; simpl; rewrite ?app_nil_r; repeat split; auto;
      intros H; contradiction H; reflexivity.
  - destruct o, h, (logfileOpens E path append); simpl;
      rewrite ?app_nil_r; repeat split; auto.
Qed.

End LogFacts.

Lemma setLogfile_switch_witness :
  isLogging toyEngine (setLogfile toyEngine "other.log" true toy_logging)
  = negb (String.eqb "other.log" EmptyString)
    && logfileOpens toyEngine "other.log" true.
Proof.
  apply (setLogfile_switch toyEngine "other.log"%string true toy_logging).
  reflexivity.
Defined.

(** ** The candidate set *)

Section CandidateFacts.

Variable E : Engine.

Lemma push_all_simmed (mvs : MoveList) :
  forall s : Simulator E,
    let s' := fold_left (fun s it => push_SimmedMove E it s) mvs s in
    m_simmedMoves E s'
    = m_simmedMoves E s ++ freshSimmedMoves (objectIdCounter E s) mvs /\
    objectIdCounter E s' = objectIdCounter E s + Z.of_nat (List.length mvs) /\
    m_consideredMoves E s' = m_consideredMoves E s /\
    m_iterations E s' = m_iterations E s /\
    m_originalGame E s' = m_originalGame E s.
Proof.
  induction mvs as [| m rest IH]; intros s; cbn [fold_left].
  - cbv zeta. simpl. rewrite app_nil_r. repeat split. lia.
  - destruct (IH (push_SimmedMove E m s)) as (H1 & H2 & H3 & H4 & H5).
    cbv zeta in *. rewrite H1, H2, H3, H4, H5. simpl.
    rewrite <- app_assoc. repeat split. lia.
Qed.

Lemma freshSimmedMoves_ids (mvs : MoveList) :
  forall c,
    Forall (fun sm => c < m_id sm <= c + Z.of_nat (List.length mvs))
           (freshSimmedMoves c mvs) /\
    NoDup (map m_id (freshSimmedMoves c mvs)).
Proof.
  induction mvs as [| m rest IH]; intros c; simpl.
  - split; constructor.
  - destruct (IH (c + 1)) as [Hb Hn]. split.
    + constructor; [simpl; lia|].
      eapply Forall_impl; [|exact Hb]. simpl. intros sm H. lia.
    + constructor; [|exact Hn].
      intros Hin. apply in_map_iff in Hin. destruct Hin as (sm & Hid & Hsm).
      rewrite Forall_forall in Hb. specialize (Hb sm Hsm). lia.
Qed.

Lemma freshSimmedMoves_clear (mvs : MoveList) :
  forall c,
    map SimmedMove_clear (freshSimmedMoves c mvs) = freshSimmedMoves c mvs.
Proof.
  induction mvs as [| m rest IH]; intros c; simpl; [reflexivity|].
  rewrite IH. reflexivity.
Qed.

(** setPosition replaces the original position and rebuilds the
    candidate set from its moves: one fresh, included simmed move per
    move, in order, with the next ids of the counter, hence pairwise
    distinct; the considered moves are forgotten and the iteration
    counter is 0. *)
Theorem setPosition_rebuilds (position : GamePosition E) (s : Simulator E) :
  let game := setCurrentPosition E position (m_originalGame E s) in
  let s' := setPosition E position s in
  m_originalGame E s' = game /\
  m_simmedMoves E s'
  = freshSimmedMoves (objectIdCounter E s) (positionMoves E game) /\
  objectIdCounter E s'
  = objectIdCounter E s + Z.of_nat (List.length (positionMoves E game)) /\
  m_consideredMoves E s' = [] /\
  m_iterations E s' = 0 /\
  uniqueIds s'.
Proof.
  cbv zeta. unfold setPosition.
  set (s1 := if hasSimulationResults E s then writeLogFooter E s else s).
  assert (Hg : m_originalGame E s1 = m_originalGame E s /\
               objectIdCounter E s1 = objectIdCounter E s).
  { unfold s1, writeLogFooter, isLogging, write.
    destruct (hasSimulationResults E s), (m_logfileIsOpen E s); split; reflexivity. }
  destruct Hg as [Hg Hc].
  match goal with
  | |- context [fold_left ?f ?l ?s0] =>
      destruct (push_all_simmed l s0) as (H1 & H2 & H3 & H4 & H5);
      set (s2 := fold_left f l s0) in *
  end.
  cbv zeta in *. simpl in H1, H2, H3, H4, H5. rewrite Hg, Hc in *.
  assert (Hsimmed : m_simmedMoves E (resetNumbers E s2)
                    = freshSimmedMoves (objectIdCounter E s)
                        (positionMoves E
                           (setCurrentPosition E position (m_originalGame E s)))).
  { unfold resetNumbers. simpl. rewrite H1.
    apply freshSimmedMoves_clear. }
  split; [exact H5|]. split; [exact Hsimmed|].
  split; [exact H2|]. split; [exact H3|]. split; [reflexivity|].
  unfold uniqueIds. rewrite Hsimmed.
  change (objectIdCounter E (resetNumbers E s2)) with (objectIdCounter E s2).
  rewrite H2.
  destruct (freshSimmedMoves_ids
              (positionMoves E (setCurrentPosition E position (m_originalGame E s)))
              (objectIdCounter E s)) as [Hb Hn].
  split; [exact Hn|].
  eapply Forall_impl; [|exact Hb]. simpl. intros sm H. lia.
Qed.

(** *** setIncludedMoves, once more *)

Hypothesis Move_eqb_refl : forall m, Move_eqb E m m = true.

Lemma include_move_includes (s : Simulator E) (it : Move) :
  exists i sm, nth_error (m_simmedMoves E (include_move E s it)) i = Some sm /\
               Move_eqb E it (move sm) = true /\
               m_includeInSimulation sm = true.
Proof.
  rewrite include_move_simmed.
  destruct (firstMatch E it (m_simmedMoves E s)) as [i|] eqn:Hfm.
  - destruct (firstMatch_sound E _ _ _ Hfm) as (sm & Hn & Heq & _).
    exists i, (setIncludeInSimulation true sm).
    rewrite mapAt_nth_error, Nat.eqb_refl, Hn. repeat split. exact Heq.
  - exists (List.length (m_simmedMoves E s)),
           (SimmedMove_new it (objectIdCounter E s + 1)).
    rewrite nth_error_app2, Nat.sub_diag by lia.
    repeat split. apply Move_eqb_refl.
Qed.

Lemma fold_include_inputs (mvs : MoveList) :
  forall (s : Simulator E) (it : Move),
    In it mvs ->
    exists i sm,
      nth_error (m_simmedMoves E (fold_left (include_move E) mvs s)) i = Some sm /\
      Move_eqb E it (move sm) = true /\ m_includeInSimulation sm = true.
Proof.
  induction mvs as [| x rest IH]; intros s it Hin; [contradiction|].
  cbn [fold_left]. destruct Hin as [-> | Hin]; [|apply IH; exact Hin].
  destruct (include_move_includes s it) as (i & sm & Hn & Heq & Hinc).
  destruct (fold_include_spec E rest (include_move E s it)) as [HA _].
  destruct (HA i sm Hn) as (sm' & Hn' & (Hmove & _) & Hiff).
  exists i, sm'. split; [exact Hn'|]. split; [rewrite Hmove; exact Heq|].
  apply Hiff. left. exact Hinc.
Qed.

Lemma setIncludedMoves_includes_inputs_helper (mvs : MoveList)
    (s : Simulator E) (it : Move) :
  In it mvs ->
  exists sm, In sm (m_simmedMoves E (setIncludedMoves E mvs s)) /\
             Move_eqb E it (move sm) = true /\
             m_includeInSimulation sm = true.
Proof.
  intros Hin. unfold setIncludedMoves.
  destruct (fold_include_inputs mvs
              (set_m_simmedMoves E
                 (map (setIncludeInSimulation false) (m_simmedMoves E s)) s)
              it Hin) as (i & sm & Hn & Heq & Hinc).
  exists sm. split; [eapply nth_error_In; exact Hn|]. split; assumption.
Qed.

(** setIncludedMoves leaves every input move included: for each of them
    some included simmed move is equal to it (for an equality of moves
    that is reflexive); with no input move, no simmed move is included. *)
Theorem setIncludedMoves_includes_inputs (mvs : MoveList) (s : Simulator E) :
  (forall it, In it mvs ->
     exists sm, In sm (m_simmedMoves E (setIncludedMoves E mvs s)) /\
                Move_eqb E it (move sm) = true /\
                m_includeInSimulation sm = true) /\
  (mvs = [] ->
     Forall (fun sm => m_includeInSimulation sm = false)
            (m_simmedMoves E (setIncludedMoves E mvs s))).
Proof.
  split.
  - intros it Hin. apply setIncludedMoves_includes_inputs_helper. exact Hin.
  - intros ->. unfold setIncludedMoves. simpl.
    apply Forall_map. apply Forall_forall. intros sm _. reflexivity.
Qed.

End CandidateFacts.

Lemma setIncludedMoves_includes_inputs_witness :
  exists sm,
    In sm (m_simmedMoves toyEngine
             (setIncludedMoves toyEngine [toy_move "E" 5 1%R] toy_four)) /\
    Move_eqb toyEngine (toy_move "E" 5 1%R) (move sm) = true /\
    m_includeInSimulation sm = true.
Proof.
  apply (setIncludedMoves_includes_inputs toyEngine toy_Move_eqb_refl
           [toy_move "E" 5 1%R] toy_four).
  left. reflexivity.
Defined.

(** ** Looking moves up, listing and pruning them *)

Section LookupFacts.

Variable E : Engine.

Lemma back_last (l : SimmedMoveList) :
  match back l with
  | Some sm => exists front, l = front ++ [sm]
  | None => l = []
  end.
Proof.
  induction l as [| x l IH]; simpl; [reflexivity|].
  destruct l as [| y l]; [exists []; reflexivity|].
  destruct (back (y :: l)) as [sm|]; [|discriminate IH].
  destruct IH as [front Hf]. exists (x :: front). rewrite Hf. reflexivity.
Qed.

Lemma find_first (f : SimmedMove -> bool) (l : SimmedMoveList) :
  match find f l with
  | Some sm =>
      exists i, nth_error l i = Some sm /\ f sm = true /\
        forall j smj, (j < i)%nat -> nth_error l j = Some smj -> f smj = false
  | None => Forall (fun sm => f sm = false) l
  end.
Proof.
  induction l as [| x l IH]; simpl; [constructor|].
  destruct (f x) eqn:Hx.
  - exists O. repeat split; auto. intros j smj Hj. lia.
  - destruct (find f l) as [sm|].
    + destruct IH as (i & Hn & Hf & Hbefore). exists (S i).
      repeat split; auto. intros [| j] smj Hj; simpl.
      * intros [= <-]. exact Hx.
      * apply Hbefore. lia.
    + constructor; assumption.
Qed.

(** simmedMoveForMove returns the first simmed move whose move equals
    the one asked for; when there is none it returns the last simmed
    move, whatever its move, and nothing at all on an empty set. *)
Theorem simmedMoveForMove_lookup (m : Move) (s : Simulator E) :
  match simmedMoveForMove E m s with
  | Some sm =>
      (exists i, nth_error (m_simmedMoves E s) i = Some sm /\
         Move_eqb E (move sm) m = true /\
         forall j smj, (j < i)%nat -> nth_error (m_simmedMoves E s) j = Some smj ->
                       Move_eqb E (move smj) m = false) \/
      (Forall (fun sm' => Move_eqb E (move sm') m = false) (m_simmedMoves E s) /\
       exists front, m_simmedMoves E s = front ++ [sm])
  | None => m_simmedMoves E s = []
  end.
Proof.
  unfold simmedMoveForMove.
  pose proof (find_first (fun it => Move_eqb E (move it) m) (m_simmedMoves E s))
    as Hfind.
  destruct (find _ (m_simmedMoves E s)) as [sm|].
  - left. exact Hfind.
  - pose proof (back_last (m_simmedMoves E s)) as Hback.
    destruct (back (m_simmedMoves E s)) as [sm|]; [|exact Hback].
    right. split; assumption.
Qed.

Lemma moves_collect_all (s : Simulator E) (l : SimmedMoveList) :
  moves_collect false (hasSimulationResults E s) l = map (valuedMove s) l.
Proof.
  unfold moves_collect.
  induction l as [| sm rest IH]; [reflexivity|].
  cbn [flat_map map]. rewrite IH. unfold valuedMove. simpl.
  destruct (hasSimulationResults E s); reflexivity.
Qed.

Lemma moves_perm (prune byWin : bool) (s : Simulator E) :
  Permutation (moves E prune byWin s)
    (map (valuedMove s)
       (if prune then filter m_includeInSimulation (m_simmedMoves E s)
        else m_simmedMoves E s)).
Proof.
  unfold moves. cbv zeta.
  replace (moves_collect prune (hasSimulationResults E s) (m_simmedMoves E s))
    with (map (valuedMove s)
            (if prune then filter m_includeInSimulation (m_simmedMoves E s)
             else m_simmedMoves E s))
    by (destruct prune;
        [rewrite moves_collect_included | rewrite moves_collect_all];
        reflexivity).
  destruct (byWin && hasSimulationResults E s); apply MoveList_sort_perm.
Qed.

Lemma moves_descending (prune byWin : bool) (s : Simulator E) :
  descendingBy (if byWin && hasSimulationResults E s then win else equity)
               (moves E prune byWin s).
Proof.
  unfold moves. cbv zeta.
  destruct (byWin && hasSimulationResults E s).
  - apply (MoveList_sort_descending Win).
  - apply (MoveList_sort_descending Equity).
Qed.

(** moves(prune, byWin) returns the moves of the simmed moves (of the
    included ones when prune is set), each with its calculated equity
    and averaged win once an iteration has run and as it is before, in
    descending order of win when byWin is set and an iteration has run,
    of equity otherwise. *)
Theorem moves_sorted (prune byWin : bool) (s : Simulator E) :
  Permutation (moves E prune byWin s)
    (map (valuedMove s)
       (if prune then filter m_includeInSimulation (m_simmedMoves E s)
        else m_simmedMoves E s)) /\
  descendingBy (if byWin && hasSimulationResults E s then win else equity)
               (moves E prune byWin s) /\
  (hasSimulationResults E s = false ->
   forall sm, valuedMove s sm = move sm) /\
  (hasSimulationResults E s = true ->
   forall sm, equity (valuedMove s sm) = calculateEquity sm /\
              win (valuedMove s sm) = averagedValue (wins sm) /\
              score (valuedMove s sm) = score (move sm) /\
              tiles (valuedMove s sm) = tiles (move sm)).
Proof.
  split; [apply moves_perm|]. split; [apply moves_descending|]. split.
  - intros Hno sm. unfold valuedMove. rewrite Hno. reflexivity.
  - intros Hyes sm. unfold valuedMove. rewrite Hyes. repeat split.
Qed.

(** pruneTo with maxN <= 0 leaves no simmed move included, and adds
    none; it has no result only when no move is included. *)
Theorem pruneTo_nothing (equityThreshold : R) (maxNumberOfMoves : Z)
    (s : Simulator E) :
  maxNumberOfMoves <= 0 ->
  match pruneTo E equityThreshold maxNumberOfMoves s with
  | Some s' =>
      List.length (m_simmedMoves E s') = List.length (m_simmedMoves E s) /\
      Forall (fun sm => m_includeInSimulation sm = false) (m_simmedMoves E s')
  | None =>
      Forall (fun sm => m_includeInSimulation sm = false) (m_simmedMoves E s)
  end.
Proof.
  intros Hmax. unfold pruneTo.
  pose proof (moves_perm true false s) as Hperm. simpl in Hperm.
  destruct (moves E true false s) as [| best rest].
  - apply Permutation_nil in Hperm. apply map_eq_nil in Hperm.
    apply Forall_forall. intros sm Hsm.
    destruct (m_includeInSimulation sm) eqn:Hinc; [|reflexivity].
    assert (Hin : In sm (filter m_includeInSimulation (m_simmedMoves E s)))
      by (apply filter_In; split; assumption).
    rewrite Hperm in Hin. contradiction.
  - cbv zeta. rewrite pruneTo_loop_filter.
    replace (Z.to_nat (maxNumberOfMoves - 0)) with O by lia.
    simpl. unfold setIncludedMoves. simpl.
    rewrite length_map. split; [reflexivity|].
    apply Forall_map. apply Forall_forall. intros sm _. reflexivity.
Qed.

Hypothesis Move_eqb_valuation :
  forall e w m m', Move_eqb E (Move_setEquityWin e w m) m' = Move_eqb E m m'.
Hypothesis Move_eqb_refl : forall m, Move_eqb E m m = true.

Lemma firstMatch_own (s : Simulator E) (i : nat) (sm : SimmedMove) :
  distinctMoves E (m_simmedMoves E s) ->
  nth_error (m_simmedMoves E s) i = Some sm ->
  firstMatch E (valuedMove s sm) (m_simmedMoves E s) = Some i.
Proof.
  intros Hdist Hn.
  assert (Heq : Move_eqb E (valuedMove s sm) (move sm) = true)
    by (rewrite (valuedMove_eqb E Move_eqb_valuation); apply Move_eqb_refl).
  destruct (firstMatch_complete E _ _ _ _ Hn Heq) as (k & Hfm & _).
  destruct (firstMatch_sound E _ _ _ Hfm) as (smk & Hk & Heqk & _).
  rewrite (valuedMove_eqb E Move_eqb_valuation) in Heqk.
  pose proof (Hdist i k sm smk Hn Hk Heqk) as ->. exact Hfm.
Qed.

(** pruneTo never drops the best move: with maxN >= 1 and a threshold
    that is not negative, a simmed move that was included and whose
    equity is the greatest among the included ones is included
    afterwards (simmed moves pairwise distinct, move equality reflexive
    and blind to equity and win). *)
Theorem pruneTo_keeps_best (equityThreshold : R) (maxNumberOfMoves : Z)
    (s : Simulator E) :
  distinctMoves E (m_simmedMoves E s) ->
  (exists sm, In sm (m_simmedMoves E s) /\ m_includeInSimulation sm = true) ->
  1 <= maxNumberOfMoves ->
  (0 <= equityThreshold)%R ->
  exists s' i sm sm',
    pruneTo E equityThreshold maxNumberOfMoves s = Some s' /\
    nth_error (m_simmedMoves E s) i = Some sm /\
    m_includeInSimulation sm = true /\
    (forall other, In other (m_simmedMoves E s) ->
       m_includeInSimulation other = true ->
       (equity (valuedMove s other) <= equity (valuedMove s sm))%R) /\
    nth_error (m_simmedMoves E s') i = Some sm' /\
    sameAccumulators sm sm' /\
    m_includeInSimulation sm' = true.
Proof.
  intros Hdist (sm0 & Hin0 & Hinc0) Hmax Hthr.
  pose proof (moves_perm true false s) as Hperm.
  pose proof (moves_descending true false s) as Hdesc.
  simpl in Hperm, Hdesc.
  unfold pruneTo.
  destruct (moves E true false s) as [| best rest] eqn:Hsorted.
  { exfalso. apply Permutation_nil in Hperm.
    assert (Hin : In (valuedMove s sm0)
                     (map (valuedMove s)
                        (filter m_includeInSimulation (m_simmedMoves E s)))).
    { apply in_map. apply filter_In. split; assumption. }
    rewrite Hperm in Hin. exact Hin. }
  cbv zeta. rewrite pruneTo_loop_filter, Z.sub_0_r.
  set (kept := filter _ _).
  assert (Hbest : In best kept).
  { unfold kept. apply filter_In. split.
    - replace (Z.to_nat maxNumberOfMoves)
        with (S (Z.to_nat (maxNumberOfMoves - 1))) by lia.
      left. reflexivity.
    - apply Rge_bool_true. lra. }
  assert (Hsrc : In best (map (valuedMove s)
                            (filter m_includeInSimulation (m_simmedMoves E s)))).
  { eapply Permutation_in; [exact Hperm | left; reflexivity]. }
  apply in_map_iff in Hsrc. destruct Hsrc as (sm & Hval & Hsm).
  apply filter_In in Hsm. destruct Hsm as [Hsm Hinc].
  apply In_nth_error in Hsm. destruct Hsm as [i Hi].
  destruct (setIncludedMoves_effect E kept s) as [HA _].
  destruct (HA i sm Hi) as (sm' & Hn' & Hsame & Hiff).
  exists (setIncludedMoves E kept s), i, sm, sm'.
  split; [reflexivity|]. split; [exact Hi|]. split; [exact Hinc|].
  split; [| split; [exact Hn' | split; [exact Hsame|]]].
  - intros other Hother Hoinc. rewrite Hval.
    assert (Hin : In (valuedMove s other) (best :: rest)).
    { eapply Permutation_in; [symmetry; exact Hperm|].
      apply in_map. apply filter_In. split; assumption. }
    destruct Hin as [<- | Hin]; [lra|].
    destruct Hdesc as [Hall _]. rewrite Forall_forall in Hall.
    apply Hall. exact Hin.
  - apply Hiff. exists best. split; [exact Hbest|].
    rewrite <- Hval. apply firstMatch_own; assumption.
Qed.

(** *** makeSureConsideredMovesAreIncluded *)

Variable MoveList_contains : MoveList -> Move -> bool.

Hypothesis MoveList_contains_sound :
  forall l m, MoveList_contains l m = true ->
              exists x, In x l /\ Move_eqb E x m = true.
Hypothesis Move_eqb_sym :
  forall a b, Move_eqb E a b = true -> Move_eqb E b a = true.
Hypothesis Move_eqb_trans :
  forall a b c, Move_eqb E a b = true -> Move_eqb E b c = true ->
                Move_eqb E a c = true.

Lemma superset_grows (considered : MoveList) :
  forall sup : MoveList,
    let sup' :=
      fold_left (fun movesSuperset it =>
                   if negb (MoveList_contains movesSuperset it)
                   then movesSuperset ++ [it]
                   else movesSuperset) considered sup in
    (forall x, In x sup -> In x sup') /\
    (forall c, In c considered ->
       exists x, In x sup' /\ Move_eqb E x c = true).
Proof.
  induction considered as [| it rest IH]; intros sup; cbn [fold_left].
  - split; [auto | intros c []].
  - destruct (IH (if negb (MoveList_contains sup it) then sup ++ [it] else sup))
      as [Hgrow Hcover].
    cbv zeta in *. split.
    + intros x Hx. apply Hgrow.
      destruct (negb (MoveList_contains sup it)); [apply in_or_app; left|];
        exact Hx.
    + intros c [<- | Hc]; [|apply Hcover; exact Hc].
      destruct (MoveList_contains sup it) eqn:Hcont; simpl in *.
      * destruct (MoveList_contains_sound sup it Hcont) as (x & Hx & Heq).
        exists x. split; [apply Hgrow; exact Hx | exact Heq].
      * exists it. split; [|apply Move_eqb_refl].
        apply Hgrow. apply in_or_app. right. left. reflexivity.
Qed.

(** makeSureConsideredMovesAreIncluded leaves every considered move
    included (some included simmed move is equal to it) and keeps
    included every simmed move that was, with its accumulators (move
    equality an equivalence that is blind to equity and win, simmed
    moves pairwise distinct, [contains] finding only equal moves). *)
Theorem makeSureConsideredMovesAreIncluded_includes (s : Simulator E) :
  distinctMoves E (m_simmedMoves E s) ->
  let s' := makeSureConsideredMovesAreIncluded E MoveList_contains s in
  (forall c, In c (m_consideredMoves E s) ->
     exists sm, In sm (m_simmedMoves E s') /\
                Move_eqb E c (move sm) = true /\
                m_includeInSimulation sm = true) /\
  (forall i sm, nth_error (m_simmedMoves E s) i = Some sm ->
     m_includeInSimulation sm = true ->
     exists sm', nth_error (m_simmedMoves E s') i = Some sm' /\
                 sameAccumulators sm sm' /\
                 m_includeInSimulation sm' = true).
Proof.
  intros Hdist. cbv zeta. unfold makeSureConsideredMovesAreIncluded.
  destruct (superset_grows (m_consideredMoves E s) (moves E true true s))
    as [Hgrow Hcover].
  cbv zeta in *.
  set (sup := fold_left _ (m_consideredMoves E s) (moves E true true s)) in *.
  split.
  - intros c Hc. destruct (Hcover c Hc) as (x & Hx & Heq).
    destruct (setIncludedMoves_includes_inputs_helper E Move_eqb_refl sup s x Hx)
      as (sm & Hsm & Hmatch & Hinc).
    exists sm. split; [exact Hsm|]. split; [|exact Hinc].
    eapply Move_eqb_trans; [apply Move_eqb_sym; exact Heq | exact Hmatch].
  - intros i sm Hn Hinc.
    destruct (setIncludedMoves_effect E sup s) as [HA _].
    destruct (HA i sm Hn) as (sm' & Hn' & Hsame & Hiff).
    exists sm'. split; [exact Hn'|]. split; [exact Hsame|].
    apply Hiff. exists (valuedMove s sm). split.
    + apply Hgrow. pose proof (moves_perm true true s) as Hperm.
      eapply Permutation_in; [symmetry; exact Hperm|].
      apply in_map. apply filter_In. split; [|exact Hinc].
      eapply nth_error_In. exact Hn.
    + apply firstMatch_own; assumption.
Qed.

End LookupFacts.


Lemma pruneTo_nothing_witness :
  match pruneTo toyEngine 10%R 0 toy_four with
  | Some s' =>
      List.length (m_simmedMoves toyEngine s')
      = List.length (m_simmedMoves toyEngine toy_four) /\
      Forall (fun sm => m_includeInSimulation sm = false)
             (m_simmedMoves toyEngine s')
  | None =>
      Forall (fun sm => m_includeInSimulation sm = false)
             (m_simmedMoves toyEngine toy_four)
  end.
Proof.
  apply (pruneTo_nothing toyEngine 10%R 0 toy_four). lia.
Defined.

Lemma toy_four_included :
  exists sm, In sm (m_simmedMoves toyEngine toy_four) /\
             m_includeInSimulation sm = true.
Proof.
  rewrite toy_four_simmed. eexists. split; [left; reflexivity | reflexivity].
Qed.

Lemma pruneTo_keeps_best_witness :
  exists s' sm',
    pruneTo toyEngine 10%R 3 toy_four = Some s' /\
    In sm' (m_simmedMoves toyEngine s') /\
    m_includeInSimulation sm' = true.
Proof.
  destruct (pruneTo_keeps_best toyEngine toy_Move_eqb_valuation
              toy_Move_eqb_refl 10%R 3 toy_four toy_four_distinct
              toy_four_included)
    as (s' & i & sm & sm' & Hprune & _ & _ & _ & Hn' & _ & Hinc).
  - lia.
  - lra.
  - exists s', sm'. split; [exact Hprune|]. split; [|exact Hinc].
    eapply nth_error_In. exact Hn'.
Defined.

Lemma toy_contains_sound (l : MoveList) (m : Move) :
  toy_contains l m = true ->
  exists x, In x l /\ Move_eqb toyEngine x m = true.
Proof.
  unfold toy_contains. intros H. apply existsb_exists in H. exact H.
Qed.

Lemma toy_Move_eqb_sym (a b : Move) :
  Move_eqb toyEngine a b = true -> Move_eqb toyEngine b a = true.
Proof. simpl. rewrite String.eqb_sym. auto. Qed.

Lemma toy_Move_eqb_trans (a b c : Move) :
  Move_eqb toyEngine a b = true -> Move_eqb toyEngine b c = true ->
  Move_eqb toyEngine a c = true.
Proof.
  simpl. intros H1 H2. apply String.eqb_eq in H1, H2.
  apply String.eqb_eq. congruence.
Qed.

Lemma toy_considering_distinct :
  distinctMoves toyEngine (m_simmedMoves toyEngine toy_considering).
Proof.
  assert (H : m_simmedMoves toyEngine toy_considering
              = m_simmedMoves toyEngine toy_four) by (vm_compute; reflexivity).
  rewrite H. exact toy_four_distinct.
Qed.

Lemma toy_considering_moves :
  In (toy_move "E" 5 1%R) (m_consideredMoves toyEngine toy_considering).
Proof. left. reflexivity. Qed.

Lemma makeSureConsideredMovesAreIncluded_includes_witness :
  exists sm,
    In sm (m_simmedMoves toyEngine
             (makeSureConsideredMovesAreIncluded toyEngine toy_contains
                toy_considering)) /\
    Move_eqb toyEngine (toy_move "E" 5 1%R) (move sm) = true /\
    m_includeInSimulation sm = true.
Proof.
  destruct (makeSureConsideredMovesAreIncluded_includes toyEngine
              toy_Move_eqb_valuation toy_Move_eqb_refl toy_contains
              toy_contains_sound toy_Move_eqb_sym toy_Move_eqb_trans
              toy_considering toy_considering_distinct) as [Hcons _].
  exact (Hcons (toy_move "E" 5 1%R) toy_considering_moves).
Defined.
(** ** What a rollout does *)

Section RolloutEffects.

Variable E : Engine.
Variables startPlayerId numberOfPlayers decimalTurns levelsCount : Z.
Variables ignoreOppos logging : bool.
Variable candidateMove : Move.

Local Open Scope R_scope.

Lemma Rsum_app (xs ys : list R) : Rsum (xs ++ ys) = Rsum xs + Rsum ys.
Proof.
  induction xs as [| x xs IH]; simpl.
  - lra.
  - change (Rsum (xs ++ ys)) with (fold_right Rplus 0 (xs ++ ys)) in IH.
    change (Rsum xs) with (fold_right Rplus 0 xs) in IH.
    unfold Rsum in *. simpl. lra.
Qed.

Lemma rolloutEffect_refl (st : Rollout E) :
  rolloutEffect E startPlayerId logging st st.
Proof.
  exists [], []. rewrite !app_nil_r. simpl. repeat split; auto. lra.
Qed.

Lemma rolloutEffect_trans (st1 st2 st3 : Rollout E) :
  rolloutEffect E startPlayerId logging st1 st2 ->
  rolloutEffect E startPlayerId logging st2 st3 ->
  rolloutEffect E startPlayerId logging st1 st3.
Proof.
  intros (p1 & a1 & Hp1 & Ho1 & Hr1 & Hi1 & Hs1 & Hn1)
         (p2 & a2 & Hp2 & Ho2 & Hr2 & Hi2 & Hs2 & Hn2).
  exists (p1 ++ p2), (a1 ++ a2).
  split; [rewrite Hp2, Hp1, app_assoc; reflexivity|].
  split; [apply Forall_app; split; assumption|].
  split; [rewrite Hr2, Hr1, map_app, Rsum_app; lra|].
  split; [congruence|].
  split; [rewrite Hs2, Hs1, app_assoc; reflexivity|].
  intros Hl. rewrite (Hn1 Hl), (Hn2 Hl). reflexivity.
Qed.

Lemma r_write_residual b e (st : Rollout E) :
  r_residual E (r_write E b e st) = r_residual E st.
Proof. unfold r_write. destruct b; reflexivity. Qed.

Lemma r_write_indent b e (st : Rollout E) :
  r_xmlIndent E (r_write E b e st) = r_xmlIndent E st.
Proof. unfold r_write. destruct b; reflexivity. Qed.

Lemma r_write_stream b e (st : Rollout E) :
  r_stream E (r_write E b e st)
  = r_stream E st ++ (if b then [e (r_xmlIndent E st)] else []).
Proof.
  unfold r_write. destruct b; simpl; [reflexivity|].
  symmetry. apply app_nil_r.
Qed.

Lemma r_setIndent_residual b f (st : Rollout E) :
  r_residual E (r_setIndent E b f st) = r_residual E st.
Proof. unfold r_setIndent. destruct b; reflexivity. Qed.

Lemma r_setIndent_indent b f (st : Rollout E) :
  r_xmlIndent E (r_setIndent E b f st)
  = if b then f (r_xmlIndent E st) else r_xmlIndent E st.
Proof. unfold r_setIndent. destruct b; reflexivity. Qed.

Lemma r_setIndent_stream b f (st : Rollout E) :
  r_stream E (r_setIndent E b f st) = r_stream E st.
Proof. unfold r_setIndent. destruct b; reflexivity. Qed.

Lemma appendsTo_refl (s : list LogEntry) : appendsTo logging s s.
Proof. exists []. rewrite app_nil_r. auto. Qed.

Lemma appendsTo_trans (s1 s2 s3 : list LogEntry) :
  appendsTo logging s1 s2 -> appendsTo logging s2 s3 -> appendsTo logging s1 s3.
Proof.
  intros (a & -> & Ha) (b & -> & Hb). exists (a ++ b).
  split; [rewrite app_assoc; reflexivity|].
  intros Hl. rewrite (Ha Hl), (Hb Hl). reflexivity.
Qed.

Lemma appendsTo_write (b : bool) e (st : Rollout E) :
  (logging = false -> b = false) ->
  appendsTo logging (r_stream E st) (r_stream E (r_write E b e st)).
Proof.
  intros Hb. rewrite r_write_stream. eexists. split; [reflexivity|].
  intros Hl. rewrite (Hb Hl). reflexivity.
Qed.

Lemma recordResidual_effects (L pn : Z) (pos : Game E) (m : Move)
    (st : Rollout E) :
  let st' := recordResidual E startPlayerId numberOfPlayers decimalTurns
               levelsCount ignoreOppos logging L pn pos m st in
  let considered :=
    isFinalTurnForPlayerOfSimulation decimalTurns levelsCount L pn
    && negb (ignoreOppos && negb (currentPlayerId E pos =? startPlayerId)%Z) in
  let veryFinal :=
    isVeryFinalTurnOfSimulation numberOfPlayers decimalTurns levelsCount L pn in
  let addend :=
    (if considered then calculatePlayerConsideration E pos m else 0)
    + (if considered && veryFinal
       then calculateSharedConsideration E pos m else 0) in
  r_residual E st'
  = r_residual E st
    + (if (currentPlayerId E pos =? startPlayerId)%Z then addend else - addend) /\
  r_xmlIndent E st' = r_xmlIndent E st /\
  appendsTo logging (r_stream E st) (r_stream E st').
Proof.
  cbv zeta. unfold recordResidual.
  destruct (isFinalTurnForPlayerOfSimulation decimalTurns levelsCount L pn
            && negb (ignoreOppos
                     && negb (currentPlayerId E pos =? startPlayerId)%Z)).
  - destruct (isVeryFinalTurnOfSimulation numberOfPlayers decimalTurns
                levelsCount L pn); cbn [andb r_residual r_xmlIndent r_stream];
      rewrite ?r_write_residual, ?r_write_indent;
      (split; [destruct (currentPlayerId E pos =? startPlayerId)%Z; lra|]);
      (split; [reflexivity|]).
    + eapply appendsTo_trans; apply appendsTo_write.
      * auto.
      * intros ->. reflexivity.
    + apply appendsTo_write. auto.
  - cbn [andb]. split; [destruct (currentPlayerId E pos =? startPlayerId)%Z; lra|].
    split; [reflexivity | apply appendsTo_refl].
Qed.

(** One pass through the body of the ply loop. *)
Lemma simulate_ply_effects (L slot pn : Z) (scoresIt : PositionStatistics)
    (st : Rollout E) :
  gameOver E (r_game E st) = false ->
  rolloutEffect E startPlayerId logging st
    (snd (simulate_ply E startPlayerId numberOfPlayers decimalTurns levelsCount
            ignoreOppos logging candidateMove L slot pn scoresIt st)) /\
  (balancedSlot scoresIt ->
   balancedSlot
     (fst (simulate_ply E startPlayerId numberOfPlayers decimalTurns
             levelsCount ignoreOppos logging candidateMove L slot pn
             scoresIt st))).
Proof.
  intros Hover. split.
  - destruct (simulate_ply_effect E startPlayerId numberOfPlayers decimalTurns
                levelsCount ignoreOppos logging candidateMove L slot pn
                scoresIt st) as [Hplies _].
    cbv zeta in Hplies.
    set (p := plyRecord E startPlayerId numberOfPlayers decimalTurns levelsCount
                ignoreOppos candidateMove L slot pn (r_game E st)) in *.
    assert (Hrest :
              r_residual E
                (snd (simulate_ply E startPlayerId numberOfPlayers decimalTurns
                        levelsCount ignoreOppos logging candidateMove L slot pn
                        scoresIt st))
              = r_residual E st + residualOfPly E startPlayerId p /\
              r_xmlIndent E
                (snd (simulate_ply E startPlayerId numberOfPlayers decimalTurns
                        levelsCount ignoreOppos logging candidateMove L slot pn
                        scoresIt st))
              = r_xmlIndent E st /\
              appendsTo logging (r_stream E st)
                (r_stream E
                   (snd (simulate_ply E startPlayerId numberOfPlayers
                           decimalTurns levelsCount ignoreOppos logging
                           candidateMove L slot pn scoresIt st)))).
    { unfold simulate_ply. cbv zeta. cbn [snd].
      match goal with
      | |- context [recordResidual E ?a ?b ?c ?d ?e ?f ?g ?h ?pos ?m ?s0] =>
          destruct (recordResidual_effects g h pos m s0) as (Hr & Hi & Hs);
          set (X := recordResidual E a b c d e f g h pos m s0) in *
      end.
      cbv zeta in Hr, Hi, Hs.
      repeat rewrite ?r_write_residual, ?r_setIndent_residual in Hr.
      repeat rewrite ?r_write_indent, ?r_setIndent_indent in Hi.
      rewrite r_write_residual, r_setIndent_residual, r_write_indent,
        r_setIndent_indent.
      cbn [r_residual r_xmlIndent].
      split; [| split].
      - rewrite Hr. unfold residualOfPly, p.
        cbn [plyRecord ply_position ply_move ply_playerConsideration
             ply_sharedConsideration]. reflexivity.
      - rewrite Hi. destruct logging; reflexivity.

      - eapply appendsTo_trans; [|apply appendsTo_write; auto].
        rewrite r_setIndent_stream. cbn [r_stream].
        eapply appendsTo_trans; [|exact Hs].
        eapply appendsTo_trans; [|apply appendsTo_write; auto].
        eapply appendsTo_trans; [|apply appendsTo_write; auto].
        rewrite r_setIndent_stream. apply appendsTo_write. auto. }
    destruct Hrest as (Hr & Hi & added & Hs & Hna).
    exists [p], added.
    split; [exact Hplies|].
    split; [constructor; [exact Hover | constructor]|].
    split; [rewrite Hr; simpl; lra|].
    split; [exact Hi|]. split; assumption.
  - unfold balancedSlot, simulate_ply. cbv zeta. simpl. intros H. lia.
Qed.

Lemma plies_loop_effects (L : Z) (stats : list PositionStatistics) :
  forall slot pn (st : Rollout E),
    rolloutEffect E startPlayerId logging st
      (snd (plies_loop E startPlayerId numberOfPlayers decimalTurns levelsCount
              ignoreOppos logging candidateMove L slot pn stats st)) /\
    (Forall balancedSlot stats ->
     Forall balancedSlot
       (fst (plies_loop E startPlayerId numberOfPlayers decimalTurns
               levelsCount ignoreOppos logging candidateMove L slot pn
               stats st))) /\
    List.length
      (fst (plies_loop E startPlayerId numberOfPlayers decimalTurns
              levelsCount ignoreOppos logging candidateMove L slot pn
              stats st))
    = List.length stats.
Proof.
  induction stats as [| scoresIt rest IH]; intros slot pn st;
    cbn [plies_loop].
  - simpl. split; [apply rolloutEffect_refl | split; auto].
  - destruct (gameOver E (r_game E st)) eqn:Hover.
    + simpl. split; [apply rolloutEffect_refl | split; auto].
    + destruct (simulate_ply_effects L slot (pn + 1) scoresIt st Hover)
        as [Heff1 Hbal1].
      destruct (simulate_ply E startPlayerId numberOfPlayers decimalTurns
                  levelsCount ignoreOppos logging candidateMove L slot
                  (pn + 1) scoresIt st) as [sc1 st1].
      destruct (IH (slot + 1)%Z (pn + 1)%Z st1) as (Heff2 & Hbal2 & Hlen2).
      destruct (plies_loop E startPlayerId numberOfPlayers decimalTurns
                  levelsCount ignoreOppos logging candidateMove L
                  (slot + 1) (pn + 1) rest st1) as [rest2 st2].
      cbn [fst snd] in *. split; [| split].
      * eapply rolloutEffect_trans; eassumption.
      * intros Hb. inversion Hb; subst. constructor; auto.
      * simpl. rewrite Hlen2. reflexivity.
Qed.

Lemma setNumberScores_balanced (number : Z) (l : Level) :
  Forall balancedSlot (statistics l) ->
  Forall balancedSlot (statistics (setNumberScores number l)).
Proof.
  intros H. unfold setNumberScores. simpl. apply Forall_app. split; [exact H|].
  induction (Z.to_nat number - List.length (statistics l))%nat;
    simpl; constructor; auto. reflexivity.
Qed.

Lemma levels_loop_effects (lvls : LevelList) :
  forall L (st : Rollout E),
    rolloutEffect E startPlayerId logging st
      (snd (levels_loop E startPlayerId numberOfPlayers decimalTurns
              levelsCount ignoreOppos logging candidateMove L lvls st)) /\
    (balancedLevels lvls ->
     balancedLevels
       (fst (levels_loop E startPlayerId numberOfPlayers decimalTurns
               levelsCount ignoreOppos logging candidateMove L lvls st))) /\
    Forall2 (fun l l' =>
               (List.length (statistics l) <= List.length (statistics l'))%nat)
      lvls
      (fst (levels_loop E startPlayerId numberOfPlayers decimalTurns
              levelsCount ignoreOppos logging candidateMove L lvls st)).
Proof.
  assert (Hsame : forall l : LevelList,
             Forall2 (fun l l' =>
                        (List.length (statistics l)
                         <= List.length (statistics l'))%nat) l l).
  { induction l; constructor; auto. }
  induction lvls as [| levelIt rest IH]; intros L st; cbn [levels_loop].
  - simpl. split; [apply rolloutEffect_refl | split; auto].
  - destruct ((L <=? levelsCount + 1)%Z && negb (gameOver E (r_game E st))).
    + match goal with
      | |- context [if ?c then _ else _] => destruct c
      end.
      * destruct (IH (L + 1)%Z st) as (Heff & Hbal & Hshape).
        destruct (levels_loop E startPlayerId numberOfPlayers decimalTurns
                    levelsCount ignoreOppos logging candidateMove (L + 1)
                    rest st) as [rest1 st1].
        cbn [fst snd] in *. split; [exact Heff|]. split.
        { intros Hb. inversion Hb; subst. constructor; auto.
          apply Hbal. assumption. }
        { constructor; [lia | exact Hshape]. }
      * match goal with
        | |- context [plies_loop E ?a ?b ?c ?d ?e ?f ?g L 1%Z 1%Z ?stats st] =>
            destruct (plies_loop_effects L stats 1%Z 1%Z st)
              as (Heff1 & Hbal1 & Hlen1);
            destruct (plies_loop E a b c d e f g L 1%Z 1%Z stats st)
              as [stats1 st1]
        end.
        destruct (IH (L + 1)%Z st1) as (Heff2 & Hbal2 & Hshape2).
        destruct (levels_loop E startPlayerId numberOfPlayers decimalTurns
                    levelsCount ignoreOppos logging candidateMove (L + 1)
                    rest st1) as [rest2 st2].
        cbn [fst snd] in *. split; [| split].
        { eapply rolloutEffect_trans; eassumption. }
        { intros Hb. inversion Hb; subst. constructor.
          - simpl. apply Hbal1. apply setNumberScores_balanced. assumption.
          - apply Hbal2. assumption. }
        { constructor; [|exact Hshape2]. simpl. rewrite Hlen1.
          unfold setNumberScores. simpl. rewrite length_app. lia. }
    + simpl. split; [apply rolloutEffect_refl | split; auto].
Qed.

(** A rollout never plays from a finished game: every ply it plays
    starts from a position that is not over, and once the game is over
    nothing more is played (the loops stop at the first finished
    position). *)
Theorem rollout_stops_at_game_over (L : Z) (lvls : LevelList) (st : Rollout E) :
  let st' := snd (levels_loop E startPlayerId numberOfPlayers decimalTurns
                    levelsCount ignoreOppos logging candidateMove L lvls st) in
  (exists plies,
     r_plies E st' = r_plies E st ++ plies /\
     Forall (fun p => gameOver E (ply_position E p) = false) plies) /\
  (gameOver E (r_game E st) = true -> st' = st).
Proof.
  cbv zeta. split.
  - destruct (levels_loop_effects lvls L st)
      as ((plies & added & Hp & Hover & _) & _).
    exists plies. split; assumption.
  - intros Hover. destruct lvls as [| levelIt rest]; [reflexivity|].
    cbn [levels_loop]. rewrite Hover, andb_false_r. reflexivity.
Qed.

(** For a ply as the body records it, the residual added is the one the
    rule gives for its level number, slot, position and move. *)
Lemma residualOfPly_rule (p : PlyRecord E) :
  recordedPly E startPlayerId numberOfPlayers decimalTurns levelsCount
    ignoreOppos candidateMove p ->
  residualOfPly E startPlayerId p
  = ruleResidual E startPlayerId numberOfPlayers decimalTurns levelsCount
      ignoreOppos (plyView E p).
Proof.
  intros [Hp Hpn].
  pose proof (f_equal (ply_playerConsideration E) Hp) as Hpc.
  pose proof (f_equal (ply_sharedConsideration E) Hp) as Hsc.
  cbn [plyRecord ply_playerConsideration ply_sharedConsideration] in Hpc, Hsc.
  unfold residualOfPly, ruleResidual, plyView. cbv beta iota zeta.
  rewrite Hpc, Hsc, Hpn.
  destruct (currentPlayerId E (ply_position E p) =? startPlayerId)%Z;
    destruct (isFinalTurnForPlayerOfSimulation decimalTurns levelsCount
                (ply_levelNumber E p) (ply_slot E p + 1)%Z);
    destruct (isVeryFinalTurnOfSimulation numberOfPlayers decimalTurns
                levelsCount (ply_levelNumber E p) (ply_slot E p + 1)%Z);
    destruct ignoreOppos; cbn [andb negb]; lra.
Qed.

(** The residual of a rollout is the sum over the plies it plays (those
    of the rule, from the position it starts from) of what the code
    adds at each: at a ply that its predicate flags as the final turn of
    its player, with playerNumber one more than the slot, and that is
    not an ignored opponent's, the player consideration, with the shared
    consideration when the ply is flagged very final too, added for the
    start player and subtracted for the others; nothing at the other
    plies. *)
Theorem rollout_residual (L : Z) (lvls : LevelList) (st : Rollout E) :
  let st' := snd (levels_loop E startPlayerId numberOfPlayers decimalTurns
                    levelsCount ignoreOppos logging candidateMove L lvls st) in
  let rule := ruleLevels E startPlayerId numberOfPlayers decimalTurns
                levelsCount ignoreOppos candidateMove L lvls (r_game E st) in
  r_residual E st'
  = r_residual E st
    + Rsum (map (ruleResidual E startPlayerId numberOfPlayers decimalTurns
                   levelsCount ignoreOppos)
                (fst rule)).
Proof.
  cbv zeta. destruct (levels_loop_effects lvls L st)
    as ((plies & added & Hp & _ & Hr & _) & _).
  destruct (levels_loop_trace E startPlayerId numberOfPlayers decimalTurns
              levelsCount ignoreOppos logging candidateMove lvls L st)
    as (_ & plies' & Hp' & Hview & Hrec).
  rewrite Hp in Hp'. apply app_inv_head in Hp'. subst plies'.
  rewrite Hr, <- Hview, map_map. f_equal. f_equal.
  clear Hp Hr Hview. induction Hrec as [| p plies Hrp _ IH]; [reflexivity|].
  cbn [map]. rewrite IH, (residualOfPly_rule p Hrp). reflexivity.
Qed.

(** A rollout keeps the grid in shape: no level is added or removed, no
    level loses a slot, and slots whose score and bingo accumulators
    hold the same number of values still do. *)
Theorem rollout_grid (L : Z) (lvls : LevelList) (st : Rollout E) :
  let lvls' := fst (levels_loop E startPlayerId numberOfPlayers decimalTurns
                      levelsCount ignoreOppos logging candidateMove L lvls st) in
  List.length lvls' = List.length lvls /\
  Forall2 (fun l l' =>
             (List.length (statistics l) <= List.length (statistics l'))%nat)
          lvls lvls' /\
  (balancedLevels lvls -> balancedLevels lvls').
Proof.
  cbv zeta. destruct (levels_loop_effects lvls L st) as (_ & Hbal & Hshape).
  split; [symmetry; eapply Forall2_length; exact Hshape|].
  split; assumption.
Qed.

(** A rollout restores the indentation of the log and only appends to
    the log stream; when the simulator is not logging it writes
    nothing. *)
Theorem rollout_log (L : Z) (lvls : LevelList) (st : Rollout E) :
  let st' := snd (levels_loop E startPlayerId numberOfPlayers decimalTurns
                    levelsCount ignoreOppos logging candidateMove L lvls st) in
  r_xmlIndent E st' = r_xmlIndent E st /\
  exists added,
    r_stream E st' = r_stream E st ++ added /\
    (logging = false -> added = []).
Proof.
  cbv zeta. destruct (levels_loop_effects lvls L st)
    as ((plies & added & _ & _ & _ & Hi & Hs & Hn) & _).
  split; [exact Hi|]. exists added. split; assumption.
Qed.

End RolloutEffects.

(** ** What an iteration does *)

Section IterationFacts.

Variable E : Engine.

Lemma iterationFrame_refl (s : Simulator E) : iterationFrame s s.
Proof.
  unfold iterationFrame. repeat split. exists []. rewrite app_nil_r. auto.
Qed.

Lemma iterationFrame_trans (s1 s2 s3 : Simulator E) :
  iterationFrame s1 s2 -> iterationFrame s2 s3 -> iterationFrame s1 s3.
Proof.
  unfold iterationFrame.
  intros (A1 & A2 & A3 & A4 & A5 & A6 & A7 & A8 & A9 & A10 & A11 & a & Ha & Hna)
         (B1 & B2 & B3 & B4 & B5 & B6 & B7 & B8 & B9 & B10 & B11 & b & Hb & Hnb).
  repeat (split; [congruence|]).
  exists (a ++ b). split; [rewrite Hb, Ha, app_assoc; reflexivity|].
  intros Hl. rewrite (Hna Hl). rewrite Hnb by congruence. reflexivity.
Qed.

Lemma rolloutFrame_refl (s : Simulator E) : rolloutFrame s s.
Proof. split; [apply iterationFrame_refl | repeat split]. Qed.

Lemma rolloutFrame_trans (s1 s2 s3 : Simulator E) :
  rolloutFrame s1 s2 -> rolloutFrame s2 s3 -> rolloutFrame s1 s3.
Proof.
  intros (F1 & A1 & A2 & A3 & A4) (F2 & B1 & B2 & B3 & B4).
  split; [eapply iterationFrame_trans; eassumption|].
  repeat split; congruence.
Qed.

Lemma incorporateFirst_maps (message : SimmedMoveMessage) (l : SimmedMoveList) :
  map move (incorporateFirst message l) = map move l /\
  map m_id (incorporateFirst message l) = map m_id l /\
  map m_includeInSimulation (incorporateFirst message l)
  = map m_includeInSimulation l.
Proof.
  induction l as [| sm l (H1 & H2 & H3)]; simpl; [auto|].
  destruct (m_id sm =? msg_id message); simpl; [auto|].
  rewrite H1, H2, H3. auto.
Qed.

Lemma incorporateFirst_absent (message : SimmedMoveMessage) (l : SimmedMoveList) :
  existsb (fun moveIt => m_id moveIt =? msg_id message) l = false ->
  incorporateFirst message l = l.
Proof.
  induction l as [| sm l IH]; simpl; [reflexivity|].
  destruct (m_id sm =? msg_id message); simpl; [discriminate|].
  intros H. rewrite (IH H). reflexivity.
Qed.

Lemma incorporateMessage_simmed (message : SimmedMoveMessage) (s : Simulator E) :
  m_simmedMoves E (incorporateMessage E message s)
  = incorporateFirst message (m_simmedMoves E s).
Proof.
  destruct s as [f o h i st ce d it ig og sg r c sm n].
  unfold incorporateMessage, isLogging, write. simpl.
  destruct (existsb _ sm) eqn:Hex.
  - destruct o; simpl; [destruct (negb (msg_bogowin message))|]; reflexivity.
  - symmetry. apply incorporateFirst_absent. exact Hex.
Qed.

Lemma incorporateMessage_frame (message : SimmedMoveMessage) (s : Simulator E) :
  rolloutFrame s (incorporateMessage E message s) /\
  m_simulatedGame E (incorporateMessage E message s) = m_simulatedGame E s.
Proof.
  pose proof (incorporateMessage_simmed message s) as Hsim.
  destruct (incorporateFirst_maps message (m_simmedMoves E s)) as (H1 & H2 & H3).
  unfold rolloutFrame, iterationFrame. rewrite Hsim, H1, H2, H3. clear Hsim.
  destruct s as [f o h i st ce d it ig og sg r c sm n].
  unfold incorporateMessage, isLogging, write. simpl.
  destruct (existsb _ sm).
  - destruct o; simpl.
    + destruct (negb (msg_bogowin message)); simpl;
        repeat split; eexists; (split;
          [rewrite <- ?app_assoc; reflexivity | intros Hc; discriminate Hc]).
    + repeat split. exists []. rewrite app_nil_r. auto.
  - repeat split. exists []. rewrite app_nil_r. auto.
Qed.

Lemma replaceAt_nth_error {A : Type} (x : A) (l : list A) :
  forall i j,
    nth_error (replaceAt i x l) j
    = if Nat.eqb j i then option_map (fun _ => x) (nth_error l j)
      else nth_error l j.
Proof.
  induction l as [| y l IH]; intros i j.
  - destruct i, j; simpl; try reflexivity; destruct (Nat.eqb _ _); reflexivity.
  - destruct i as [| i], j as [| j]; simpl; try reflexivity. apply IH.
Qed.

Lemma replaceAt_map {A B : Type} (f : A -> B) (x y : A) (l : list A) :
  forall i, nth_error l i = Some y -> f x = f y ->
            map f (replaceAt i x l) = map f l.
Proof.
  induction l as [| z l IH]; intros [| i]; simpl; try discriminate.
  - intros [= ->] ->. reflexivity.
  - intros Hn Hf. rewrite (IH i Hn Hf). reflexivity.
Qed.

Lemma simulate_move_frame (a b c d : Z) (s : Simulator E) (i : nat) :
  rolloutFrame s (simulate_move E a b c d s i).
Proof.
  unfold simulate_move.
  destruct (nth_error (m_simmedMoves E s) i) as [moveIt|] eqn:Hn;
    [|apply rolloutFrame_refl].
  destruct (negb (m_includeInSimulation moveIt)); [apply rolloutFrame_refl|].
  cbv zeta.
  match goal with
  | |- context [levels_loop E ?a1 ?a2 ?a3 ?a4 ?a5 ?a6 ?a7 ?a8 ?a9 ?a10] =>
      destruct (levels_loop_effects E a1 a2 a3 a4 a5 a6 a7 a9 a8 a10)
        as ((plies & added & _ & _ & _ & Hi & Hs & Hna) & _);
      destruct (levels_loop E a1 a2 a3 a4 a5 a6 a7 a8 a9 a10) as [lvls st]
  end.
  cbn [snd] in Hi, Hs. simpl in Hi, Hs, Hna.
  eapply rolloutFrame_trans; [|apply incorporateMessage_frame].
  unfold rolloutFrame, iterationFrame. simpl.
  rewrite !(replaceAt_map _ _ moveIt _ i Hn) by reflexivity.
  repeat split; try assumption.
  exists added. split; assumption.
Qed.

Lemma simulate_moves_frame (a b c d : Z) (idx : list nat) :
  forall s : Simulator E,
    rolloutFrame s (fold_left (simulate_move E a b c d) idx s).
Proof.
  induction idx as [| i idx IH]; intros s; simpl; [apply rolloutFrame_refl|].
  eapply rolloutFrame_trans; [apply simulate_move_frame | apply IH].
Qed.

End IterationFacts.

Section IterationEffects.

Variable E : Engine.

Lemma rolloutMessage_fields (a id : Z) (lvls : LevelList) (game : Game E)
    (r : R) :
  msg_id (rolloutMessage E a id lvls game r) = id /\
  msg_levels (rolloutMessage E a id lvls game r) = lvls.
Proof.
  unfold rolloutMessage. destruct (gameOver E game); split; reflexivity.
Qed.

Lemma incorporateFirst_at (message : SimmedMoveMessage) (l : SimmedMoveList) :
  forall i sm,
    NoDup (map m_id l) ->
    nth_error l i = Some sm ->
    m_id sm = msg_id message ->
    forall j,
      nth_error (incorporateFirst message l) j
      = if Nat.eqb j i then Some (incorporateInto message sm)
        else nth_error l j.
Proof.
  induction l as [| x l IH]; intros [| i] sm Hnd Hn Hid j;
    simpl in Hn; try discriminate.
  - injection Hn as ->. simpl. rewrite Hid, Z.eqb_refl.
    destruct j; reflexivity.
  - inversion Hnd as [| ? ? Hnotin Hnd']; subst.
    assert (Hx : (m_id x =? msg_id message) = false).
    { apply Z.eqb_neq. intros Heq. apply Hnotin. rewrite Heq, <- Hid.
      apply in_map. eapply nth_error_In. exact Hn. }
    simpl. rewrite Hx. destruct j as [| j]; [reflexivity|].
    simpl. apply (IH i sm Hnd' Hn Hid).
Qed.

Lemma simulate_move_pointwise (a b c d : Z) (s : Simulator E) (i : nat) :
  NoDup (map m_id (m_simmedMoves E s)) ->
  forall j sm,
    nth_error (m_simmedMoves E s) j = Some sm ->
    exists sm',
      nth_error (m_simmedMoves E (simulate_move E a b c d s i)) j = Some sm' /\
      if Nat.eqb j i then simulatedOnce (Z.to_nat (d + 1)) sm sm' else sm' = sm.
Proof.
  intros Hnd j sm Hj. unfold simulate_move.
  destruct (nth_error (m_simmedMoves E s) i) as [moveIt|] eqn:Hn.
  2:{ exists sm. split; [exact Hj|].
      destruct (Nat.eqb j i) eqn:Hji; [|reflexivity].
      apply Nat.eqb_eq in Hji. subst j. congruence. }
  destruct (m_includeInSimulation moveIt) eqn:Hinc; cbn [negb].
  2:{ exists sm. split; [exact Hj|].
      destruct (Nat.eqb j i) eqn:Hji; [|reflexivity].
      apply Nat.eqb_eq in Hji. subst j.
      rewrite Hn in Hj. injection Hj as <-.
      unfold simulatedOnce. rewrite Hinc. repeat split. }
  cbv zeta.
  set (moveIt' := SimmedMove_setLevels
                    (setNumberLevels (d + 1) (levels moveIt)) moveIt).
  match goal with
  | |- context [levels_loop E ?a1 ?a2 ?a3 ?a4 ?a5 ?a6 ?a7 ?a8 ?a9 ?a10] =>
      destruct (levels_loop_effects E a1 a2 a3 a4 a5 a6 a7 a9 a8 a10)
        as (_ & _ & Hshape);
      destruct (levels_loop E a1 a2 a3 a4 a5 a6 a7 a8 a9 a10) as [lvls st]
  end.
  cbn [fst] in Hshape. apply Forall2_length in Hshape.
  rewrite incorporateMessage_simmed.
  match goal with
  | |- context [incorporateFirst ?msg ?l] =>
      set (message := msg); set (l1 := l)
  end.
  assert (Hl1 : l1 = replaceAt i moveIt' (m_simmedMoves E s)) by reflexivity.
  assert (Hids : map m_id l1 = map m_id (m_simmedMoves E s)).
  { rewrite Hl1. apply (replaceAt_map _ _ moveIt _ i Hn). reflexivity. }
  assert (Hn1 : nth_error l1 i = Some moveIt').
  { rewrite Hl1, replaceAt_nth_error, Nat.eqb_refl, Hn. reflexivity. }
  assert (Hmid : msg_id message = m_id moveIt')
    by (unfold message; apply rolloutMessage_fields).
  assert (Hmlev : msg_levels message = lvls)
    by (unfold message; apply rolloutMessage_fields).
  assert (Hnd1 : NoDup (map m_id l1)) by (rewrite Hids; exact Hnd).
  rewrite (incorporateFirst_at message l1 i moveIt' Hnd1 Hn1 (eq_sym Hmid) j).
  destruct (Nat.eqb j i) eqn:Hji.
  - apply Nat.eqb_eq in Hji. subst j. rewrite Hn in Hj. injection Hj as <-.
    exists (incorporateInto message moveIt'). split; [reflexivity|].
    unfold simulatedOnce. rewrite Hinc.
    cbn [incorporateInto move m_id m_includeInSimulation residual gameSpread
         wins levels incorporateValue m_incorporatedValues].
    repeat split; try reflexivity; [unfold moveIt'; exact Hinc|].
    rewrite Hmlev, <- Hshape. unfold moveIt', setNumberLevels. simpl.
    rewrite length_app, repeat_length. lia.
  - exists sm. split; [|reflexivity].
    rewrite Hl1, replaceAt_nth_error, Hji. exact Hj.
Qed.

Lemma simulatedOnce_same_ids (w : nat) (sm sm' : SimmedMove) :
  (simulatedOnce w sm sm' \/ sm' = sm) -> m_id sm' = m_id sm.
Proof.
  intros [(_ & H & _) | ->]; [exact H | reflexivity].
Qed.

Lemma simulate_moves_pointwise (a b c d : Z) (idx : list nat) :
  NoDup idx ->
  forall s : Simulator E,
    NoDup (map m_id (m_simmedMoves E s)) ->
    forall j sm,
      nth_error (m_simmedMoves E s) j = Some sm ->
      exists sm',
        nth_error (m_simmedMoves E (fold_left (simulate_move E a b c d) idx s)) j
        = Some sm' /\
        if existsb (Nat.eqb j) idx
        then simulatedOnce (Z.to_nat (d + 1)) sm sm' else sm' = sm.
Proof.
  induction idx as [| i rest IH]; intros Hidx s Hnd j sm Hj; cbn [fold_left].
  - exists sm. split; [exact Hj | reflexivity].
  - inversion Hidx as [| ? ? Hnotin Hrest]; subst.
    destruct (simulate_move_pointwise a b c d s i Hnd j sm Hj)
      as (sm1 & Hj1 & Hstep).
    assert (Hnd1 : NoDup (map m_id (m_simmedMoves E (simulate_move E a b c d s i)))).
    { destruct (simulate_move_frame E a b c d s i) as (F & _).
      destruct F as (_ & _ & _ & _ & _ & _ & _ & _ & _ & Hids & _).
      rewrite Hids. exact Hnd. }
    destruct (IH Hrest _ Hnd1 j sm1 Hj1) as (sm' & Hj' & Hlater).
    exists sm'. split; [exact Hj'|].
    cbn [existsb]. destruct (Nat.eqb j i) eqn:Hji.
    + apply Nat.eqb_eq in Hji. subst j.
      assert (Hno : existsb (Nat.eqb i) rest = false).
      { destruct (existsb (Nat.eqb i) rest) eqn:Hex; [|reflexivity].
        apply existsb_exists in Hex. destruct Hex as (k & Hk & Hik).
        apply Nat.eqb_eq in Hik. subst k. contradiction. }
      rewrite Hno in Hlater. subst sm'. exact Hstep.
    + subst sm1. exact Hlater.
Qed.

(** The simmed moves and the id counter before and after the part of
    an iteration that frames the rollouts. *)
Lemma simulate_pointwise (plies : Z) (s : Simulator E) :
  NoDup (map m_id (m_simmedMoves E s)) ->
  forall j sm,
    nth_error (m_simmedMoves E s) j = Some sm ->
    exists sm',
      nth_error (m_simmedMoves E (simulate E plies s)) j = Some sm' /\
      simulatedOnce (levelsWanted plies s) sm sm'.
Proof.
  intros Hnd j sm Hj. unfold simulate. cbv zeta.
  match goal with
  | |- context [fold_left (simulate_move E ?a ?b ?c ?d)
                  (seq 0 (List.length (m_simmedMoves E ?s1))) ?s1] =>
      remember d as d' eqn:Hd; remember c as c' eqn:Hc;
      remember b as b' eqn:Hb; remember a as a' eqn:Ha;
      remember s1 as s1' eqn:Hdef
  end.
  assert (Hs1 : m_simmedMoves E s1' = m_simmedMoves E s).
  { subst s1'. clear. destruct s as [f o h i st ce dd it ig og sg r c sm0 n].
    unfold isLogging, writeLogHeader, isLogging, write,
      randomizeDrawingOrder, randomizeOppoRacks. simpl.
    destruct o, h; reflexivity. }
  assert (Hwanted : Z.to_nat (d' + 1) = levelsWanted plies s)
    by (subst d' c' b'; reflexivity).
  clear Hdef Ha Hb Hc Hd.
  pose proof (simulate_moves_pointwise a' b' c' d'
                (seq 0 (List.length (m_simmedMoves E s1')))
                (seq_NoDup _ _) s1') as Hfold.
  set (s2 := fold_left (simulate_move E a' b' c' d')
               (seq 0 (List.length (m_simmedMoves E s1'))) s1') in *.
  rewrite Hs1 in Hfold. specialize (Hfold Hnd j sm Hj).
  destruct Hfold as (sm' & Hj' & Hres).
  assert (Hin : existsb (Nat.eqb j) (seq 0 (List.length (m_simmedMoves E s)))
                = true).
  { apply existsb_exists. exists j. split; [|apply Nat.eqb_refl].
    apply in_seq. split; [lia|]. simpl.
    apply nth_error_Some. congruence. }
  rewrite Hin, Hwanted in Hres.
  exists sm'. split.
  - unfold isLogging, write.
    destruct (m_logfileIsOpen E s2); simpl; exact Hj'.
  - exact Hres.
Qed.

Lemma Forall2_pointwise {A : Type} (R : A -> A -> Prop) (l : list A) :
  forall l',
    List.length l' = List.length l ->
    (forall j x, nth_error l j = Some x ->
       exists y, nth_error l' j = Some y /\ R x y) ->
    Forall2 R l l'.
Proof.
  induction l as [| x l IH]; intros [| y l'] Hlen H; simpl in Hlen;
    try discriminate; constructor.
  - destruct (H O x eq_refl) as (y' & Hy & HR). injection Hy as <-. exact HR.
  - apply IH; [lia|]. intros j z Hz. apply (H (S j) z Hz).
Qed.

Lemma simulate_frame_lemma (plies : Z) (s : Simulator E) :
  iterationFrame s (simulate E plies s) /\
  m_iterations E (simulate E plies s) = m_iterations E s + 1 /\
  m_originalGame E (simulate E plies s)
  = shuffleDrawingOrder E
      (refillOppoRacks E (m_partialOppoRack E s) (m_originalGame E s)) /\
  m_hasHeader E (simulate E plies s) = m_hasHeader E s || m_logfileIsOpen E s /\
  m_xmlIndent E (simulate E plies s)
  = if m_logfileIsOpen E s && negb (m_hasHeader E s) then 1%nat
    else m_xmlIndent E s.
Proof.
  unfold simulate. cbv zeta.
  match goal with
  | |- context [fold_left (simulate_move E ?a ?b ?c ?d)
                  (seq 0 (List.length (m_simmedMoves E ?s1))) ?s1] =>
      remember d as d' eqn:Hd; remember c as c' eqn:Hc;
      remember b as b' eqn:Hb; remember a as a' eqn:Ha;
      remember s1 as s1' eqn:Hdef
  end.
  assert (Hpre : iterationFrame s s1' /\
                 m_iterations E s1' = m_iterations E s + 1 /\
                 m_originalGame E s1'
                 = shuffleDrawingOrder E
                     (refillOppoRacks E (m_partialOppoRack E s)
                        (m_originalGame E s)) /\
                 m_hasHeader E s1' = m_hasHeader E s || m_logfileIsOpen E s /\
                 m_xmlIndent E s1'
                 = if m_logfileIsOpen E s
                   then S (if m_hasHeader E s then m_xmlIndent E s else 1%nat)
                   else m_xmlIndent E s).
  { subst s1'. clear. destruct s as [f o h i st ce dd it ig og sg r c sm0 n].
    unfold iterationFrame, isLogging, writeLogHeader, isLogging, write,
      randomizeDrawingOrder, randomizeOppoRacks. simpl.
    destruct o, h; simpl; repeat split;
      try (eexists; split;
           [rewrite <- ?app_assoc; reflexivity | intros Hc; discriminate Hc]).
    all: exists []; rewrite app_nil_r; auto. }
  clear Hdef Ha Hb Hc Hd.
  pose proof (simulate_moves_frame E a' b' c' d'
                (seq 0 (List.length (m_simmedMoves E s1'))) s1') as Hfold.
  set (s2 := fold_left (simulate_move E a' b' c' d')
               (seq 0 (List.length (m_simmedMoves E s1'))) s1') in *.
  revert Hfold Hpre. generalize s1' s2. clear s1' s2.
  intros s1 s2 Hfold (Hpre & Hit & Hog & Hh & Hi).
  destruct Hfold as (Ffold & Fit & Fh & Fi & Fog).
  pose proof (iterationFrame_trans E s s1 s2 Hpre Ffold) as F.
  assert (Hopen : m_logfileIsOpen E s2 = m_logfileIsOpen E s).
  { destruct F as (_ & _ & _ & _ & _ & H & _). exact H. }
  unfold isLogging, write. rewrite Hopen.
  destruct (m_logfileIsOpen E s) eqn:Ho; simpl.
  - split.
    { unfold iterationFrame in *.
      destruct F as (A1 & A2 & A3 & A4 & A5 & A6 & A7 & A8 & A9 & A10 & A11
                     & added & Hadd & Hnone).
      simpl. repeat (split; [assumption|]).
      eexists. split; [rewrite Hadd, <- app_assoc; reflexivity|].
      intros Hc. congruence. }
    split; [rewrite Fit; exact Hit|].
    split; [rewrite Fog; exact Hog|].
    split; [rewrite Fh; exact Hh|].
    rewrite Fi, Hi. destruct (m_hasHeader E s); reflexivity.
  - split; [exact F|].
    split; [rewrite Fit; exact Hit|].
    split; [rewrite Fog; exact Hog|].
    split; [rewrite Fh; exact Hh|].
    rewrite Fi, Hi. reflexivity.
Qed.

End IterationEffects.

Section IterationTheorems.

Variable E : Engine.

(** One iteration leaves the dispatch, the options, the considered
    moves, the id counter, the log file name and state, the partial
    rack and the moves, ids and include flags of the simmed moves as
    they are; it adds 1 to the iteration counter (so results exist
    afterwards), rewrites the original game by the two randomizations
    only, only appends to the log, and nothing when not logging; a
    header is pending afterwards exactly when one was or the log is
    open, and the indentation is back where it was (at one tab after a
    header was written). *)
Theorem simulate_frame (plies : Z) (s : Simulator E) :
  iterationFrame s (simulate E plies s) /\
  m_iterations E (simulate E plies s) = m_iterations E s + 1 /\
  (0 <= m_iterations E s -> hasSimulationResults E (simulate E plies s) = true) /\
  m_originalGame E (simulate E plies s)
  = shuffleDrawingOrder E
      (refillOppoRacks E (m_partialOppoRack E s) (m_originalGame E s)) /\
  m_hasHeader E (simulate E plies s) = m_hasHeader E s || m_logfileIsOpen E s /\
  m_xmlIndent E (simulate E plies s)
  = if m_logfileIsOpen E s && negb (m_hasHeader E s) then 1%nat
    else m_xmlIndent E s.
Proof.
  destruct (simulate_frame_lemma E plies s) as (F & Hit & Hog & Hh & Hi).
  split; [exact F|]. split; [exact Hit|]. split.
  - intros Hpos. unfold hasSimulationResults. rewrite Hit.
    apply Z.ltb_lt. lia.
  - split; [exact Hog|]. split; assumption.
Qed.

(** With pairwise distinct ids, one iteration gives every included
    simmed move exactly one more value in each of residual, gameSpread
    and wins and a grid of the levels asked for, and leaves every
    excluded simmed move as it is. *)
Theorem simulate_counts (plies : Z) (s : Simulator E) :
  NoDup (map m_id (m_simmedMoves E s)) ->
  Forall2 (simulatedOnce (levelsWanted plies s))
          (m_simmedMoves E s) (m_simmedMoves E (simulate E plies s)).
Proof.
  intros Hnd. apply Forall2_pointwise.
  - destruct (simulate_frame_lemma E plies s) as (F & _).
    destruct F as (_ & _ & _ & _ & _ & _ & _ & _ & _ & Hids & _).
    rewrite <- (length_map m_id), Hids, length_map. reflexivity.
  - intros j sm Hj. apply simulate_pointwise; assumption.
Qed.

Lemma mapAt_setInclude_ids i b (l : SimmedMoveList) :
  map m_id (mapAt i (setIncludeInSimulation b) l) = map m_id l.
Proof.
  revert i. induction l as [| sm l IH]; intros [| i]; simpl; try reflexivity.
  rewrite IH. reflexivity.
Qed.

Lemma uniqueIds_by_ids (s s' : Simulator E) :
  map m_id (m_simmedMoves E s') = map m_id (m_simmedMoves E s) ->
  objectIdCounter E s' = objectIdCounter E s ->
  uniqueIds s -> uniqueIds s'.
Proof.
  unfold uniqueIds. intros Hids Hc [Hnd Hb]. rewrite Hids, Hc.
  split; [exact Hnd|].
  apply (Forall_map m_id (fun id => id <= objectIdCounter E s)).
  rewrite Hids. apply Forall_map. exact Hb.
Qed.

Lemma include_move_uniqueIds (s : Simulator E) (it : Move) :
  uniqueIds s -> uniqueIds (include_move E s it).
Proof.
  intros Hu. unfold include_move. rewrite include_first_firstMatch.
  destruct (firstMatch E it (m_simmedMoves E s)) as [i|]; simpl.
  - eapply uniqueIds_by_ids; [| |exact Hu]; simpl;
      [apply mapAt_setInclude_ids | reflexivity].
  - destruct Hu as [Hnd Hb]. unfold uniqueIds, push_SimmedMove. simpl.
    rewrite map_app. simpl. split.
    + apply NoDup_app_remove_l with (l := []). simpl.
      apply (Permutation_NoDup
               (l := (objectIdCounter E s + 1) :: map m_id (m_simmedMoves E s))).
      * apply Permutation_cons_append.
      * constructor; [|exact Hnd].
        intros Hin. apply in_map_iff in Hin. destruct Hin as (sm & Hid & Hsm).
        rewrite Forall_forall in Hb. specialize (Hb sm Hsm). lia.
    + apply Forall_app. split.
      * eapply Forall_impl; [|exact Hb]. simpl. intros sm H. lia.
      * constructor; [simpl; lia | constructor].
Qed.

Lemma setIncludedMoves_uniqueIds (mvs : MoveList) (s : Simulator E) :
  uniqueIds s -> uniqueIds (setIncludedMoves E mvs s).
Proof.
  intros Hu. unfold setIncludedMoves.
  assert (H0 : uniqueIds
                 (set_m_simmedMoves E
                    (map (setIncludeInSimulation false) (m_simmedMoves E s)) s)).
  { eapply uniqueIds_by_ids; [| |exact Hu]; simpl; [|reflexivity].
    rewrite map_map. reflexivity. }
  revert H0. generalize (set_m_simmedMoves E
                           (map (setIncludeInSimulation false)
                              (m_simmedMoves E s)) s).
  induction mvs as [| it rest IH]; intros s0 H0; simpl; [exact H0|].
  apply IH. apply include_move_uniqueIds. exact H0.
Qed.

(** Distinct ids, all given out by the counter, are kept by
    setIncludedMoves, pruneTo, resetNumbers and by an iteration. *)
Theorem uniqueIds_kept (s : Simulator E) :
  uniqueIds s ->
  (forall mvs, uniqueIds (setIncludedMoves E mvs s)) /\
  (forall threshold maxN s',
     pruneTo E threshold maxN s = Some s' -> uniqueIds s') /\
  uniqueIds (resetNumbers E s) /\
  (forall plies, uniqueIds (simulate E plies s)).
Proof.
  intros Hu. split; [| split; [| split]].
  - intros mvs. apply setIncludedMoves_uniqueIds. exact Hu.
  - intros threshold maxN s'. unfold pruneTo.
    destruct (moves E true false s); [discriminate|].
    intros [= <-]. apply setIncludedMoves_uniqueIds. exact Hu.
  - eapply uniqueIds_by_ids; [| |exact Hu]; simpl; [|reflexivity].
    rewrite map_map. reflexivity.
  - intros plies. destruct (simulate_frame_lemma E plies s) as (F & _).
    destruct F as (_ & _ & _ & Hc & _ & _ & _ & _ & _ & Hids & _).
    eapply uniqueIds_by_ids; eassumption.
Qed.

Lemma push_all_log (mvs : MoveList) :
  forall s0 : Simulator E,
    m_hasHeader E (fold_left (fun s it => push_SimmedMove E it s) mvs s0)
    = m_hasHeader E s0 /\
    m_logfileIsOpen E (fold_left (fun s it => push_SimmedMove E it s) mvs s0)
    = m_logfileIsOpen E s0.
Proof.
  induction mvs as [| m rest IH]; intros s0; simpl; [auto|].
  destruct (IH (push_SimmedMove E m s0)) as [-> ->]. auto.
Qed.

(** A header is pending only on an open log: every operation on the
    log, setPosition and an iteration keep that. *)
Theorem headerOnlyWhenOpen_kept (s : Simulator E) :
  headerOnlyWhenOpen s ->
  headerOnlyWhenOpen (writeLogHeader E s) /\
  headerOnlyWhenOpen (writeLogFooter E s) /\
  headerOnlyWhenOpen (closeLogfile E s) /\
  (forall path append, headerOnlyWhenOpen (setLogfile E path append s)) /\
  (forall message, headerOnlyWhenOpen (logMessage E message s)) /\
  (forall position, headerOnlyWhenOpen (setPosition E position s)) /\
  (forall plies, headerOnlyWhenOpen (simulate E plies s)).
Proof.
  unfold headerOnlyWhenOpen. intros Hinv.
  assert (Hlog : (m_hasHeader E (writeLogHeader E s) = true ->
                  m_logfileIsOpen E (writeLogHeader E s) = true) /\
                 (m_hasHeader E (writeLogFooter E s) = true ->
                  m_logfileIsOpen E (writeLogFooter E s) = true) /\
                 (m_hasHeader E (closeLogfile E s) = true ->
                  m_logfileIsOpen E (closeLogfile E s) = true) /\
                 (forall path append,
                    m_hasHeader E (setLogfile E path append s) = true ->
                    m_logfileIsOpen E (setLogfile E path append s) = true) /\
                 (forall message,
                    m_hasHeader E (logMessage E message s) = true ->
                    m_logfileIsOpen E (logMessage E message s) = true)).
  { destruct s as [f o h i st ce d it ig og sg r c sm n]. simpl in Hinv.
    unfold writeLogHeader, writeLogFooter, closeLogfile, logMessage, setLogfile,
      closeLogfile, writeLogFooter, isLogging, write. simpl.
    split; [| split; [| split; [| split]]].
    - destruct o; simpl; auto.
    - destruct o; simpl; auto.
    - destruct o, h; simpl; auto.
    - intros path append.
      destruct (String.eqb f path && o); simpl; [exact Hinv|].
      destruct (String.eqb path EmptyString) eqn:He.
      + destruct o, h; simpl; auto; intros; discriminate.
      + destruct o, h, (logfileOpens E path append); simpl; auto;
          intros; discriminate.
    - intros message. destruct o; simpl; auto. }
  destruct Hlog as (H1 & H2 & H3 & H4 & H5).
  repeat (split; [assumption|]). split.
  - intros position. unfold setPosition. cbv zeta.
    set (s1 := if hasSimulationResults E s then writeLogFooter E s else s).
    assert (Hs1 : m_hasHeader E s1 = true -> m_logfileIsOpen E s1 = true)
      by (unfold s1; destruct (hasSimulationResults E s); assumption).
    match goal with
    | |- context [fold_left ?f ?l ?s0] =>
        destruct (push_all_log l s0) as [Hh Ho]
    end.
    unfold resetNumbers. simpl. simpl in Hh, Ho. rewrite Hh, Ho. exact Hs1.
  - intros plies. destruct (simulate_frame_lemma E plies s)
      as (F & _ & _ & Hh & _).
    destruct F as (_ & _ & _ & _ & _ & Hopen & _).
    rewrite Hh, Hopen. intros H. apply orb_true_iff in H.
    destruct H as [H | H]; [apply Hinv; exact H | exact H].
Qed.

End IterationTheorems.

Section IterationMore.

Variable E : Engine.

Lemma iter_simulate_iterations (plies : Z) (k : nat) (s : Simulator E) :
  m_iterations E (Nat.iter k (simulate E plies) s)
  = m_iterations E s + Z.of_nat k.
Proof.
  induction k as [| k IH]; [simpl; lia|].
  cbn [Nat.iter nat_rect].
  destruct (simulate_frame_lemma E plies (Nat.iter k (simulate E plies) s))
    as (_ & Hit & _).
  unfold Nat.iter in *. rewrite Hit, IH. lia.
Qed.

(** simulate(plies, iterations) adds to the iteration counter the number
    of iterations it ran: the answers false in a row of the dispatch, or
    all of them without a dispatch.  With iterations <= 0 it does
    nothing, not even poll.  Without a dispatch, running a and then b
    iterations is running a + b. *)
Theorem simulate_iterations_counts (plies iterations : Z) (s : Simulator E)
    (polls : nat) :
  m_iterations E (fst (simulate_iterations E plies iterations s polls))
  = m_iterations E s
    + Z.of_nat match m_dispatch E s with
               | Some dispatch => leadingFalse dispatch polls (Z.to_nat iterations)
               | None => Z.to_nat iterations
               end /\
  (iterations <= 0 -> simulate_iterations E plies iterations s polls = (s, polls)) /\
  (m_dispatch E s = None ->
   forall a b, 0 <= a -> 0 <= b ->
     simulate_iterations E plies (a + b) s polls
     = simulate_iterations E plies b
         (fst (simulate_iterations E plies a s polls))
         (snd (simulate_iterations E plies a s polls))).
Proof.
  unfold simulate_iterations. split; [| split].
  - destruct (m_dispatch E s) as [dispatch|] eqn:Hd.
    + rewrite (simulate_loop_dispatch E plies dispatch _ s polls Hd).
      cbv zeta. cbn [fst]. apply iter_simulate_iterations.
    + rewrite (simulate_loop_no_dispatch E plies _ s polls Hd).
      cbn [fst]. apply iter_simulate_iterations.
  - intros Hle. replace (Z.to_nat iterations) with O by lia. reflexivity.
  - intros Hd a b Ha Hb.
    rewrite !(simulate_loop_no_dispatch E plies _ s polls Hd). cbn [fst snd].
    rewrite simulate_loop_no_dispatch
      by (rewrite iter_simulate_dispatch; exact Hd).
    replace (Z.to_nat (a + b)) with (Z.to_nat b + Z.to_nat a)%nat by lia.
    rewrite Nat.iter_add. reflexivity.
Qed.

Lemma incorporateFirst_Forall (P : SimmedMove -> Prop)
    (message : SimmedMoveMessage) (l : SimmedMoveList) :
  (forall sm, P (incorporateInto message sm)) ->
  Forall P l -> Forall P (incorporateFirst message l).
Proof.
  intros Hinto. induction 1 as [| sm l Hsm Hl IH]; simpl; [constructor|].
  destruct (m_id sm =? msg_id message); constructor; auto.
Qed.

Lemma replaceAt_Forall {A : Type} (P : A -> Prop) (x : A) (l : list A) :
  forall i, P x -> Forall P l -> Forall P (replaceAt i x l).
Proof.
  induction l as [| y l IH]; intros [| i] Hx Hl; simpl;
    try constructor; inversion Hl; subst; auto.
Qed.

Lemma simulate_move_balanced (a b c d : Z) (s : Simulator E) (i : nat) :
  Forall (fun sm => balancedLevels (levels sm)) (m_simmedMoves E s) ->
  Forall (fun sm => balancedLevels (levels sm))
         (m_simmedMoves E (simulate_move E a b c d s i)).
Proof.
  intros Hall. unfold simulate_move.
  destruct (nth_error (m_simmedMoves E s) i) as [moveIt|] eqn:Hn; [|exact Hall].
  destruct (negb (m_includeInSimulation moveIt)); [exact Hall|].
  cbv zeta.
  assert (Hmove : balancedLevels (setNumberLevels (d + 1) (levels moveIt))).
  { unfold balancedLevels, setNumberLevels. apply Forall_app. split.
    - rewrite Forall_forall in Hall. apply (Hall moveIt).
      eapply nth_error_In. exact Hn.
    - induction (Z.to_nat (d + 1) - List.length (levels moveIt))%nat;
        simpl; constructor; auto. }
  match goal with
  | |- context [levels_loop E ?a1 ?a2 ?a3 ?a4 ?a5 ?a6 ?a7 ?a8 ?a9 ?a10] =>
      destruct (levels_loop_effects E a1 a2 a3 a4 a5 a6 a7 a9 a8 a10)
        as (_ & Hbal & _);
      destruct (levels_loop E a1 a2 a3 a4 a5 a6 a7 a8 a9 a10) as [lvls st]
  end.
  cbn [fst] in Hbal. specialize (Hbal Hmove).
  rewrite incorporateMessage_simmed. apply incorporateFirst_Forall.
  - intros sm. cbn [incorporateInto levels].
    match goal with
    | |- balancedLevels (msg_levels (rolloutMessage E ?x ?id ?l ?g ?r)) =>
        destruct (rolloutMessage_fields E x id l g r) as [_ ->]
    end.
    exact Hbal.
  - simpl. apply replaceAt_Forall; [exact Hmove | exact Hall].
Qed.

Lemma simulate_simmed (plies : Z) (s : Simulator E) :
  exists a b c d (s1 : Simulator E),
    m_simmedMoves E s1 = m_simmedMoves E s /\
    m_simmedMoves E (simulate E plies s)
    = m_simmedMoves E
        (fold_left (simulate_move E a b c d)
           (seq 0 (List.length (m_simmedMoves E s1))) s1).
Proof.
  unfold simulate. cbv zeta.
  match goal with
  | |- context [fold_left (simulate_move E ?a ?b ?c ?d)
                  (seq 0 (List.length (m_simmedMoves E ?s1))) ?s1] =>
      exists a, b, c, d, s1
  end.
  split.
  - destruct s as [f o h i st ce dd it ig og sg r c sm0 n].
    unfold isLogging, writeLogHeader, isLogging, write,
      randomizeDrawingOrder, randomizeOppoRacks. simpl.
    destruct o, h; reflexivity.
  - unfold isLogging at 1. unfold write.
    match goal with
    | |- context [if m_logfileIsOpen E ?s2 then _ else _] =>
        destruct (m_logfileIsOpen E s2)
    end; reflexivity.
Qed.

(** An iteration keeps the grids balanced: when, in every slot of every
    simmed move, the score and the bingo accumulators hold the same
    number of values, they still do afterwards. *)
Theorem simulate_balanced (plies : Z) (s : Simulator E) :
  Forall (fun sm => balancedLevels (levels sm)) (m_simmedMoves E s) ->
  Forall (fun sm => balancedLevels (levels sm))
         (m_simmedMoves E (simulate E plies s)).
Proof.
  intros Hall.
  destruct (simulate_simmed plies s) as (a & b & c & d & s1 & Hs1 & ->).
  rewrite <- Hs1 in Hall. clear Hs1.
  generalize (seq 0 (List.length (m_simmedMoves E s1))).
  intros idx. revert s1 Hall.
  induction idx as [| i rest IH]; intros s1 Hall; simpl; [exact Hall|].
  apply IH. apply simulate_move_balanced. exact Hall.
Qed.

(** numLevels reads the grid of the first simmed move: 0 on an empty
    set and after resetNumbers; after an iteration, when the first
    simmed move is included and the ids are distinct, the greater of
    what it was and the number of levels that iteration asked for. *)
Theorem numLevels_after (plies : Z) (s : Simulator E) :
  (m_simmedMoves E s = [] -> numLevels E s = 0) /\
  numLevels E (resetNumbers E s) = 0 /\
  (NoDup (map m_id (m_simmedMoves E s)) ->
   forall front rest,
     m_simmedMoves E s = front :: rest ->
     m_includeInSimulation front = true ->
     numLevels E (simulate E plies s)
     = Z.max (numLevels E s) (Z.of_nat (levelsWanted plies s))).
Proof.
  split; [| split].
  - intros H. unfold numLevels. rewrite H. reflexivity.
  - unfold numLevels, resetNumbers. simpl.
    destruct (m_simmedMoves E s); reflexivity.
  - intros Hnd front rest Hs Hinc.
    assert (H0 : nth_error (m_simmedMoves E s) 0 = Some front)
      by (rewrite Hs; reflexivity).
    destruct (simulate_pointwise E plies s Hnd 0%nat front H0)
      as (sm' & Hn' & Hsim).
    unfold numLevels. rewrite Hs.
    destruct (m_simmedMoves E (simulate E plies s)) as [| x l];
      [discriminate|].
    simpl in Hn'. injection Hn' as ->.
    destruct Hsim as (_ & _ & _ & Hcase). rewrite Hinc in Hcase.
    destruct Hcase as (_ & _ & _ & Hlen). rewrite Hlen. lia.
Qed.

(** numPlayersAtLevel answers 0 on an empty set.  Otherwise, for a level
    index from 0 to numLevels - 1, it answers the number of slots of the
    level at that index in the grid of the first simmed move; for every
    other index it reads the levels out of bounds and has no answer. *)
Theorem numPlayersAtLevel_bounds (levelIndex : Z) (s : Simulator E) :
  (m_simmedMoves E s = [] -> numPlayersAtLevel E levelIndex s = Some 0) /\
  (forall front rest, m_simmedMoves E s = front :: rest ->
     (0 <= levelIndex < numLevels E s ->
      exists level,
        nth_error (levels front) (Z.to_nat levelIndex) = Some level /\
        numPlayersAtLevel E levelIndex s
        = Some (Z.of_nat (List.length (statistics level)))) /\
     (levelIndex < 0 \/ numLevels E s <= levelIndex ->
      numPlayersAtLevel E levelIndex s = None)).
Proof.
  unfold numPlayersAtLevel, numLevels. split.
  - intros ->. reflexivity.
  - intros front rest ->. split.
    + intros [Hlo Hhi].
      assert (Hneg : (levelIndex <? 0) = false) by (apply Z.ltb_ge; exact Hlo).
      rewrite Hneg.
      destruct (nth_error (levels front) (Z.to_nat levelIndex)) as [level|] eqn:Hn.
      * exists level. split; reflexivity.
      * apply nth_error_None in Hn. lia.
    + intros [Hlo | Hhi].
      * apply Z.ltb_lt in Hlo. rewrite Hlo. reflexivity.
      * destruct (levelIndex <? 0); [reflexivity|].
        assert (Hn : nth_error (levels front) (Z.to_nat levelIndex) = None)
          by (apply nth_error_None; lia).
        rewrite Hn. reflexivity.
Qed.

End IterationMore.


Lemma toy_one_ids : NoDup (map m_id (m_simmedMoves toyEngine toy_one)).
Proof.
  change (NoDup [1]). constructor; [intros [] | constructor].
Qed.

Lemma simulate_counts_witness :
  Forall2 (simulatedOnce (levelsWanted 2 toy_one))
          (m_simmedMoves toyEngine toy_one)
          (m_simmedMoves toyEngine (simulate toyEngine 2 toy_one)).
Proof.
  apply (simulate_counts toyEngine 2 toy_one). exact toy_one_ids.
Defined.

Lemma toy_one_uniqueIds : uniqueIds toy_one.
Proof.
  split; [exact toy_one_ids|].
  change (Forall (fun sm => m_id sm <= 1)
            [SimmedMove_new (toy_move "A" 20 25%R) 1]).
  constructor; [simpl; lia | constructor].
Qed.

Lemma uniqueIds_kept_witness : uniqueIds (simulate toyEngine 2 toy_one).
Proof.
  destruct (uniqueIds_kept toyEngine toy_one toy_one_uniqueIds)
    as (_ & _ & _ & H).
  exact (H 2).
Defined.

Lemma toy_logging_header : headerOnlyWhenOpen toy_logging.
Proof. intros _. reflexivity. Qed.

Lemma headerOnlyWhenOpen_kept_witness :
  headerOnlyWhenOpen (closeLogfile toyEngine toy_logging).
Proof.
  destruct (headerOnlyWhenOpen_kept toyEngine toy_logging toy_logging_header)
    as (_ & _ & H & _).
  exact H.
Defined.

Lemma simulate_balanced_witness :
  Forall (fun sm => balancedLevels (levels sm))
         (m_simmedMoves toyEngine (simulate toyEngine 2 toy_one)).
Proof.
  apply (simulate_balanced toyEngine 2 toy_one).
  change (Forall (fun sm => balancedLevels (levels sm))
            [SimmedMove_new (toy_move "A" 20 25%R) 1]).
  constructor; [constructor | constructor].
Defined.
